(** * EazyCore: a verification development for the plugin orchestration core

    The development embeds [packages/eazycore/src/index.ts] (service
    registry, definition and instance store, graph resolver, lifecycle
    engine), [packages/eazycore/src/rpc.ts] (downlink and uplink RPC,
    graceful teardown, worker host) and the constructor of the application
    shell ([app.ts]), and states their specification over the embedding.

    Conventions of the embedding:
    - a thrown value is an [Error] object with its [name], [message] and
      [stack];
    - a JavaScript [Map] whose iteration order is observed is an association
      list in insertion order; a [Map] or [Set] that is only probed is a
      [gmap] or a [gset];
    - user callbacks ([setup], [teardown], [schema.parse]) are data of the
      plugin type; a [setup] body is a program over the context interface
      it is handed, so that the engine and the worker host can each run it
      against their own context;
    - calls that leave the engine (log lines, callbacks, worker and channel
      operations) are recorded, in order, in a trace of events; log lines
      are kept without their pictographs;
    - a wiring object is a plain object: a property read on it finds its
      own entries and, failing that, what it inherits from
      [Object.prototype];
    - numbers are integers in the safe range, where a template literal
      writes them in decimal; a timer is armed with the delay that
      [setTimeout] makes of its argument;
    - an [await] is taken to settle with the awaited value, which it does
      unless the value is a thenable; statements that depend on what a
      [setup] returned say so. *)

From stdpp Require Import gmap strings list fin_maps pretty.

#[local] Set Warnings "-clear-no-such-hyp".

Open Scope string_scope.
Open Scope list_scope.

(** ** Values, errors, completions *)

(** JavaScript values, as far as the engine inspects them: it only tests
    truthiness and passes them on. *)
Inductive Value :=
| VUndefined
| VNull
| VBool (b : bool)
| VNum (n : Z)
| VStr (s : string)
| VObj (label : string)
| VProxy (workerId : string).

(** A value with a callable [then]: [await] hands it the continuation and
    waits for it to call back. The proxy of [createRpcClient] is one, since
    it answers every property with a function that posts a [CALL]; a call
    of its [then] has the continuations as arguments and is never answered.
    Plain objects of the model have no [then]. *)
Definition thenable (v : Value) : bool :=
  match v with
  | VProxy _ => true
  | _ => false
  end.

Definition truthy (v : Value) : bool :=
  match v with
  | VUndefined | VNull => false
  | VBool b => b
  | VNum n => negb (n =? 0)%Z
  | VStr s => negb (String.eqb s "")
  | VObj _ | VProxy _ => true
  end.

(** An [Error] object. *)
Record JsError := {
  name : string;
  message : string;
  stack : string
}.

Definition nl : string := String (Ascii.ascii_of_nat 10) EmptyString.
Definition dquote : string := String (Ascii.ascii_of_nat 34) EmptyString.

(** [Error.prototype.toString]: the name and the message joined by a
    colon; when one of them is empty, the other alone. *)
Definition Error_toString (name message : string) : string :=
  if String.eqb name "" then message
  else if String.eqb message "" then name
  else name +:+ ": " +:+ message.

(** [new Error(message)]: the name is the prototype's, the stack is captured
    where the object is built. *)
Definition new_Error (msg : string) : JsError :=
  {| name := "Error"; message := msg;
     stack := Error_toString "Error" msg +:+ nl +:+ "    at <anonymous>" |}.

Definition new_TypeError (msg : string) : JsError :=
  {| name := "TypeError"; message := msg;
     stack := Error_toString "TypeError" msg +:+ nl +:+ "    at <anonymous>" |}.

(** The rendering of an error inside a template literal: its [toString]
    method. An error named [ZodError] is an instance of zod's class, which
    overrides the method and returns the message; every other error has
    the method of [Error.prototype]. *)
Definition toString (e : JsError) : string :=
  if String.eqb (name e) "ZodError" then message e
  else Error_toString (name e) (message e).

(** Outcome of running a piece of code: normal completion, or a throw. *)
Inductive Result (A : Type) : Type :=
| Ok (a : A)
| Err (e : JsError).
Arguments Ok {A} a.
Arguments Err {A} e.

(** [Array.prototype.join]. *)
Definition join (sep : string) (l : list string) : string := String.concat sep l.

(** A schema handle: [parse] returns the parsed value or throws. *)
Record Schema := {
  schema_name : string;
  parse : Value → Result Value
}.

(** ** Wire messages (rpc.ts, RpcMessage and UplinkMessage) *)

Inductive RpcMessage :=
| CALL (id : string) (method : string) (args : list Value)
| RESPONSE (id : string) (result : Value)
| ERROR (id : string) (error : string)
| TEARDOWN (id : string)
| TEARDOWN_COMPLETE (id : string) (error : option string)
| WORKER_READY (id : string).

Inductive UplinkMessage :=
| UPLINK_CALL (id : string) (serviceName : string) (method : string) (args : list Value)
| UPLINK_RESPONSE (id : string) (result : Value)
| UPLINK_ERROR (id : string) (error : string).

(** A wiring object: its own enumerable entries, in enumeration order. *)
Definition WiringMap := list (string * string).

(** ** Events and the engine monad *)

Inductive Event :=
| EvLog (line : string)
| EvWarn (line : string)
| EvParse (schema : string) (v : Value)
| EvSetup (instanceId : string)
| EvTeardown (instanceId : string)
| EvUplinkServer (instanceId : string) (w : WiringMap)
| EvSpawn (instanceId typeId entryPoint : string) (config : Value)
| EvPost (instanceId : string) (msg : RpcMessage)
| EvTerminate (instanceId : string).

(** A computation over a mutable object of type [S]: mutations made before a
    throw stay, and so do the events. *)
Definition M (S A : Type) : Type := S → S * list Event * Result A.

Definition ret {S A} (a : A) : M S A := fun s => (s, [], Ok a).
Definition throw {S A} (e : JsError) : M S A := fun s => (s, [], Err e).
Definition emit {S} (ev : Event) : M S unit := fun s => (s, [ev], Ok tt).
Definition gets {S A} (f : S → A) : M S A := fun s => (s, [], Ok (f s)).
Definition modify {S} (f : S → S) : M S unit := fun s => (f s, [], Ok tt).
Definition lift_result {S A} (r : Result A) : M S A := fun s => (s, [], r).

Definition bind {S A B} (m : M S A) (f : A → M S B) : M S B :=
  fun s =>
    match m s with
    | (s1, t1, Ok a) => match f a s1 with (s2, t2, r) => (s2, t1 ++ t2, r) end
    | (s1, t1, Err e) => (s1, t1, Err e)
    end.

(** [try { m } catch (e) { h e }]. *)
Definition try_catch {S A} (m : M S A) (h : JsError → M S A) : M S A :=
  fun s =>
    match m s with
    | (s1, t1, Ok a) => (s1, t1, Ok a)
    | (s1, t1, Err e) => match h e s1 with (s2, t2, r) => (s2, t1 ++ t2, r) end
    end.

(** The completion of [m] as a value. *)
Definition reify {S A} (m : M S A) : M S (Result A) :=
  fun s => match m s with (s1, t1, r) => (s1, t1, Ok r) end.

(** Run a computation over a component of the state. *)
Definition zoom {S T A} (get : S → T) (set : T → S → S) (m : M T A) : M S A :=
  fun s => match m (get s) with (t', tr, r) => (set t' s, tr, r) end.

Notation "'let*' x := m 'in' k" := (bind m (fun x => k))
  (at level 10, x name, m at level 100, k at level 200).
Notation "m >>> k" := (bind m (fun _ => k))
  (at level 100, k at level 200, right associativity).

(** A [for ... of] loop over ids. *)
Fixpoint for_of {S} (l : list string) (body : string → M S unit) : M S unit :=
  match l with
  | [] => ret tt
  | x :: l' => body x >>> for_of l' body
  end.

Definition state_of {S A} (r : S * list Event * Result A) : S := r.1.1.
Definition trace_of {S A} (r : S * list Event * Result A) : list Event := r.1.2.
Definition result_of {S A} (r : S * list Event * Result A) : Result A := r.2.

(** ** Service registry (index.ts, class PluginContext) *)

Record PluginContext := { services : gmap string Value }.

Definition PluginContext_new : PluginContext := {| services := ∅ |}.

Definition services_has (id : string) (ctx : PluginContext) : bool :=
  bool_decide (is_Some (services ctx !! id)).

Definition services_set (id : string) (impl : Value) (ctx : PluginContext) : PluginContext :=
  {| services := <[id := impl]> (services ctx) |}.

(** [schema.parse(v)], recorded. *)
Definition call_parse {S} (schema : Schema) (v : Value) : M S Value :=
  emit (EvParse (schema_name schema) v) >>> lift_result (parse schema v).

Definition registerService (id : string) (schema : Schema) (impl : Value)
    (validate : bool) : M PluginContext unit :=
  let* has := gets (services_has id) in
  if (has : bool) then
    throw (new_Error ("Service '" +:+ id +:+ "' already registered."))
  else
    (if validate then
       try_catch (call_parse schema impl >>> ret tt)
         (fun e => throw (new_Error ("Service '" +:+ id +:+
                                     "' failed contract validation: " +:+ toString e)))
     else ret tt) >>>
    modify (services_set id impl).

Definition getService (id : string) : M PluginContext Value :=
  let* v := gets (fun ctx => services ctx !! id) in
  match v with
  | None => throw (new_Error ("Service '" +:+ id +:+ "' not found."))
  | Some v => ret v
  end.

Definition hasService (id : string) : M PluginContext bool :=
  gets (services_has id).

(** ** Plugin types and instances (index.ts) *)

Inductive ExecutionMode := main | worker.

Definition mode_name (m : ExecutionMode) : string :=
  match m with main => "main" | worker => "worker" end.

(** The body of a [setup] hook, as a program over the context it receives:
    each call into the context hands its completion to the rest of the
    body, which may catch a throw or let it escape. *)
Inductive SetupProg :=
| Return (v : Value)
| Raise (e : JsError)
| RegisterService (id : string) (schema : Schema) (impl : Value)
    (validate : bool) (k : Result unit → SetupProg)
| GetService (id : string) (k : Result Value → SetupProg)
| HasService (id : string) (k : bool → SetupProg).

(** The [deps] argument of [setup]: the record built by the engine in main
    mode, the uplink proxy in a worker. *)
Inductive Deps :=
| DepsRecord (d : list (string * Value))
| DepsUplink.

Record PluginTypeDefinition := {
  def_id : string;
  def_schema : Schema;
  def_requirements : option (list (string * Schema));
  def_entryPoint : option string;
  def_setup : Value → Deps → string → SetupProg;
  def_teardown : option (string → Result unit)
}.

Record PluginInstance := {
  inst_id : string;
  inst_typeId : string;
  inst_config : Value;
  inst_wiring : WiringMap;
  inst_mode : ExecutionMode
}.

(** [definePlugin(def).create(id, config, wiring = {}, mode = 'main')]. *)
Definition create (def : PluginTypeDefinition) (id : string) (config : Value)
    (wiring : option WiringMap) (mode : option ExecutionMode) : PluginInstance :=
  {| inst_id := id; inst_typeId := def_id def; inst_config := config;
     inst_wiring := default [] wiring; inst_mode := default main mode |}.

(** [Object.values(wiring)] and [Object.keys(requirements)]. *)
Definition Object_values (w : WiringMap) : list string := w.*2.
Definition Object_keys {A} (o : list (string * A)) : list string := o.*1.

(** The own entry of a wiring object under [key], if it has one. *)
Fixpoint wiring_get (w : WiringMap) (key : string) : option string :=
  match w with
  | [] => None
  | (k, v) :: w' => if String.eqb k key then Some v else wiring_get w' key
  end.

(** The methods that a plain object inherits from [Object.prototype]. *)
Definition Object_prototype_methods : list string :=
  ["__defineGetter__"; "__defineSetter__"; "hasOwnProperty"; "__lookupGetter__";
   "__lookupSetter__"; "isPrototypeOf"; "propertyIsEnumerable"; "toString";
   "valueOf"; "toLocaleString"].

(** What a plain object answers for a property it does not own, rendered as
    a template literal renders it: the constructor [Object], a built-in
    method, or the prototype itself under [__proto__]. *)
Definition Object_prototype_get (key : string) : option string :=
  if String.eqb key "constructor" then Some "function Object() { [native code] }"
  else if String.eqb key "__proto__" then Some "[object Object]"
  else if bool_decide (key ∈ Object_prototype_methods)
       then Some ("function " +:+ key +:+ "() { [native code] }")
  else None.

(** The value of the property read [wiring[key]] on a wiring object, which
    is a plain object: its own entry; else what it inherits, which is
    truthy and is not a string; else [undefined]. *)
Inductive WiringValue :=
| OwnEntry (serviceId : string)
| Inherited (rendered : string)
| Absent.

Definition wiring_read (w : WiringMap) (key : string) : WiringValue :=
  match wiring_get w key with
  | Some serviceId => OwnEntry serviceId
  | None =>
      match Object_prototype_get key with
      | Some rendered => Inherited rendered
      | None => Absent
      end
  end.

(** The [instances] map: insertion order is observed by [keys()]. *)
Definition Instances := list (string * PluginInstance).

Definition keys (insts : Instances) : list string := insts.*1.

Fixpoint instances_get (insts : Instances) (k : string) : option PluginInstance :=
  match insts with
  | [] => None
  | (k', p) :: rest => if String.eqb k' k then Some p else instances_get rest k
  end.

Definition instances_has (insts : Instances) (k : string) : bool :=
  match instances_get insts k with Some _ => true | None => false end.

(** [Map.prototype.set]: a present key keeps its position. *)
Fixpoint instances_set (insts : Instances) (k : string) (p : PluginInstance) : Instances :=
  match insts with
  | [] => [(k, p)]
  | (k', p') :: rest =>
      if String.eqb k' k then (k', p) :: rest else (k', p') :: instances_set rest k p
  end.

(** The [workerData] bundle a worker is spawned with. *)
Record Worker := {
  w_pluginId : string;
  w_typeId : string;
  w_entryPoint : string;
  w_config : Value
}.

Record EazyCore := {
  context : PluginContext;
  pluginTypes : gmap string PluginTypeDefinition;
  instances : Instances;
  workers : gmap string Worker;
  definitionsLocked : bool
}.

Definition EazyCore_new : EazyCore :=
  {| context := PluginContext_new; pluginTypes := ∅; instances := [];
     workers := ∅; definitionsLocked := false |}.

Definition set_context (c : PluginContext) (e : EazyCore) : EazyCore :=
  {| context := c; pluginTypes := pluginTypes e; instances := instances e;
     workers := workers e; definitionsLocked := definitionsLocked e |}.
Definition set_pluginTypes (t : gmap string PluginTypeDefinition) (e : EazyCore) : EazyCore :=
  {| context := context e; pluginTypes := t; instances := instances e;
     workers := workers e; definitionsLocked := definitionsLocked e |}.
Definition set_instances (i : Instances) (e : EazyCore) : EazyCore :=
  {| context := context e; pluginTypes := pluginTypes e; instances := i;
     workers := workers e; definitionsLocked := definitionsLocked e |}.
Definition set_workers (w : gmap string Worker) (e : EazyCore) : EazyCore :=
  {| context := context e; pluginTypes := pluginTypes e; instances := instances e;
     workers := w; definitionsLocked := definitionsLocked e |}.
Definition set_definitionsLocked (b : bool) (e : EazyCore) : EazyCore :=
  {| context := context e; pluginTypes := pluginTypes e; instances := instances e;
     workers := workers e; definitionsLocked := b |}.

(** Run a registry operation on [this.context]. *)
Definition on_context {A} (m : M PluginContext A) : M EazyCore A :=
  zoom context set_context m.

Definition log (line : string) : M EazyCore unit := emit (EvLog line).

Definition registerDefinition (def : PluginTypeDefinition) : M EazyCore unit :=
  let* locked := gets definitionsLocked in
  if (locked : bool) then
    throw (new_Error ("Registry is locked. Cannot register new plugin type: '"
                      +:+ def_id def +:+ "'"))
  else
    let* known := gets (fun e => bool_decide (is_Some (pluginTypes e !! def_id def))) in
    if (known : bool) then
      throw (new_Error ("Plugin Type '" +:+ def_id def +:+ "' is already registered."))
    else
      modify (fun e => set_pluginTypes (<[def_id def := def]> (pluginTypes e)) e).

Definition lockDefinitions : M EazyCore unit :=
  modify (set_definitionsLocked true).

Definition registerPlugin (plugin : PluginInstance) : M EazyCore unit :=
  let* known := gets (fun e => bool_decide (is_Some (pluginTypes e !! inst_typeId plugin))) in
  if negb known then
    throw (new_Error ("Unknown Plugin Type: '" +:+ inst_typeId plugin +:+
                      "'. Did you forget to register the definition?"))
  else
    let* used := gets (fun e => instances_has (instances e) (inst_id plugin)) in
    if (used : bool) then
      throw (new_Error ("Plugin Instance ID '" +:+ inst_id plugin +:+ "' is already used."))
    else
      modify (fun e => set_instances (instances_set (instances e) (inst_id plugin) plugin) e).

(** ** Graph resolver (index.ts, resolveExecutionOrder) *)

(** The three mutable objects the closure [visit] shares, and the
    [ancestors] array of the current top-level call. *)
Record DfsState := {
  visited : gset string;
  sorted : list string;
  visiting : gset string;
  ancestors : list string
}.

Definition dfs_init : DfsState :=
  {| visited := ∅; sorted := []; visiting := ∅; ancestors := [] |}.

Definition cyclic_message (anc : list string) (nodeId : string) : string :=
  "Cyclic dependency: " +:+ join " -> " anc +:+ " -> " +:+ nodeId.

(** A loop whose body may throw or exhaust the recursion budget ([None]). *)
Fixpoint dfs_for_of (body : string → DfsState → option (Result DfsState))
    (l : list string) (st : DfsState) : option (Result DfsState) :=
  match l with
  | [] => Some (Ok st)
  | x :: l' =>
      match body x st with
      | Some (Ok st') => dfs_for_of body l' st'
      | other => other
      end
  end.

(** The closure [visit]; [fuel] bounds the depth of the recursion. *)
Fixpoint visit (insts : Instances) (fuel : nat) (nodeId : string) (st : DfsState)
    : option (Result DfsState) :=
  match fuel with
  | O => None
  | S fuel' =>
      if decide (nodeId ∈ visited st) then Some (Ok st)
      else if decide (nodeId ∈ visiting st) then
        Some (Err (new_Error (cyclic_message (ancestors st) nodeId)))
      else
        let st1 := {| visited := visited st; sorted := sorted st;
                      visiting := {[nodeId]} ∪ visiting st;
                      ancestors := ancestors st ++ [nodeId] |} in
        let deps :=
          match instances_get insts nodeId with
          | Some instance =>
              dfs_for_of (fun depId s =>
                            if instances_has insts depId
                            then visit insts fuel' depId s
                            else Some (Ok s))
                         (Object_values (inst_wiring instance)) st1
          | None => Some (Ok st1)
          end in
        match deps with
        | Some (Ok st2) =>
            Some (Ok {| visited := {[nodeId]} ∪ visited st2;
                        sorted := sorted st2 ++ [nodeId];
                        visiting := visiting st2 ∖ {[nodeId]};
                        ancestors := removelast (ancestors st2) |})
        | other => other
        end
  end.

(** The top-level loop: every key is visited with a fresh [ancestors]. *)
Definition visit_root (insts : Instances) (fuel : nat) (k : string) (st : DfsState)
    : option (Result DfsState) :=
  visit insts fuel k
    {| visited := visited st; sorted := sorted st;
       visiting := visiting st; ancestors := [] |}.

Definition resolve_with (insts : Instances) (fuel : nat) : option (Result (list string)) :=
  match dfs_for_of (visit_root insts fuel) (keys insts) dfs_init with
  | Some (Ok st) => Some (Ok (sorted st))
  | Some (Err e) => Some (Err e)
  | None => None
  end.

(** [visit] never nests deeper than the number of instances plus one, so
    this budget is never exhausted (lemma [resolve_with_returns]); the last
    branch is there for totality only. *)
Definition resolveExecutionOrder (insts : Instances) : Result (list string) :=
  match resolve_with insts (S (length insts)) with
  | Some r => r
  | None => Err (new_Error "unreachable")
  end.

(** ** Diagnostic graph (index.ts, generateMermaidGraph) *)

Definition mermaid_edges (insts : Instances) (id : string) (w : WiringMap) : string :=
  fold_left (fun graph '(reqName, targetId) =>
      if instances_has insts targetId then
        graph +:+ "  " +:+ id +:+ " -.->|" +:+ reqName +:+ "| " +:+ targetId +:+ ";" +:+ nl
      else
        graph +:+ "  " +:+ id +:+ " -.->|" +:+ reqName +:+ "| MISSING[?" +:+ targetId +:+ "?];" +:+ nl
              +:+ "  style MISSING fill:#f9f,stroke:#333,stroke-width:2px;" +:+ nl)
    w "".

Definition generateMermaidGraph (insts : Instances) : string :=
  fold_left (fun graph '(id, plugin) =>
      let shape := match inst_mode plugin with worker => "{{" | main => "[" end in
      let endShape := match inst_mode plugin with worker => "}}" | main => "]" end in
      graph +:+ "  " +:+ id +:+ shape +:+ dquote +:+ id +:+ "<br/><small>(" +:+
        inst_typeId plugin +:+ ") [" +:+ mode_name (inst_mode plugin) +:+ "]</small>" +:+
        dquote +:+ endShape +:+ ";" +:+ nl +:+
        mermaid_edges insts id (inst_wiring plugin))
    insts ("graph TD;" +:+ nl).

(** ** The worker side as the host sees it *)

(** What a worker does with a [TEARDOWN] request. *)
Inductive TeardownReply :=
| TeardownComplete (error : option string)
| NoReply.

(** The environment of the host: correlation ids, worker replies and the
    completion of [worker.terminate()]. *)
Record Host := {
  nanoid : string → string;
  teardown_reply : string → TeardownReply;
  terminate_result : string → Result unit
}.

(** rpc.ts, gracefulTeardown: the promise resolves on the matching
    [TEARDOWN_COMPLETE] or when the safety timer fires; it never rejects. *)
Definition gracefulTeardown (host : Host) (workerId : string) (timeoutMs : Z)
    : M EazyCore unit :=
  let id := nanoid host workerId in
  emit (EvPost workerId (TEARDOWN id)) >>>
  match teardown_reply host workerId with
  | TeardownComplete (Some err) =>
      emit (EvWarn ("[RPC] Worker teardown failed: " +:+ err))
  | TeardownComplete None => ret tt
  | NoReply =>
      emit (EvTerminate workerId) >>>
      emit (EvWarn "[RPC] Worker teardown timed out. Force terminated.")
  end.

(** ** Lifecycle engine (index.ts, start and stop) *)

Definition resolve_order : M EazyCore (list string) :=
  let* insts := gets instances in lift_result (resolveExecutionOrder insts).

(** Reading a property of [undefined]. *)
Definition undefined_read {A} (prop : string) : M EazyCore A :=
  throw (new_TypeError ("Cannot read properties of undefined (reading '" +:+ prop +:+ "')")).

(** Step 2 of [start]: the [deps] record of a main-mode instance. An
    inherited property passes the test [!serviceId]; [getService] then finds
    nothing under it, the services being registered under strings. *)
Fixpoint resolve_deps (id : string) (w : WiringMap) (reqs : list string)
    (deps : list (string * Value)) : M EazyCore (list (string * Value)) :=
  match reqs with
  | [] => ret deps
  | key :: reqs' =>
      match wiring_read w key with
      | OwnEntry serviceId =>
          if String.eqb serviceId "" then
            throw (new_Error ("Plugin '" +:+ id +:+ "' missing wiring for '" +:+ key +:+ "'"))
          else
            let* svc := on_context (getService serviceId) in
            resolve_deps id w reqs' (deps ++ [(key, svc)])
      | Inherited rendered =>
          throw (new_Error ("Service '" +:+ rendered +:+ "' not found."))
      | Absent =>
          throw (new_Error ("Plugin '" +:+ id +:+ "' missing wiring for '" +:+ key +:+ "'"))
      end
  end.

(** A [setup] body run against the engine's [PluginContext]. *)
Fixpoint run_setup (p : SetupProg) : M PluginContext Value :=
  match p with
  | Return v => ret v
  | Raise e => throw e
  | RegisterService id schema impl validate k =>
      let* r := reify (registerService id schema impl validate) in run_setup (k r)
  | GetService id k =>
      let* r := reify (getService id) in run_setup (k r)
  | HasService id k =>
      let* b := hasService id in run_setup (k b)
  end.

(** The body of the loop of [start]. The [await] on what [setup] returned
    is taken to settle with that value; it does when the value is not
    [thenable]. *)
Definition start_instance (id : string) : M EazyCore unit :=
  let* plugin := gets (fun e => instances_get (instances e) id) in
  match plugin with
  | None => undefined_read "typeId"
  | Some plugin =>
      let* type := gets (fun e => pluginTypes e !! inst_typeId plugin) in
      log ("   [" +:+ id +:+ "] Initializing (" +:+ mode_name (inst_mode plugin) +:+ ")...") >>>
      match type with
      | None => undefined_read "schema"
      | Some type =>
          let* config := call_parse (def_schema type) (inst_config plugin) in
          let* deps :=
            match inst_mode plugin, def_requirements type with
            | main, Some reqs => resolve_deps id (inst_wiring plugin) (Object_keys reqs) []
            | _, _ => ret []
            end in
          match inst_mode plugin with
          | main =>
              emit (EvSetup id) >>>
              let* result :=
                on_context (run_setup (def_setup type config (DepsRecord deps) id)) in
              let* has := on_context (hasService id) in
              if truthy result && negb has then
                on_context (registerService id (def_schema type) result true)
              else ret tt
          | worker =>
              match def_entryPoint type with
              | None =>
                  throw (new_Error ("Plugin '" +:+ def_id type +:+ "' missing entryPoint"))
              | Some entryPoint =>
                  if String.eqb entryPoint "" then
                    throw (new_Error ("Plugin '" +:+ def_id type +:+ "' missing entryPoint"))
                  else
                    emit (EvUplinkServer id (inst_wiring plugin)) >>>
                    emit (EvSpawn id (def_id type) entryPoint config) >>>
                    modify (fun e => set_workers
                              (<[id := {| w_pluginId := id; w_typeId := def_id type;
                                          w_entryPoint := entryPoint; w_config := config |}]>
                                 (workers e)) e) >>>
                    on_context (registerService id (def_schema type) (VProxy id) false)
              end
          end
      end
  end.

Definition start (dryRun : bool) : M EazyCore unit :=
  log ("EazyCore Starting" +:+ (if dryRun then " [DRY RUN]" else "") +:+ "...") >>>
  let* order := resolve_order in
  log ("Execution Order: " +:+ join " -> " order) >>>
  if dryRun then
    log "Mermaid Graph:" >>>
    log "---" >>>
    (let* insts := gets instances in log (generateMermaidGraph insts)) >>>
    log "---" >>>
    log "System Ready"
  else
    for_of order start_instance >>>
    log "System Ready".

(** The body of the loop of [stop]. *)
Definition stop_instance (host : Host) (id : string) : M EazyCore unit :=
  let* plugin := gets (fun e => instances_get (instances e) id) in
  match plugin with
  | None => undefined_read "typeId"
  | Some plugin =>
      let* type := gets (fun e => pluginTypes e !! inst_typeId plugin) in
      try_catch
        match inst_mode plugin with
        | main =>
            match type with
            | None => undefined_read "teardown"
            | Some type =>
                match def_teardown type with
                | Some teardown => emit (EvTeardown id) >>> lift_result (teardown id)
                | None => ret tt
                end
            end
        | worker =>
            let* w := gets (fun e => workers e !! id) in
            match w with
            | Some _ =>
                log ("   [" +:+ id +:+ "] Terminating Worker...") >>>
                gracefulTeardown host id 5000 >>>
                emit (EvTerminate id) >>>
                lift_result (terminate_result host id) >>>
                modify (fun e => set_workers (delete id (workers e)) e)
            | None => ret tt
            end
        end
        (fun err => log ("   [" +:+ id +:+ "] Error during teardown: " +:+ toString err))
  end.

Definition stop (host : Host) (dryRun : bool) : M EazyCore unit :=
  log (nl +:+ "EazyCore Stopping..." +:+ (if dryRun then " [DRY RUN]" else "")) >>>
  let* resolved := resolve_order in
  let order := rev resolved in
  if dryRun then
    log ("Teardown Order: " +:+ join " -> " order) >>>
    log "System Stopped"
  else
    for_of order (stop_instance host) >>>
    log "System Stopped".

(** The calls a client of the engine can make, and a run of them; a throw
    is the caller's to handle, so a run goes on after it. *)
Inductive Op :=
| OpRegisterDefinition (def : PluginTypeDefinition)
| OpLockDefinitions
| OpRegisterPlugin (plugin : PluginInstance)
| OpStart (dryRun : bool)
| OpStop (host : Host) (dryRun : bool).

Definition run_op (op : Op) : M EazyCore unit :=
  match op with
  | OpRegisterDefinition def => registerDefinition def
  | OpLockDefinitions => lockDefinitions
  | OpRegisterPlugin plugin => registerPlugin plugin
  | OpStart dryRun => start dryRun
  | OpStop host dryRun => stop host dryRun
  end.

Fixpoint run_ops (ops : list Op) (e : EazyCore) : EazyCore * list (Result unit) :=
  match ops with
  | [] => (e, [])
  | op :: ops' =>
      let r := run_op op e in
      let rest := run_ops ops' (state_of r) in
      (rest.1, result_of r :: rest.2)
  end.

(** ** RPC clients (rpc.ts, createRpcClient and createUplinkClient) *)

Definition DEFAULT_RPC_TIMEOUT_MS : Z := 10000.

(** The longest delay of a timer, in milliseconds. *)
Definition TIMEOUT_MAX : Z := 2147483647.

(** The delay [setTimeout] arms a timer with: a delay below 1 or above
    [TIMEOUT_MAX] is replaced by 1. *)
Definition setTimeout_delay (ms : Z) : Z :=
  if (1 <=? ms)%Z && (ms <=? TIMEOUT_MAX)%Z then ms else 1%Z.

Inductive PromiseState :=
| Pending
| Fulfilled (v : Value)
| Rejected (e : JsError).

(** An entry of a [pending] map: the promise its [resolve] and [reject]
    settle and the timer they clear first, if they clear one. *)
Record PendingEntry := {
  entry_promise : nat;
  entry_timer : option nat
}.

(** An armed [setTimeout] of [createRpcClient] with what its callback
    captured. *)
Record Timer := {
  timer_handle : nat;
  timer_deadline : Z;
  timer_id : string;
  timer_prop : string;
  timer_timeoutMs : Z;
  timer_promise : nat
}.

(** One side of a channel: the [pending] map, the armed timers in arming
    order, the promises handed out (by handle), the messages posted and the
    clock of the event loop. *)
Record Client (Msg : Type) := {
  pending : gmap string PendingEntry;
  timers : list Timer;
  next_timer : nat;
  promises : list PromiseState;
  outbox : list Msg;
  now : Z
}.
Arguments pending {Msg} c.
Arguments timers {Msg} c.
Arguments next_timer {Msg} c.
Arguments promises {Msg} c.
Arguments outbox {Msg} c.
Arguments now {Msg} c.

Definition client_new {Msg} (t0 : Z) : Client Msg :=
  {| pending := ∅; timers := []; next_timer := 0; promises := [];
     outbox := []; now := t0 |}.

(** Settling a promise that is already settled does nothing. *)
Definition settle (p : nat) (st : PromiseState) (ps : list PromiseState)
    : list PromiseState :=
  match ps !! p with
  | Some Pending => <[p := st]> ps
  | _ => ps
  end.

Definition clearTimeout (h : option nat) (ts : list Timer) : list Timer :=
  match h with
  | Some h => List.filter (fun t => negb (Nat.eqb (timer_handle t) h)) ts
  | None => ts
  end.

(** The error of a call that timed out. The timeout is written as the
    template literal writes a number that is a safe integer, in decimal; the
    timeouts that [setTimeout] honours are. *)
Definition rpc_timeout_error (prop : string) (timeoutMs : Z) : JsError :=
  new_Error ("RPC Timeout: Call to '" +:+ prop +:+ "' took > " +:+ pretty timeoutMs +:+ "ms").

(** The [resolve] or [reject] closure of an entry, called with [st]. *)
Definition entry_settle {Msg} (entry : PendingEntry) (st : PromiseState)
    (c : Client Msg) : Client Msg :=
  {| pending := pending c;
     timers := clearTimeout (entry_timer entry) (timers c);
     next_timer := next_timer c;
     promises := settle (entry_promise entry) st (promises c);
     outbox := outbox c; now := now c |}.

(** The message handler both clients install: settle the entry of the id,
    if there is one, then delete it. *)
Definition client_complete {Msg} (id : string) (st : PromiseState)
    (c : Client Msg) : Client Msg :=
  let c1 := match pending c !! id with
            | Some entry => entry_settle entry st c
            | None => c
            end in
  {| pending := delete id (pending c1); timers := timers c1;
     next_timer := next_timer c1; promises := promises c1;
     outbox := outbox c1; now := now c1 |}.

(** The callback of a timer of [createRpcClient]. *)
Definition timer_fire {Msg} (c : Client Msg) (t : Timer) : Client Msg :=
  {| pending := delete (timer_id t) (pending c);
     timers := timers c; next_timer := next_timer c;
     promises := settle (timer_promise t)
                   (Rejected (rpc_timeout_error (timer_prop t) (timer_timeoutMs t)))
                   (promises c);
     outbox := outbox c; now := now c |}.

Definition timer_due (t0 : Z) (t : Timer) : bool := (timer_deadline t <=? t0)%Z.

(** The event loop after [dt] more milliseconds: every armed timer whose
    deadline is reached has fired, in arming order. *)
Definition elapse {Msg} (dt : N) (c : Client Msg) : Client Msg :=
  let t1 := (now c + Z.of_N dt)%Z in
  foldl timer_fire
    {| pending := pending c;
       timers := List.filter (fun t => negb (timer_due t1 t)) (timers c);
       next_timer := next_timer c; promises := promises c;
       outbox := outbox c; now := t1 |}
    (List.filter (timer_due t1) (timers c)).

(** What happens to a client: a call through its proxy, with the id that
    [nanoid()] mints for it; a message on its channel; time passing. *)
Inductive ClientEvent (Req Msg : Type) :=
| Invoke (req : Req) (id : string)
| Receive (msg : Msg)
| Elapse (dt : N).
Arguments Invoke {Req Msg} req id.
Arguments Receive {Req Msg} msg.
Arguments Elapse {Req Msg} dt.

(** A downlink call [proxy.prop(...args)]. *)
Record RpcRequest := { rpc_prop : string; rpc_args : list Value }.

(** The promise executor of the proxy of [createRpcClient]. The handle of
    the promise returned to the caller is the second component. *)
Definition rpc_call (timeoutMs : Z) (req : RpcRequest) (id : string)
    (c : Client RpcMessage) : Client RpcMessage * nat :=
  let p := length (promises c) in
  let h := next_timer c in
  ({| pending := <[id := {| entry_promise := p; entry_timer := Some h |}]> (pending c);
      timers := timers c ++ [{| timer_handle := h;
                                timer_deadline := (now c + setTimeout_delay timeoutMs)%Z;
                                timer_id := id; timer_prop := rpc_prop req;
                                timer_timeoutMs := timeoutMs; timer_promise := p |}];
      next_timer := S h;
      promises := promises c ++ [Pending];
      outbox := outbox c ++ [CALL id (rpc_prop req) (rpc_args req)];
      now := now c |}, p).

Definition rpc_client_on_message (msg : RpcMessage) (c : Client RpcMessage)
    : Client RpcMessage :=
  match msg with
  | RESPONSE id result => client_complete id (Fulfilled result) c
  | ERROR id error => client_complete id (Rejected (new_Error error)) c
  | _ => c
  end.

Definition rpc_client_step (timeoutMs : Z) (c : Client RpcMessage)
    (ev : ClientEvent RpcRequest RpcMessage) : Client RpcMessage :=
  match ev with
  | Invoke req id => (rpc_call timeoutMs req id c).1
  | Receive msg => rpc_client_on_message msg c
  | Elapse dt => elapse dt c
  end.

(** An uplink call [deps.serviceName.method(...args)]. *)
Record UplinkRequest := {
  up_serviceName : string;
  up_method : string;
  up_args : list Value
}.

(** The promise executor of the inner proxy of [createUplinkClient]. *)
Definition uplink_call (req : UplinkRequest) (id : string)
    (c : Client UplinkMessage) : Client UplinkMessage * nat :=
  let p := length (promises c) in
  ({| pending := <[id := {| entry_promise := p; entry_timer := None |}]> (pending c);
      timers := timers c;
      next_timer := next_timer c;
      promises := promises c ++ [Pending];
      outbox := outbox c ++ [UPLINK_CALL id (up_serviceName req) (up_method req) (up_args req)];
      now := now c |}, p).

Definition uplink_client_on_message (msg : UplinkMessage) (c : Client UplinkMessage)
    : Client UplinkMessage :=
  match msg with
  | UPLINK_RESPONSE id result => client_complete id (Fulfilled result) c
  | UPLINK_ERROR id error => client_complete id (Rejected (new_Error error)) c
  | _ => c
  end.

Definition uplink_client_step (c : Client UplinkMessage)
    (ev : ClientEvent UplinkRequest UplinkMessage) : Client UplinkMessage :=
  match ev with
  | Invoke req id => (uplink_call req id c).1
  | Receive msg => uplink_client_on_message msg c
  | Elapse dt => elapse dt c
  end.

(** ** RPC servers (rpc.ts, createRpcServer and createUplinkServer) *)

(** A service object as the servers use it: [service[method]], if it is
    callable, applied to the arguments. *)
Definition Service := string → option (list Value → Result Value).

Definition not_a_function : JsError :=
  new_TypeError "service[msg.method] is not a function".

Definition invoke (service : Service) (method : string) (args : list Value)
    : Result Value :=
  match service method with
  | Some f => f args
  | None => Err not_a_function
  end.

(** The handler of [createRpcServer]: the messages it posts back. *)
Definition rpc_server_on_message (service : Service) (msg : RpcMessage)
    : list RpcMessage :=
  match msg with
  | CALL id method args =>
      match invoke service method args with
      | Ok result => [RESPONSE id result]
      | Err err => [ERROR id (message err)]
      end
  | _ => []
  end.

(** The handler of [createUplinkServer]; [objects] gives the service object
    behind a registered value. *)
Definition uplink_server_on_message (objects : Value → Service)
    (ctx : PluginContext) (wiring : WiringMap) (msg : UplinkMessage)
    : list UplinkMessage :=
  match msg with
  | UPLINK_CALL id serviceName method args =>
      let outcome :=
        match wiring_read wiring serviceName with
        | Absent => Err (new_Error ("Wiring missing for " +:+ serviceName))
        | Inherited rendered =>
            Err (new_Error ("Service '" +:+ rendered +:+ "' not found."))
        | OwnEntry serviceId =>
            if String.eqb serviceId "" then
              Err (new_Error ("Wiring missing for " +:+ serviceName))
            else
              match result_of (getService serviceId ctx) with
              | Err e => Err e
              | Ok service => invoke (objects service) method args
              end
        end in
      match outcome with
      | Ok result => [UPLINK_RESPONSE id result]
      | Err err => [UPLINK_ERROR id (message err)]
      end
  | _ => []
  end.

(** The two helpers at the end of rpc.ts; no handler calls them. *)
Definition serializeError (err : JsError) : JsError :=
  {| name := name err;
     message := if String.eqb (message err) "" then "Unknown Error" else message err;
     stack := stack err |}.

Definition deserializeError (errData : JsError) : JsError :=
  {| name := name errData; message := message errData; stack := stack errData |}.

(** ** Worker host (worker-host.ts, bootstrap) *)

(** What [typeof] answers for a value that has properties. *)
Inductive TypeOf := TObject | TFunction.

(** An export of the module behind [entryPoint], as far as the host
    inspects it: an object, or a function or class, that has an [id] and a
    [setup] method, which is the shape of a definition; one that has an
    [id] but no [setup] method; anything else (a primitive, [null], an
    object whose [id] is not a string). *)
Inductive Export :=
| ExportDef (t : TypeOf) (def : PluginTypeDefinition)
| ExportBare (t : TypeOf) (id : string)
| ExportOther.

(** A module namespace object: its entries as [Object.values] enumerates
    them; the default export is the entry named [default]. *)
Definition ModuleNs := list (string * Export).

Fixpoint module_get (m : ModuleNs) (key : string) : option Export :=
  match m with
  | [] => None
  | (k, x) :: m' => if String.eqb k key then Some x else module_get m' key
  end.

Definition export_id (x : Export) : option string :=
  match x with
  | ExportDef _ def => Some (def_id def)
  | ExportBare _ id => Some id
  | ExportOther => None
  end.

(** [x.id === typeId]. *)
Definition id_matches (typeId : string) (x : Export) : bool :=
  match export_id x with
  | Some id => String.eqb id typeId
  | None => false
  end.

(** The predicate of step 2:
    [x && typeof x === 'object' && x.id === typeId]. *)
Definition export_matches (typeId : string) (x : Export) : bool :=
  match x with
  | ExportDef TObject _ | ExportBare TObject _ => id_matches typeId x
  | _ => false
  end.

(** [Array.prototype.find] with the predicate of step 2. *)
Fixpoint find_export (typeId : string) (xs : list Export) : option Export :=
  match xs with
  | [] => None
  | x :: xs' => if export_matches typeId x then Some x else find_export typeId xs'
  end.

(** Step 2 of [bootstrap]: the default export if its id is the type id,
    whatever [typeof] says of it; else the first export that the predicate
    accepts. *)
Definition find_definition (typeId : string) (m : ModuleNs) : option Export :=
  match module_get m "default" with
  | Some x => if id_matches typeId x then Some x else find_export typeId m.*2
  | None => find_export typeId m.*2
  end.

(** A [setup] body run against the mock context of the worker host; the
    state is the variable [serviceImplementation]. *)
Fixpoint run_setup_worker (p : SetupProg) : M Value Value :=
  match p with
  | Return v => ret v
  | Raise e => throw e
  | RegisterService id schema impl validate k =>
      let* r := reify (call_parse schema impl >>> modify (fun _ => impl)) in
      run_setup_worker (k r)
  | GetService id k =>
      run_setup_worker (k (Err (new_Error "Workers cannot access other services yet.")))
  | HasService id k =>
      run_setup_worker (k false)
  end.

Inductive BootResult :=
| Serving (def : PluginTypeDefinition) (serviceImplementation : Value)
| Fatal (e : JsError).

(** Steps 1 to 5 of [bootstrap]; [imported] is the completion of
    [import(entryPoint)]. *)
Definition bootstrap (data : Worker) (imported : Result ModuleNs) : BootResult :=
  match imported with
  | Err e => Fatal e
  | Ok m =>
      match find_definition (w_typeId data) m with
      | None =>
          Fatal (new_Error ("Could not find PluginTypeDefinition for '" +:+ w_typeId data
                            +:+ "' in " +:+ w_entryPoint data))
      | Some (ExportDef _ def) =>
          match run_setup_worker (def_setup def (w_config data) DepsUplink (w_pluginId data)) VNull with
          | (_, _, Err e) => Fatal e
          | (captured, _, Ok result) =>
              Serving def (if negb (truthy captured) && truthy result
                           then result else captured)
          end
      | Some _ => Fatal (new_TypeError "def.setup is not a function")
      end
  end.

(** The lifecycle handler a serving worker installs. *)
Definition worker_on_message (def : PluginTypeDefinition) (pluginId : string)
    (msg : RpcMessage) : list RpcMessage :=
  match msg with
  | TEARDOWN id =>
      match def_teardown def with
      | Some teardown =>
          match teardown pluginId with
          | Ok _ => [TEARDOWN_COMPLETE id None]
          | Err err => [TEARDOWN_COMPLETE id (Some (message err))]
          end
      | None => [TEARDOWN_COMPLETE id None]
      end
  | _ => []
  end.

(** ** The wiring graph *)

(** The intra-graph edges: [(c, p)] when the instance registered under [c]
    has a wiring entry whose target [p] is a registered instance. *)
Definition edges (insts : Instances) : list (string * string) :=
  flat_map (fun c =>
      match instances_get insts c with
      | Some inst =>
          map (pair c) (List.filter (instances_has insts) (Object_values (inst_wiring inst)))
      | None => []
      end)
    (keys insts).

Definition edge (insts : Instances) (c p : string) : Prop := (c, p) ∈ edges insts.

(** Consecutive elements are joined by edges. *)
Fixpoint chain (insts : Instances) (l : list string) : Prop :=
  match l with
  | a :: l' =>
      match l' with
      | b :: _ => edge insts a b ∧ chain insts l'
      | [] => True
      end
  | [] => True
  end.

(** [a0 -> rest... -> a0] is a cycle of the wiring. *)
Definition cycle (insts : Instances) (a0 : string) (rest : list string) : Prop :=
  chain insts (a0 :: rest ++ [a0]).

Definition cyclic (insts : Instances) : Prop := ∃ a0 rest, cycle insts a0 rest.
Definition acyclic (insts : Instances) : Prop := ∀ a0 rest, ¬ cycle insts a0 rest.

(** The wiring with the entries whose target is not a registered instance
    removed. *)
Definition prune_wiring (insts : Instances) (w : WiringMap) : WiringMap :=
  List.filter (fun entry => instances_has insts entry.2) w.

Definition prune_instance (insts : Instances) (p : PluginInstance) : PluginInstance :=
  {| inst_id := inst_id p; inst_typeId := inst_typeId p; inst_config := inst_config p;
     inst_wiring := prune_wiring insts (inst_wiring p); inst_mode := inst_mode p |}.

Definition prune (insts : Instances) : Instances :=
  map (fun kp => (kp.1, prune_instance insts kp.2)) insts.

(** [x] comes before [y] in [l]. *)
Definition precedes (x y : string) (l : list string) : Prop :=
  ∃ i j, l !! i = Some x ∧ l !! j = Some y ∧ i < j.

(** A ranking that every edge decreases. *)
Definition rank_ok (insts : Instances) (rank : string → nat) : bool :=
  forallb (fun cp => Nat.ltb (rank cp.2) (rank cp.1)) (edges insts).

(** The registered ids as a set. *)
Definition keyset (insts : Instances) : gset string := list_to_set (keys insts).

(** The diagnostic of a back edge: the ancestors [lead ++ a0 :: rest] of
    the repeated node [a0], where [a0 -> rest... -> a0] is a cycle. *)
Definition cycle_error (insts : Instances) (e : JsError) : Prop :=
  ∃ lead a0 rest,
    e = new_Error (cyclic_message (lead ++ a0 :: rest) a0) ∧ cycle insts a0 rest.

(** What holds of the shared objects of [visit] between calls. *)
Record dfs_inv (insts : Instances) (st : DfsState) : Prop := {
  inv_visiting : visiting st = list_to_set (ancestors st);
  inv_visited : visited st = list_to_set (sorted st);
  inv_nodup : NoDup (sorted st);
  inv_topo : ∀ c p, c ∈ sorted st → edge insts c p → precedes p c (sorted st);
  inv_disjoint : visited st ## visiting st;
  inv_sorted_keys : ∀ k, k ∈ sorted st → k ∈ keys insts;
  inv_ancestors_keys : ∀ k, k ∈ ancestors st → k ∈ keys insts
}.

(** The completion of a call that leaves [visiting] and [ancestors] as it
    found them and has [d] visited if it is registered. *)
Definition visit_post (insts : Instances) (d : string) (st : DfsState)
    (r : option (Result DfsState)) : Prop :=
  match r with
  | None => False
  | Some (Ok st') =>
      dfs_inv insts st' ∧ visiting st' = visiting st ∧ ancestors st' = ancestors st ∧
      visited st ⊆ visited st' ∧ (instances_has insts d = true → d ∈ visited st')
  | Some (Err e) => cycle_error insts e
  end.

Definition loop_post (insts : Instances) (ds : list string) (st : DfsState)
    (r : option (Result DfsState)) : Prop :=
  match r with
  | None => False
  | Some (Ok st') =>
      dfs_inv insts st' ∧ visiting st' = visiting st ∧ ancestors st' = ancestors st ∧
      visited st ⊆ visited st' ∧
      (∀ d, d ∈ ds → instances_has insts d = true → d ∈ visited st')
  | Some (Err e) => cycle_error insts e
  end.

(** ** What a run tears down *)

(** The instances a trace tears down, in order: a [teardown] hook invoked,
    or a [TEARDOWN] request posted to a worker. *)
Definition torn_down (t : list Event) : list string :=
  omap (fun ev =>
          match ev with
          | EvTeardown id => Some id
          | EvPost id (TEARDOWN _) => Some id
          | _ => None
          end) t.

(** The instances [stop] has something to do for: a main-mode instance
    whose type has a [teardown] hook, a worker-mode instance with a worker
    record. *)
Definition has_teardown (e : EazyCore) (id : string) : bool :=
  match instances_get (instances e) id with
  | Some plugin =>
      match inst_mode plugin with
      | main =>
          match pluginTypes e !! inst_typeId plugin with
          | Some type => bool_decide (is_Some (def_teardown type))
          | None => false
          end
      | worker => bool_decide (is_Some (workers e !! id))
      end
  | None => false
  end.

(** The completion of the teardown of [id]: of its hook in main mode, of
    [worker.terminate()] in worker mode. *)
Definition teardown_completion (host : Host) (e : EazyCore) (id : string) : Result unit :=
  match instances_get (instances e) id with
  | Some plugin =>
      match inst_mode plugin with
      | main =>
          match pluginTypes e !! inst_typeId plugin with
          | Some type =>
              match def_teardown type with
              | Some teardown => teardown id
              | None => Ok tt
              end
          | None => Ok tt
          end
      | worker =>
          match workers e !! id with
          | Some _ => terminate_result host id
          | None => Ok tt
          end
      end
  | None => Ok tt
  end.

Definition teardown_error_line (id : string) (err : JsError) : string :=
  "   [" +:+ id +:+ "] Error during teardown: " +:+ toString err.

(** ** Frame properties of the engine *)

(** [m] keeps [P] true of the state. *)
Definition preserves {S A} (P : S → Prop) (m : M S A) : Prop :=
  ∀ s, P s → P (state_of (m s)).

(** A property of the engine that neither the registry nor the worker
    records bear on. *)
Definition lifecycle_frame (P : EazyCore → Prop) : Prop :=
  ∀ s, P s → (∀ c, P (set_context c s)) ∧ (∀ w, P (set_workers w s)).

(** Every event of [m] satisfies [Q]. *)
Definition emits {S A} (Q : Event → Prop) (m : M S A) : Prop :=
  ∀ s, Forall Q (trace_of (m s)).

(** The events of a teardown: a hook invoked, a worker asked to tear down
    or terminated. *)
Definition is_teardown_event (ev : Event) : bool :=
  match ev with
  | EvTeardown _ | EvTerminate _ | EvPost _ (TEARDOWN _) => true
  | _ => false
  end.

(** ** Wiring of a main-mode instance *)

(** The read [wiring[key]] gives [undefined] or the empty string. *)
Definition wiring_missing (w : WiringMap) (key : string) : Prop :=
  wiring_read w key = Absent ∨ wiring_read w key = OwnEntry "".

(** [wiring[key]] is an own entry that names a service of the registry. *)
Definition wired (ctx : PluginContext) (w : WiringMap) (key : string) : Prop :=
  ∃ serviceId, wiring_get w key = Some serviceId ∧ serviceId ≠ "" ∧
               services_has serviceId ctx = true.

Definition WiringMissing (id key : string) : JsError :=
  new_Error ("Plugin '" +:+ id +:+ "' missing wiring for '" +:+ key +:+ "'").

(** The registry [c] has every service of [c0]. *)
Definition registry_extends (c0 c : PluginContext) : Prop :=
  ∀ sid, services_has sid c0 = true → services_has sid c = true.

(** The engine [e] has every service and every worker record of [e0]. *)
Definition engine_extends (e0 e : EazyCore) : Prop :=
  registry_extends (context e0) (context e) ∧
  (∀ wid, is_Some (workers e0 !! wid) → is_Some (workers e !! wid)).

(** Step 2 of [start] for a main-mode instance of [type]. *)
Definition main_deps (id : string) (plugin : PluginInstance) (type : PluginTypeDefinition)
    : M EazyCore (list (string * Value)) :=
  match def_requirements type with
  | Some reqs => resolve_deps id (inst_wiring plugin) (Object_keys reqs) []
  | None => ret []
  end.

Definition ContractViolation (id : string) (e : JsError) : JsError :=
  new_Error ("Service '" +:+ id +:+ "' failed contract validation: " +:+ toString e).

(** ** Runs of a client *)


Definition uplink_touches (id : string) (ev : ClientEvent UplinkRequest UplinkMessage) : bool :=
  match ev with
  | Invoke _ id' => String.eqb id' id
  | Receive (UPLINK_RESPONSE id' _) | Receive (UPLINK_ERROR id' _) => String.eqb id' id
  | _ => false
  end.

(** The time that passes in a run. *)
Definition elapsed {Req Msg} (evs : list (ClientEvent Req Msg)) : Z :=
  foldr (fun ev acc => match ev with Elapse dt => (Z.of_N dt + acc)%Z | _ => acc end) 0%Z evs.

(** What holds of an uplink client while a call [id] with promise [p] is
    outstanding. *)
Record uplink_outstanding (id : string) (p : nat) (c : Client UplinkMessage) : Prop := {
  uo_timers : timers c = [];
  uo_entry : pending c !! id = Some {| entry_promise := p; entry_timer := None |};
  uo_promise : promises c !! p = Some Pending;
  uo_others : ∀ id' entry, id' ≠ id → pending c !! id' = Some entry → entry_promise entry ≠ p
}.

(** What holds of every uplink client. *)
Record uplink_wf (c : Client UplinkMessage) : Prop := {
  uw_timers : timers c = [];
  uw_entries : ∀ id entry, pending c !! id = Some entry → entry_promise entry < length (promises c)
}.

(** ** Sample engines *)

Module Samples.

(** A schema that accepts every value, and one that accepts only objects. *)
Definition any_schema : Schema :=
  {| schema_name := "any"; parse := fun v => Ok v |}.

Definition object_schema : Schema :=
  {| schema_name := "object";
     parse := fun v => match v with
                       | VObj _ => Ok v
                       | _ => Err {| name := "ZodError"; message := "expected object";
                                     stack := "ZodError: expected object" |}
                       end |}.

(** A setup body that registers [impl] under the instance id and lets a
    throw of the registry escape. *)
Definition registering (impl : Value) (ret : Value) (id : string) : SetupProg :=
  RegisterService id any_schema impl true
    (fun r => match r with Ok _ => Return ret | Err e => Raise e end).

Definition LoggerDef : PluginTypeDefinition :=
  {| def_id := "logger-plugin"; def_schema := any_schema;
     def_requirements := None; def_entryPoint := None;
     def_setup := fun _ _ id => registering (VObj "logger") VUndefined id;
     def_teardown := None |}.

Definition DatabaseDef : PluginTypeDefinition :=
  {| def_id := "db-plugin"; def_schema := any_schema;
     def_requirements := Some [("logger", any_schema)];
     def_entryPoint := Some "plugins.ts";
     def_setup := fun _ _ id => registering (VObj "database") VUndefined id;
     def_teardown := Some (fun _ => Ok tt) |}.

Definition teardown_failure : JsError :=
  {| name := "Error"; message := "socket busy"; stack := "Error: socket busy" |}.

Definition ServerDef : PluginTypeDefinition :=
  {| def_id := "api-server"; def_schema := any_schema;
     def_requirements := Some [("db", any_schema); ("logger", any_schema)];
     def_entryPoint := None;
     def_setup := fun _ _ _ => Return VUndefined;
     def_teardown := Some (fun _ => Err teardown_failure) |}.

Definition boom : JsError := new_Error "boom".

Definition FailingDef : PluginTypeDefinition :=
  {| def_id := "failing"; def_schema := any_schema;
     def_requirements := Some [("dep", any_schema)];
     def_entryPoint := None;
     def_setup := fun _ _ _ => Raise boom;
     def_teardown := None |}.

(** A type whose setup registers one object and returns another. *)
Definition BothDef : PluginTypeDefinition :=
  {| def_id := "both"; def_schema := any_schema;
     def_requirements := None; def_entryPoint := Some "both.ts";
     def_setup := fun _ _ id => registering (VObj "registered") (VObj "returned") id;
     def_teardown := None |}.

(** A type whose setup returns its service, and whose config schema accepts
    only objects. *)
Definition ReturningDef : PluginTypeDefinition :=
  {| def_id := "returning"; def_schema := object_schema;
     def_requirements := None; def_entryPoint := None;
     def_setup := fun _ _ _ => Return (VObj "returned");
     def_teardown := None |}.

(** A type whose setup registers the number 0 and returns an object. *)
Definition ZeroDef : PluginTypeDefinition :=
  {| def_id := "zero"; def_schema := any_schema;
     def_requirements := None; def_entryPoint := Some "zero.ts";
     def_setup := fun _ _ id => registering (VNum 0) (VObj "returned") id;
     def_teardown := None |}.

(** A type that requires a logger. *)
Definition AppDef : PluginTypeDefinition :=
  {| def_id := "app-type"; def_schema := any_schema;
     def_requirements := Some [("logger", any_schema)];
     def_entryPoint := Some "app.ts";
     def_setup := fun _ _ _ => Return VUndefined;
     def_teardown := None |}.

Definition engine_of (ops : list Op) : EazyCore := (run_ops ops EazyCore_new).1.

(** Scenario S1 of the specification, registered out of order. *)
Definition chain_engine : EazyCore :=
  engine_of
    [OpRegisterDefinition LoggerDef; OpRegisterDefinition DatabaseDef;
     OpRegisterDefinition ServerDef; OpLockDefinitions;
     OpRegisterPlugin (create ServerDef "api" (VObj "cfg")
                         (Some [("logger", "sys-logger"); ("db", "db")]) None);
     OpRegisterPlugin (create DatabaseDef "db" (VObj "cfg")
                         (Some [("logger", "sys-logger"); ("metrics", "ext-metrics")]) None);
     OpRegisterPlugin (create LoggerDef "sys-logger" (VObj "cfg") None None)].

Definition chain_rank (k : string) : nat :=
  if String.eqb k "sys-logger" then 0 else if String.eqb k "db" then 1 else 2.

(** The engine of S1 once started. *)
Definition started_engine : EazyCore := state_of (start false chain_engine).

Definition quiet_host : Host :=
  {| nanoid := fun w => "td-" +:+ w;
     teardown_reply := fun _ => TeardownComplete None;
     terminate_result := fun _ => Ok tt |}.

(** Scenario S3 with a node in front of the cycle. *)
Definition cyclic_engine : EazyCore :=
  engine_of
    [OpRegisterDefinition LoggerDef;
     OpRegisterPlugin (create LoggerDef "W" VNull (Some [("a", "X"); ("e", "ext")]) None);
     OpRegisterPlugin (create LoggerDef "X" VNull (Some [("a", "Y")]) None);
     OpRegisterPlugin (create LoggerDef "Y" VNull (Some [("b", "X")]) None)].

Definition self_wired_engine : EazyCore :=
  engine_of
    [OpRegisterDefinition LoggerDef;
     OpRegisterPlugin (create LoggerDef "X" VNull (Some [("req", "X")]) None)].

(** A started instance with a teardown hook, then one whose setup throws. *)
Definition failing_engine : EazyCore :=
  engine_of
    [OpRegisterDefinition DatabaseDef; OpRegisterDefinition FailingDef;
     OpRegisterPlugin (create DatabaseDef "a" VNull (Some [("logger", "ext-logger")]) None);
     OpRegisterPlugin (create FailingDef "b" VNull (Some [("dep", "a")]) None)].

Definition with_ext_logger (e : EazyCore) : EazyCore :=
  set_context (services_set "ext-logger" (VObj "logger") (context e)) e.

(** Scenario S4, in both modes. *)
Definition unwired_engine (m : ExecutionMode) : EazyCore :=
  engine_of
    [OpRegisterDefinition AppDef;
     OpRegisterPlugin (create AppDef "app" VNull None (Some m))].

Definition both_engine : EazyCore :=
  engine_of
    [OpRegisterDefinition BothDef;
     OpRegisterPlugin (create BothDef "svc" VNull None None)].

Definition returning_engine : EazyCore :=
  engine_of
    [OpRegisterDefinition ReturningDef;
     OpRegisterPlugin (create ReturningDef "svc" (VObj "cfg") None None)].

Definition worker_data (def : PluginTypeDefinition) : Worker :=
  {| w_pluginId := "svc"; w_typeId := def_id def;
     w_entryPoint := default "" (def_entryPoint def); w_config := VNull |}.

(** A worker-side service whose [query] throws a [RangeError]. *)
Definition range_error : JsError :=
  {| name := "RangeError"; message := "offset out of range";
     stack := "RangeError: offset out of range at query (db.ts:12)" |}.

Definition throwing_service : Service :=
  fun method => if String.eqb method "query" then Some (fun _ => Err range_error) else None.

Definition query_request : RpcRequest := {| rpc_prop := "query"; rpc_args := [VStr "SELECT 1"] |}.

Definition info_request : UplinkRequest :=
  {| up_serviceName := "logger"; up_method := "info"; up_args := [VStr "hello"] |}.

(** Twenty seconds pass, an unrelated response arrives, an hour passes. *)
Definition silent_run : list (ClientEvent UplinkRequest UplinkMessage) :=
  [Elapse 20000; Receive (UPLINK_RESPONSE "other" VNull); Elapse 3600000].

End Samples.

#[global] Instance Timer_eq_dec : EqDecision Timer.
Proof. solve_decision. Defined.




(** ** Application shell (app.ts, class EazyApp) *)

(** A [for ... of] loop over any list. *)
Fixpoint for_each {S A} (l : list A) (body : A → M S unit) : M S unit :=
  match l with
  | [] => ret tt
  | x :: l' => body x >>> for_each l' body
  end.

Record EazyAppConfig := {
  app_name : string;
  app_extraDefinitions : option (list PluginTypeDefinition);
  app_lockDefinitions : bool;
  app_plugins : list PluginInstance
}.

(** The constructor of [EazyApp], run on the fresh engine it owns. The three
    system definitions come from the plugins module. *)
Definition EazyApp_constructor (LoggerDef DatabaseDef ServerDef : PluginTypeDefinition)
    (config : EazyAppConfig) : M EazyCore unit :=
  log ("Initializing " +:+ app_name config +:+ "...") >>>
  registerDefinition LoggerDef >>>
  registerDefinition DatabaseDef >>>
  registerDefinition ServerDef >>>
  (if app_lockDefinitions config then lockDefinitions
   else match app_extraDefinitions config with
        | Some defs => for_each defs registerDefinition
        | None => ret tt
        end) >>>
  lockDefinitions >>>
  for_each (app_plugins config) registerPlugin.

(** ** Invariants of the stores *)

(** What holds of the instance store of an engine built through its
    methods: ids are unique, an instance is stored under its own id, and
    its type is registered. *)
Record engine_wf (e : EazyCore) : Prop := {
  wf_nodup : NoDup (keys (instances e));
  wf_ids : ∀ k p, (k, p) ∈ instances e → inst_id p = k;
  wf_types : ∀ k p, (k, p) ∈ instances e → is_Some (pluginTypes e !! inst_typeId p)
}.

Module AppSamples.
Import Samples.

(** The configuration of the example application, with an extra definition
    that the lock flag rules out. *)
Definition app_config (lock : bool) : EazyAppConfig :=
  {| app_name := "My App";
     app_extraDefinitions := Some [AppDef];
     app_lockDefinitions := lock;
     app_plugins :=
       [create LoggerDef "sys-logger" (VObj "cfg") None None;
        create DatabaseDef "db" (VObj "cfg") (Some [("logger", "sys-logger")]) None;
        create ServerDef "api" (VObj "cfg")
          (Some [("db", "db"); ("logger", "sys-logger")]) None] |}.

End AppSamples.

(** ** Registration order and the resolver *)

(** Every wiring target of an instance of [l] that is an instance at all is
    registered before it; [pre] holds the instances in front of [l]. *)
Fixpoint providers_first_from (insts pre l : Instances) : bool :=
  match l with
  | [] => true
  | (k, p) :: l' =>
      forallb (fun t => implb (instances_has insts t) (instances_has pre t))
              (Object_values (inst_wiring p))
      && providers_first_from insts (pre ++ [(k, p)]) l'
  end.

Definition providers_first (insts : Instances) : bool :=
  providers_first_from insts [] insts.

(** The event is a line of the log. *)
Definition is_log (ev : Event) : bool :=
  match ev with EvLog _ => true | _ => false end.

Definition ServiceNotFound (sid : string) : JsError :=
  new_Error ("Service '" +:+ sid +:+ "' not found.").

Module MoreSamples.
Import Samples.

(** A type whose setup neither registers nor returns a service. *)
Definition SilentDef : PluginTypeDefinition :=
  {| def_id := "silent"; def_schema := any_schema;
     def_requirements := None; def_entryPoint := None;
     def_setup := fun _ _ _ => Return VUndefined;
     def_teardown := None |}.

(** An instance wired to an instance that provides no service. *)
Definition silent_provider_engine : EazyCore :=
  engine_of
    [OpRegisterDefinition SilentDef; OpRegisterDefinition AppDef;
     OpRegisterPlugin (create SilentDef "a" VNull None None);
     OpRegisterPlugin (create AppDef "b" VNull (Some [("logger", "a")]) None)].

(** A type one of whose requirements has the name of a method that every
    plain object inherits, and an instance of it with an empty wiring. *)
Definition ProtoDef : PluginTypeDefinition :=
  {| def_id := "proto"; def_schema := any_schema;
     def_requirements := Some [("toString", any_schema)];
     def_entryPoint := None;
     def_setup := fun _ _ _ => Return VUndefined;
     def_teardown := None |}.

Definition inherited_wiring_engine : EazyCore :=
  engine_of
    [OpRegisterDefinition ProtoDef;
     OpRegisterPlugin (create ProtoDef "app" VNull None None)].

(** A teardown hook that throws an error without a message. *)
Definition MuteDef : PluginTypeDefinition :=
  {| def_id := "mute"; def_schema := any_schema;
     def_requirements := None; def_entryPoint := None;
     def_setup := fun _ _ _ => Return VUndefined;
     def_teardown := Some (fun _ => Err (new_Error "")) |}.

Definition mute_engine : EazyCore :=
  engine_of
    [OpRegisterDefinition MuteDef;
     OpRegisterPlugin (create MuteDef "m" VNull None None)].

End MoreSamples.

(** What [stop] leaves of the engine [e0]: everything but worker records,
    of which it adds none. *)
Definition stop_keeps (e0 e : EazyCore) : Prop :=
  context e = context e0 ∧ instances e = instances e0 ∧
  pluginTypes e = pluginTypes e0 ∧ definitionsLocked e = definitionsLocked e0 ∧
  workers e ⊆ workers e0.

(** The correlation id of a reply frame of the downlink and of the uplink. *)
Definition rpc_reply_id (msg : RpcMessage) : option string :=
  match msg with
  | RESPONSE id _ | ERROR id _ => Some id
  | _ => None
  end.

Definition uplink_reply_id (msg : UplinkMessage) : option string :=
  match msg with
  | UPLINK_RESPONSE id _ | UPLINK_ERROR id _ => Some id
  | _ => None
  end.


(** ** The wait of [gracefulTeardown] (rpc.ts) *)

(** The promise of [gracefulTeardown] from its creation on: the deadline of
    the safety timer while it is armed, whether [handler] is attached,
    whether [resolve] was called, what was posted, terminated and written
    to the console so far, and the clock of the event loop. *)
Record TeardownWait := {
  tw_worker : string;
  tw_id : string;
  tw_timer : option Z;
  tw_handler : bool;
  tw_resolved : bool;
  tw_events : list Event;
  tw_now : Z
}.

(** The executor of the promise: arm the timer, attach the handler, post
    the signal. *)
Definition teardown_begin (workerId id : string) (timeoutMs t0 : Z) : TeardownWait :=
  {| tw_worker := workerId; tw_id := id;
     tw_timer := Some (t0 + setTimeout_delay timeoutMs)%Z;
     tw_handler := true; tw_resolved := false;
     tw_events := [EvPost workerId (TEARDOWN id)]; tw_now := t0 |}.

(** [handler]: only the completion that carries the id of this teardown
    counts; [msg.error] is logged when it is truthy. *)
Definition teardown_handler (msg : RpcMessage) (w : TeardownWait) : TeardownWait :=
  if tw_handler w then
    match msg with
    | TEARDOWN_COMPLETE id error =>
        if String.eqb id (tw_id w) then
          {| tw_worker := tw_worker w; tw_id := tw_id w;
             tw_timer := None; tw_handler := false; tw_resolved := true;
             tw_events :=
               tw_events w ++
               match error with
               | Some err =>
                   if String.eqb err "" then []
                   else [EvWarn ("[RPC] Worker teardown failed: " +:+ err)]
               | None => []
               end;
             tw_now := tw_now w |}
        else w
    | _ => w
    end
  else w.

(** The event loop after [dt] more milliseconds: the safety timer, if it is
    armed and due, has fired. Its callback leaves [handler] attached. *)
Definition teardown_elapse (dt : N) (w : TeardownWait) : TeardownWait :=
  let t1 := (tw_now w + Z.of_N dt)%Z in
  let fired :=
    match tw_timer w with
    | Some deadline => (deadline <=? t1)%Z
    | None => false
    end in
  if fired then
    {| tw_worker := tw_worker w; tw_id := tw_id w;
       tw_timer := None; tw_handler := tw_handler w; tw_resolved := true;
       tw_events := tw_events w ++
                    [EvTerminate (tw_worker w);
                     EvWarn "[RPC] Worker teardown timed out. Force terminated."];
       tw_now := t1 |}
  else
    {| tw_worker := tw_worker w; tw_id := tw_id w;
       tw_timer := tw_timer w; tw_handler := tw_handler w; tw_resolved := tw_resolved w;
       tw_events := tw_events w; tw_now := t1 |}.

(** What happens while the promise is awaited: a message from the worker
    or time passing. *)
Definition teardown_step (w : TeardownWait) (ev : ClientEvent Empty_set RpcMessage)
    : TeardownWait :=
  match ev with
  | Invoke req _ => match req with end
  | Receive msg => teardown_handler msg w
  | Elapse dt => teardown_elapse dt w
  end.

(** The event is the completion of the teardown [id]. *)
Definition teardown_touches (id : string) (ev : ClientEvent Empty_set RpcMessage) : bool :=
  match ev with
  | Receive (TEARDOWN_COMPLETE id' _) => String.eqb id' id
  | _ => false
  end.

(** The reply the engine sees for a completion frame: an empty error string
    is no error. *)
Definition completion_reply (error : option string) : TeardownReply :=
  TeardownComplete match error with
                   | Some err => if String.eqb err "" then None else Some err
                   | None => None
                   end.

(** The wait is over, or its timer is armed for [d] and not yet due. *)
Definition wait_inv (d : Z) (w : TeardownWait) : Prop :=
  (tw_resolved w = true ∧ tw_timer w = None) ∨
  (tw_timer w = Some d ∧ (tw_now w < d)%Z).

(** * Properties *)

(** ** Strings and joins *)

Lemma append_assoc (a b c : string) : (a +:+ b) +:+ c = a +:+ (b +:+ c).
Proof.
  induction a as [|x a IH]; [done |].
  change (String x ((a +:+ b) +:+ c) = String x (a +:+ b +:+ c)). by rewrite IH.
Qed.

Lemma join_cons (sep x : string) (l : list string) :
  l ≠ [] → join sep (x :: l) = x +:+ sep +:+ join sep l.
Proof. destruct l; [done | reflexivity]. Qed.

Lemma join_app (sep : string) (l1 l2 : list string) :
  l1 ≠ [] → l2 ≠ [] →
  join sep (l1 ++ l2) = join sep l1 +:+ sep +:+ join sep l2.
Proof.
  induction l1 as [|x l1 IH]; [done |]. intros _ H2.
  destruct l1 as [|y l1].
  - simpl app. by rewrite join_cons.
  - change ((x :: y :: l1) ++ l2) with (x :: y :: (l1 ++ l2)).
    rewrite (join_cons sep x (y :: l1 ++ l2)) by done.
    rewrite (join_cons sep x (y :: l1)) by done.
    change (y :: l1 ++ l2) with ((y :: l1) ++ l2).
    rewrite IH by done. by rewrite !append_assoc.
Qed.

Lemma cyclic_message_join (anc : list string) (n : string) :
  anc ≠ [] →
  cyclic_message anc n = "Cyclic dependency: " +:+ join " -> " (anc ++ [n]).
Proof. intros H. unfold cyclic_message. by rewrite join_app. Qed.

(** ** The wiring graph: edges, chains, orders *)

Lemma instances_get_Some_keys insts k p :
  instances_get insts k = Some p → k ∈ keys insts.
Proof.
  induction insts as [|[k' p'] insts IH]; [done |]. simpl.
  destruct (String.eqb_spec k' k) as [Heq|Hne].
  - intros _. rewrite Heq. apply list_elem_of_here.
  - intros H. apply list_elem_of_further. by apply IH.
Qed.

Lemma instances_has_keys insts k :
  instances_has insts k = true ↔ k ∈ keys insts.
Proof.
  unfold instances_has. split.
  - destruct (instances_get insts k) eqn:E; [|done]. intros _.
    by eapply instances_get_Some_keys.
  - induction insts as [|[k' p'] insts IH]; [by intros ?%elem_of_nil |]. simpl.
    destruct (String.eqb_spec k' k) as [Heq|Hne]; [done |].
    intros [?|?]%elem_of_cons; [congruence | by apply IH].
Qed.

Lemma edge_spec insts c p :
  edge insts c p ↔
  ∃ inst, instances_get insts c = Some inst ∧
          p ∈ Object_values (inst_wiring inst) ∧ instances_has insts p = true.
Proof.
  unfold edge, edges. rewrite list_elem_of_In, in_flat_map. split.
  - intros (k & Hk & Hin). destruct (instances_get insts k) as [inst|] eqn:E; [|done].
    apply in_map_iff in Hin as (q & Heq & Hq). injection Heq as <- <-.
    apply filter_In in Hq as [Hq ?]. exists inst. by rewrite list_elem_of_In.
  - intros (inst & Hget & Hp & Hhas). exists c. split.
    + apply list_elem_of_In. by eapply instances_get_Some_keys.
    + rewrite Hget. apply in_map, filter_In. by rewrite <- list_elem_of_In.
Qed.

Lemma edge_keys insts c p : edge insts c p → c ∈ keys insts ∧ p ∈ keys insts.
Proof.
  intros (inst & Hget & _ & Hhas)%edge_spec. split.
  - by eapply instances_get_Some_keys.
  - by apply instances_has_keys.
Qed.

Lemma chain_cons insts a b l :
  chain insts (a :: b :: l) ↔ edge insts a b ∧ chain insts (b :: l).
Proof. done. Qed.

Lemma chain_app_r insts l1 l2 : chain insts (l1 ++ l2) → chain insts l2.
Proof.
  induction l1 as [|a l1 IH]; [done |]. intros H. apply IH.
  destruct l1 as [|b l1]; simpl in *.
  - by destruct l2 as [|c l2]; [|destruct H].
  - by destruct H.
Qed.

Lemma chain_snoc insts l a b :
  chain insts (l ++ [a]) → edge insts a b → chain insts ((l ++ [a]) ++ [b]).
Proof.
  intros H E. induction l as [|x l IH]; [by simpl |].
  destruct l as [|y l].
  - simpl in *. destruct H. by repeat split.
  - change (chain insts (x :: y :: ((l ++ [a]) ++ [b]))).
    change (chain insts (x :: y :: (l ++ [a]))) in H.
    apply chain_cons in H as [H1 H2]. apply chain_cons. split; [done |].
    by apply IH.
Qed.

Lemma precedes_app_l x y l l' : precedes x y l → precedes x y (l ++ l').
Proof.
  intros (i & j & Hi & Hj & Hlt). exists i, j.
  repeat split; [by apply lookup_app_l_Some | by apply lookup_app_l_Some | done].
Qed.

Lemma precedes_snoc x y (l : list string) : x ∈ l → precedes x y (l ++ [y]).
Proof.
  intros (i & Hi)%list_elem_of_lookup. exists i, (length l).
  split; [by apply lookup_app_l_Some |]. split.
  - by apply list_lookup_middle.
  - by eapply lookup_lt_Some.
Qed.

Lemma precedes_trans x y z (l : list string) :
  NoDup l → precedes x y l → precedes y z l → precedes x z l.
Proof.
  intros Hnd (i & j & Hi & Hj & Hij) (j' & k & Hj' & Hk & Hjk).
  assert (j = j') as <- by by eapply NoDup_lookup.
  exists i, k. repeat split; [done | done | lia].
Qed.

Lemma precedes_irrefl x (l : list string) : NoDup l → ¬ precedes x x l.
Proof.
  intros Hnd (i & j & Hi & Hj & Hij).
  assert (i = j) by by eapply NoDup_lookup. lia.
Qed.

(** An order in which every provider precedes its consumers excludes
    cycles. *)
Lemma topological_chain insts order :
  NoDup order →
  (∀ c p, edge insts c p → precedes p c order) →
  ∀ l a b, chain insts (a :: l ++ [b]) → precedes b a order.
Proof.
  intros Hnd Htopo l. induction l as [|x l IH]; intros a b H.
  - simpl in H. apply Htopo. by destruct H.
  - change (chain insts (a :: x :: (l ++ [b]))) in H.
    apply chain_cons in H as [H1 H2].
    eapply precedes_trans; [done | by apply IH | by apply Htopo].
Qed.

Lemma topological_acyclic insts order :
  NoDup order →
  (∀ c p, edge insts c p → precedes p c order) →
  acyclic insts.
Proof.
  intros Hnd Htopo a0 rest Hc.
  by eapply precedes_irrefl, topological_chain.
Qed.

Lemma rank_ok_edge insts rank c p :
  rank_ok insts rank = true → edge insts c p → rank p < rank c.
Proof.
  unfold rank_ok, edge. rewrite forallb_forall. intros H Hin.
  apply list_elem_of_In, H in Hin. by apply Nat.ltb_lt in Hin.
Qed.

Lemma rank_ok_acyclic insts rank : rank_ok insts rank = true → acyclic insts.
Proof.
  intros Hr a0 rest Hc.
  assert (∀ l a b, chain insts (a :: l ++ [b]) → rank b < rank a) as Hlt.
  { intros l. induction l as [|x l IH]; intros a b H.
    - simpl in H. destruct H. by eapply rank_ok_edge.
    - change (chain insts (a :: x :: (l ++ [b]))) in H.
      apply chain_cons in H as [H1 H2].
      pose proof (rank_ok_edge _ _ _ _ Hr H1). pose proof (IH _ _ H2). lia. }
  specialize (Hlt _ _ _ Hc). lia.
Qed.

(** ** The resolver: invariants of the traversal *)

Lemma dfs_for_of_spec insts body V A ds :
  (∀ d s, d ∈ ds → dfs_inv insts s → visiting s = V → ancestors s = A →
          visit_post insts d s (body d s)) →
  ∀ s, dfs_inv insts s → visiting s = V → ancestors s = A →
       loop_post insts ds s (dfs_for_of body ds s).
Proof.
  induction ds as [|d ds IH]; intros Hbody s Hinv HV HA.
  - simpl. split_and!; try done. intros d Hd. by apply elem_of_nil in Hd.
  - simpl. pose proof (Hbody d s (list_elem_of_here _ _) Hinv HV HA) as Hd.
    destruct (body d s) as [[s1|e]|]; simpl in Hd; [|done|done].
    destruct Hd as (Hinv1 & HV1 & HA1 & Hsub1 & Hd1).
    assert (loop_post insts ds s1 (dfs_for_of body ds s1)) as Hrest.
    { apply IH; [|done|congruence|congruence].
      intros d' s' Hd'. apply Hbody. by apply list_elem_of_further. }
    destruct (dfs_for_of body ds s1) as [[s2|e]|]; simpl in *; [|done|done].
    destruct Hrest as (Hinv2 & HV2 & HA2 & Hsub2 & Hds).
    split_and!; [done | congruence | congruence | set_solver |].
    intros d' [Heq|Hd']%elem_of_cons Hhas; [subst d'; set_solver | by apply Hds].
Qed.

Lemma keyset_elem insts k : k ∈ keyset insts ↔ k ∈ keys insts.
Proof. unfold keyset. by rewrite elem_of_list_to_set. Qed.

Lemma size_keyset insts : (size (keyset insts) ≤ length insts)%nat.
Proof.
  unfold keyset, keys. induction insts as [|[k p] insts IH].
  - rewrite fmap_nil, list_to_set_nil, size_empty. done.
  - rewrite fmap_cons, list_to_set_cons, size_union_alt, size_singleton.
    pose proof (subseteq_size (list_to_set insts.*1 ∖ {[k]})
                  (list_to_set insts.*1 : gset string)) as Hle.
    specialize (Hle ltac:(set_solver)). simpl in *. lia.
Qed.

Lemma size_visiting_step (X V : gset string) n :
  n ∈ X → n ∉ V → S (size (X ∖ ({[n]} ∪ V))) = size (X ∖ V).
Proof.
  intros HX HV.
  assert (X ∖ V = {[n]} ∪ X ∖ ({[n]} ∪ V)) as ->.
  { apply set_eq. intros k. destruct (decide (k = n)); set_solver. }
  rewrite (size_union (C:=gset string) {[n]} (X ∖ ({[n]} ∪ V))) by set_solver.
  by rewrite size_singleton.
Qed.
Lemma visit_spec insts fuel :
  ∀ n st,
    dfs_inv insts st →
    chain insts (ancestors st ++ [n]) →
    n ∈ keys insts →
    size (keyset insts ∖ visiting st) < fuel →
    visit_post insts n st (visit insts fuel n st).
Proof.
  induction fuel as [|fuel IH]; intros n st Hinv Hchain Hn Hsize; [lia |].
  simpl. destruct (decide (n ∈ visited st)) as [Hvis|Hvis].
  { simpl. by split_and!. }
  destruct (decide (n ∈ visiting st)) as [Hon|Hon].
  { simpl. rewrite (inv_visiting _ _ Hinv), elem_of_list_to_set in Hon.
    apply list_elem_of_split in Hon as (lead & rest & Heq).
    exists lead, n, rest. split; [by rewrite Heq |].
    rewrite Heq, <- app_assoc in Hchain. by apply chain_app_r in Hchain. }
  destruct (instances_get insts n) as [inst|] eqn:Hget; last first.
  { apply instances_has_keys in Hn. unfold instances_has in Hn. by rewrite Hget in Hn. }
  set (st1 := {| visited := visited st; sorted := sorted st;
                 visiting := {[n]} ∪ visiting st;
                 ancestors := ancestors st ++ [n] |}).
  assert (dfs_inv insts st1) as Hinv1.
  { destruct Hinv. split; simpl; try done.
    - rewrite list_to_set_app_L. simpl. set_solver.
    - set_solver.
    - intros k [?| ->%list_elem_of_singleton]%elem_of_app; auto. }
  assert (loop_post insts (Object_values (inst_wiring inst)) st1
            (dfs_for_of
               (fun depId s => if instances_has insts depId
                               then visit insts fuel depId s else Some (Ok s))
               (Object_values (inst_wiring inst)) st1)) as Hloop.
  { apply (dfs_for_of_spec insts _ ({[n]} ∪ visiting st) (ancestors st ++ [n]));
      [|done..].
    intros d s Hd Hs HV HA. cbv beta.
    destruct (instances_has insts d) eqn:Hhas.
 2: { simpl. split_and!; try done. intros ?; congruence. }
    apply IH.
    - done.
    - rewrite HA. apply chain_snoc; [done |]. apply edge_spec. eauto.
    - by apply instances_has_keys.
    - rewrite HV.
      pose proof (size_visiting_step (keyset insts) (visiting st) n) as Hstep.
      rewrite keyset_elem in Hstep. specialize (Hstep Hn Hon). lia. }
  destruct (dfs_for_of _ _ st1) as [[st2|e]|]; simpl in Hloop; [|done|done].
  destruct Hloop as (Hinv2 & HV2 & HA2 & Hsub2 & Hdeps). simpl in HV2, HA2, Hsub2.
  simpl. destruct Hinv2 as [I1 I2 I3 I4 I5 I6 I7].
  assert (n ∉ sorted st2) as Hfresh.
  { intros Hin. apply (elem_of_list_to_set (C:=gset string)) in Hin.
    rewrite <- I2 in Hin. set_solver. }
  split_and!; [split; simpl | ..]; simpl.
  - rewrite HA2, removelast_last, HV2, <- (inv_visiting _ _ Hinv). set_solver.
  - rewrite list_to_set_app_L, I2. simpl. set_solver.
  - apply NoDup_app. repeat split; [done | | apply NoDup_singleton].
    intros k Hk ->%list_elem_of_singleton. done.
  - intros c p [Hc| ->%list_elem_of_singleton]%elem_of_app Hedge.
    + by apply precedes_app_l, I4.
    + apply precedes_snoc.
      apply edge_spec in Hedge as (inst' & Hget' & Hp & Hhas).
      assert (inst' = inst) as -> by congruence.
      apply (elem_of_list_to_set (C:=gset string)). rewrite <- I2. by apply Hdeps.
  - rewrite HV2. set_solver.
  - intros k [Hk| ->%list_elem_of_singleton]%elem_of_app; auto.
  - rewrite HA2, removelast_last. apply (inv_ancestors_keys _ _ Hinv).
  - rewrite HV2. set_solver.
  - by rewrite HA2, removelast_last.
  - set_solver.
  - set_solver.
Qed.

Lemma dfs_inv_init insts : dfs_inv insts dfs_init.
Proof.
  split; simpl; try done.
  - apply NoDup_nil_2.
  - intros c p Hc. by apply elem_of_nil in Hc.
  - intros k Hk. by apply elem_of_nil in Hk.
  - intros k Hk. by apply elem_of_nil in Hk.
Qed.

Lemma resolve_with_spec insts fuel :
  length insts < fuel →
  match resolve_with insts fuel with
  | None => False
  | Some (Ok order) =>
      NoDup order ∧ (∀ k, k ∈ order ↔ k ∈ keys insts) ∧
      (∀ c p, edge insts c p → precedes p c order)
  | Some (Err e) => cycle_error insts e
  end.
Proof.
  intros Hfuel. unfold resolve_with.
  assert (loop_post insts (keys insts) dfs_init
            (dfs_for_of (visit_root insts fuel) (keys insts) dfs_init)) as Hloop.
  { apply (dfs_for_of_spec insts _ ∅ []); [|apply dfs_inv_init|done|done].
    intros d s Hd Hs HV HA. unfold visit_root.
    assert ({| visited := visited s; sorted := sorted s;
               visiting := visiting s; ancestors := [] |} = s) as ->.
    { destruct s; simpl in *; by subst. }
    apply visit_spec; [done | by rewrite HA | done |].
    rewrite HV. pose proof (size_keyset insts) as Hle.
    pose proof (subseteq_size (keyset insts ∖ ∅) (keyset insts)) as Hle'.
    specialize (Hle' ltac:(set_solver)). lia. }
  destruct (dfs_for_of _ _ dfs_init) as [[st|e]|]; simpl in Hloop; [|done|done].
  destruct Hloop as (Hinv & _ & _ & _ & Hall). destruct Hinv as [I1 I2 I3 I4 I5 I6 I7].
  assert (∀ k, k ∈ keys insts → k ∈ sorted st) as Hin.
  { intros k Hk. apply (elem_of_list_to_set (C:=gset string)). rewrite <- I2.
    apply Hall; [done | by apply instances_has_keys]. }
  split_and!; [done | |].
  - intros k. split; auto.
  - intros c p Hedge. apply I4; [|done]. apply Hin. by apply edge_keys in Hedge as [? _].
Qed.

(** The recursion budget of [resolveExecutionOrder] is never exhausted. *)
Lemma resolve_with_returns insts : resolve_with insts (S (length insts)) ≠ None.
Proof.
  pose proof (resolve_with_spec insts (S (length insts)) ltac:(lia)) as H.
  by destruct (resolve_with insts (S (length insts))).
Qed.

Lemma resolveExecutionOrder_ok insts order :
  resolveExecutionOrder insts = Ok order →
  NoDup order ∧ (∀ k, k ∈ order ↔ k ∈ keys insts) ∧
  (∀ c p, edge insts c p → precedes p c order).
Proof.
  unfold resolveExecutionOrder.
  pose proof (resolve_with_spec insts (S (length insts)) ltac:(lia)) as H.
  destruct (resolve_with insts (S (length insts))) as [[o|e]|]; [|done..].
  by intros [= ->].
Qed.

Lemma resolveExecutionOrder_err insts e :
  resolveExecutionOrder insts = Err e → cycle_error insts e.
Proof.
  unfold resolveExecutionOrder.
  pose proof (resolve_with_spec insts (S (length insts)) ltac:(lia)) as H.
  destruct (resolve_with insts (S (length insts))) as [[o|e']|]; [done| |done].
  by intros [= ->].
Qed.

Lemma resolveExecutionOrder_ok_acyclic insts order :
  resolveExecutionOrder insts = Ok order → acyclic insts.
Proof.
  intros (Hnd & _ & Htopo)%resolveExecutionOrder_ok. by eapply topological_acyclic.
Qed.

(** ** The resolver ignores wiring to unregistered targets *)

Section Prune.
Variable insts : Instances.

Lemma instances_get_map (f : PluginInstance → PluginInstance) (l : Instances) k :
  instances_get (map (fun kp => (kp.1, f kp.2)) l) k = f <$> instances_get l k.
Proof.
  induction l as [|[k' p] l IH]; [done |]. simpl.
  by destruct (String.eqb k' k).
Qed.

Lemma instances_get_prune k :
  instances_get (prune insts) k = prune_instance insts <$> instances_get insts k.
Proof. apply instances_get_map. Qed.

Lemma instances_has_prune k : instances_has (prune insts) k = instances_has insts k.
Proof.
  unfold instances_has. rewrite instances_get_prune.
  by destruct (instances_get insts k).
Qed.

Lemma keys_map (f : PluginInstance → PluginInstance) (l : Instances) :
  keys (map (fun kp => (kp.1, f kp.2)) l) = keys l.
Proof.
  unfold keys. induction l as [|[k p] l IH]; [done |].
  simpl in *. by f_equal.
Qed.

Lemma keys_prune : keys (prune insts) = keys insts.
Proof. apply keys_map. Qed.

Lemma length_prune : length (prune insts) = length insts.
Proof. unfold prune. by rewrite length_map. Qed.

(** A loop skips the targets its body does nothing for. *)
Lemma dfs_for_of_prune body (w : WiringMap) st :
  (∀ d s, instances_has insts d = false → body d s = Some (Ok s)) →
  dfs_for_of body (Object_values (prune_wiring insts w)) st
    = dfs_for_of body (Object_values w) st.
Proof.
  intros Hskip. revert st. induction w as [|[req target] w IH]; intros st; [done |].
  simpl. destruct (instances_has insts target) eqn:Hhas; simpl.
  - destruct (body target st) as [[st'|e]|]; [apply IH | done | done].
  - rewrite (Hskip _ _ Hhas). apply IH.
Qed.

Lemma dfs_for_of_ext body body' l st :
  (∀ d s, body d s = body' d s) → dfs_for_of body l st = dfs_for_of body' l st.
Proof.
  intros Hext. revert st. induction l as [|d l IH]; intros st; [done |].
  simpl. rewrite Hext. destruct (body' d st) as [[st'|e]|]; [apply IH | done | done].
Qed.

Lemma visit_prune fuel : ∀ n st, visit (prune insts) fuel n st = visit insts fuel n st.
Proof.
  induction fuel as [|fuel IH]; intros n st; [done |].
  simpl. rewrite instances_get_prune.
  destruct (instances_get insts n) as [inst|]; simpl; [|done].
  rewrite (dfs_for_of_ext _
    (fun depId s => if instances_has insts depId
                    then visit insts fuel depId s else Some (Ok s))).
  - rewrite dfs_for_of_prune; [done |]. by intros d s ->.
  - intros d s. rewrite instances_has_prune. by rewrite IH.
Qed.

Lemma resolveExecutionOrder_prune :
  resolveExecutionOrder (prune insts) = resolveExecutionOrder insts.
Proof.
  unfold resolveExecutionOrder, resolve_with. rewrite length_prune, keys_prune.
  rewrite (dfs_for_of_ext _ (visit_root insts (S (length insts)))); [done |].
  intros d s. unfold visit_root. apply visit_prune.
Qed.
End Prune.

(** C1. For an acyclic wiring, [resolveExecutionOrder] returns an order that
    lists every registered instance id exactly once and nothing else, in
    which the target of every wiring entry that is a registered instance
    comes before the consumer. Wiring entries whose target is not a
    registered instance are ignored: the target does not occur in the
    order, and the order is the one of the wiring without those entries. *)
Theorem resolveExecutionOrder_topological insts :
  acyclic insts →
  ∃ order,
    resolveExecutionOrder insts = Ok order ∧
    NoDup order ∧
    (∀ k, k ∈ order ↔ k ∈ keys insts) ∧
    (∀ c inst req target,
       instances_get insts c = Some inst →
       (req, target) ∈ inst_wiring inst →
       if instances_has insts target
       then precedes target c order
       else target ∉ order) ∧
    resolveExecutionOrder (prune insts) = Ok order.
Proof.
  intros Hacyclic.
  destruct (resolveExecutionOrder insts) as [order|e] eqn:Hres.
  - pose proof (resolveExecutionOrder_ok _ _ Hres) as (Hnd & Hkeys & Htopo).
    exists order. split_and!; [done..| |by rewrite resolveExecutionOrder_prune].
    intros c inst req target Hget Hin.
    destruct (instances_has insts target) eqn:Hhas.
    + apply Htopo, edge_spec. exists inst. split_and!; [done | | done].
      unfold Object_values. apply list_elem_of_fmap. by exists (req, target).
    + rewrite Hkeys, <- instances_has_keys. congruence.
  - apply resolveExecutionOrder_err in Hres as (lead & a0 & rest & _ & Hcycle).
    by destruct (Hacyclic a0 rest).
Qed.

Lemma start_resolve_err dryRun e err :
  resolveExecutionOrder (instances e) = Err err →
  result_of (start dryRun e) = Err err.
Proof.
  intros H. unfold start, resolve_order, log, bind, emit, gets, lift_result, result_of.
  simpl. by rewrite H.
Qed.

(** C3. When the wiring between registered instances has a cycle (a
    self-wiring included), [resolveExecutionOrder] throws, and so does
    [start] with or without dry run. The message is [Cyclic dependency: ]
    followed by the ancestors of the repeated node and the node itself,
    joined by [ -> ]; it ends with a cycle [a0 -> ... -> ak -> a0] of the
    wiring. *)
Theorem resolveExecutionOrder_cyclic e :
  cyclic (instances e) →
  ∃ lead a0 rest err prefix,
    cycle (instances e) a0 rest ∧
    err = new_Error ("Cyclic dependency: " +:+ join " -> " (lead ++ a0 :: rest ++ [a0])) ∧
    message err = prefix +:+ join " -> " (a0 :: rest ++ [a0]) ∧
    resolveExecutionOrder (instances e) = Err err ∧
    ∀ dryRun, result_of (start dryRun e) = Err err.
Proof.
  intros (b0 & brest & Hcyc).
  destruct (resolveExecutionOrder (instances e)) as [order|err] eqn:Hres.
  { apply resolveExecutionOrder_ok_acyclic in Hres. by destruct (Hres b0 brest). }
  pose proof (resolveExecutionOrder_err _ _ Hres) as (lead & a0 & rest & -> & Hcycle).
  assert (cyclic_message (lead ++ a0 :: rest) a0 =
          "Cyclic dependency: " +:+ join " -> " (lead ++ a0 :: rest ++ [a0])) as Hmsg.
  { rewrite cyclic_message_join by (by destruct lead). by rewrite <- app_assoc. }
  exists lead, a0, rest, (new_Error (cyclic_message (lead ++ a0 :: rest) a0)).
  exists (if decide (lead = []) then "Cyclic dependency: "
          else "Cyclic dependency: " +:+ join " -> " lead +:+ " -> ").
  split_and!; [done | by rewrite Hmsg | | done | ].
  - simpl. rewrite Hmsg. destruct (decide (lead = [])) as [->|Hne]; [done |].
    rewrite join_app by (done || by destruct rest). by rewrite !append_assoc.
  - intros dryRun. by apply start_resolve_err.
Qed.

(** ** The engine monad *)

Lemma bind_gets {S A B} (f : S → A) (k : A → M S B) s :
  (let* x := gets f in k x) s = k (f s) s.
Proof. unfold bind, gets. by destruct (k (f s) s) as [[? ?] ?]. Qed.

Lemma for_of_app {S} (l1 l2 : list string) (body : string → M S unit) s :
  for_of (l1 ++ l2) body s = (for_of l1 body >>> for_of l2 body) s.
Proof.
  revert s. induction l1 as [|x l1 IH]; intros s; simpl.
  - unfold bind, ret. by destruct (for_of l2 body s) as [[? ?] ?].
  - unfold bind in *. destruct (body x s) as [[s1 t1] [[]|e]]; [|done].
    rewrite IH. destruct (for_of l1 body s1) as [[s2 t2] [[]|e]]; [|done].
    destruct (for_of l2 body s2) as [[s3 t3] r]. by rewrite app_assoc.
Qed.


(** ** [stop] *)

Lemma stop_instance_spec host id e plugin :
  instances_get (instances e) id = Some plugin →
  let r := stop_instance host id e in
  result_of r = Ok tt ∧
  instances (state_of r) = instances e ∧
  pluginTypes (state_of r) = pluginTypes e ∧
  (∀ id', id' ≠ id → workers (state_of r) !! id' = workers e !! id') ∧
  torn_down (trace_of r) = (if has_teardown e id then [id] else []) ∧
  (∀ err, teardown_completion host e id = Err err →
          EvLog (teardown_error_line id err) ∈ trace_of r).
Proof.
  intros Hget. unfold stop_instance, has_teardown, teardown_completion.
  rewrite bind_gets, Hget, bind_gets.
  destruct (inst_mode plugin).
  - destruct (pluginTypes e !! inst_typeId plugin) as [type|]; [|by split_and!].
    destruct (def_teardown type) as [teardown|]; [|by split_and!].
    unfold try_catch, bind, emit, lift_result, log, result_of, state_of, trace_of.
    destruct (teardown id) as [[]|err]; simpl; split_and!; try done.
    intros err' [= <-]. set_solver.
  - unfold try_catch. rewrite bind_gets.
    destruct (workers e !! id) as [w|] eqn:Hw; [|by split_and!].
    unfold gracefulTeardown, bind, emit, lift_result, log, modify, ret,
      result_of, state_of, trace_of.
    destruct (teardown_reply host id) as [[err|]|];
      destruct (terminate_result host id) as [[]|err']; simpl;
      (split_and!; [done | done | done | | done | ]);
      try (intros id' Hne; by rewrite ?lookup_delete_ne);
      try done;
      try (intros ? [= <-]; set_solver).
Qed.




Lemma NoDup_rev_2 (l : list string) : NoDup l → NoDup (rev l).
Proof. intros H. by rewrite <- Permutation_rev. Qed.

Lemma elem_of_rev (x : string) (l : list string) : x ∈ rev l ↔ x ∈ l.
Proof. by rewrite !list_elem_of_In, <- in_rev. Qed.



(** ** What the lifecycle leaves alone *)

Section Preserves.
Context {S : Type} (P : S → Prop).

Lemma preserves_ret {A} (a : A) : preserves P (ret a).
Proof. by intros s. Qed.
Lemma preserves_throw {A} e : preserves P (throw (A:=A) e).
Proof. by intros s. Qed.
Lemma preserves_emit ev : preserves P (emit ev).
Proof. by intros s. Qed.
Lemma preserves_gets {A} (f : S → A) : preserves P (gets f).
Proof. by intros s. Qed.
Lemma preserves_lift_result {A} (r : Result A) : preserves P (lift_result r).
Proof. by intros s. Qed.
Lemma preserves_modify f : (∀ s, P s → P (f s)) → preserves P (modify f).
Proof. intros H s. apply H. Qed.

Lemma preserves_bind {A B} (m : M S A) (k : A → M S B) :
  preserves P m → (∀ a, preserves P (k a)) → preserves P (bind m k).
Proof.
  intros Hm Hk s Hs. specialize (Hm s Hs). unfold bind, state_of in *.
  destruct (m s) as [[s1 t1] [a|e]]; simpl in *; [|done].
  specialize (Hk a s1 Hm). unfold state_of in Hk.
  by destruct (k a s1) as [[s2 t2] r].
Qed.

Lemma preserves_try_catch {A} (m : M S A) (h : JsError → M S A) :
  preserves P m → (∀ e, preserves P (h e)) → preserves P (try_catch m h).
Proof.
  intros Hm Hh s Hs. specialize (Hm s Hs). unfold try_catch, state_of in *.
  destruct (m s) as [[s1 t1] [a|e]]; simpl in *; [done |].
  specialize (Hh e s1 Hm). unfold state_of in Hh.
  by destruct (h e s1) as [[s2 t2] r].
Qed.

Lemma preserves_for_of l (body : string → M S unit) :
  (∀ x, preserves P (body x)) → preserves P (for_of l body).
Proof.
  intros Hb. induction l as [|x l IH]; simpl.
  - apply preserves_ret.
  - apply preserves_bind; [apply Hb | by intros _].
Qed.
End Preserves.

Lemma preserves_on_context {A} (P : EazyCore → Prop) (m : M PluginContext A) :
  lifecycle_frame P → preserves P (on_context m).
Proof.
  intros HP s Hs. unfold on_context, zoom, state_of.
  destruct (m (context s)) as [[c t] r]. simpl. by apply HP.
Qed.

Ltac preserves_step :=
  first
    [ apply preserves_ret | apply preserves_throw | apply preserves_emit
    | apply preserves_gets | apply preserves_lift_result
    | apply preserves_on_context; assumption
    | apply preserves_bind; [|intros ?]
    | apply preserves_try_catch; [|intros ?]
    | apply preserves_for_of; intros ?
    | apply preserves_modify; intros ? ?;
      match goal with H : lifecycle_frame _ |- _ => by apply H end
    | case_match ].

Lemma preserves_resolve_deps P id w reqs deps :
  lifecycle_frame P → preserves P (resolve_deps id w reqs deps).
Proof.
  intros HP. revert deps. induction reqs as [|key reqs IH]; intros deps; simpl.
  - apply preserves_ret.
  - repeat preserves_step. apply IH.
Qed.

Lemma preserves_start_instance P id :
  lifecycle_frame P → preserves P (start_instance id).
Proof.
  intros HP. unfold start_instance, undefined_read, call_parse, log.
  repeat first [apply preserves_resolve_deps; assumption | preserves_step].
Qed.

Lemma preserves_start P dryRun : lifecycle_frame P → preserves P (start dryRun).
Proof.
  intros HP. unfold start, resolve_order, log.
  repeat first [apply preserves_start_instance; assumption | preserves_step].
Qed.

Lemma preserves_stop_instance P host id :
  lifecycle_frame P → preserves P (stop_instance host id).
Proof.
  intros HP. unfold stop_instance, undefined_read, gracefulTeardown, log.
  repeat preserves_step.
Qed.

Lemma preserves_stop P host dryRun : lifecycle_frame P → preserves P (stop host dryRun).
Proof.
  intros HP. unfold stop, resolve_order, log.
  repeat first [apply preserves_stop_instance; assumption | preserves_step].
Qed.

(** ** Service registry *)

(** C10. A [registerService] that throws leaves the services map as it
    was. The duplicate check comes first: under an id that is taken the call
    throws the duplicate error whatever the contract and the value are,
    and [parse] is not invoked (the trace is empty). *)
Theorem registerService_atomic id schema impl validate ctx :
  let r := registerService id schema impl validate ctx in
  (∀ e, result_of r = Err e → state_of r = ctx) ∧
  (services_has id ctx = true →
   r = (ctx, [], Err (new_Error ("Service '" +:+ id +:+ "' already registered.")))).
Proof.
  unfold registerService. rewrite bind_gets.
  destruct (services_has id ctx) eqn:Hhas; [by split |]. split; [|done].
  destruct validate.
  - unfold call_parse, try_catch, bind, emit, lift_result, ret, throw, modify,
      result_of, state_of.
    by destruct (parse schema impl) as [v|e'].
  - done.
Qed.

(** ** Definition and instance store *)

Lemma lifecycle_frame_locked : lifecycle_frame (fun e => definitionsLocked e = true).
Proof. by intros s Hs. Qed.

Lemma run_op_locked op :
  preserves (fun e => definitionsLocked e = true) (run_op op).
Proof.
  destruct op; simpl.
  - intros e He. unfold registerDefinition. rewrite bind_gets, He. done.
  - by intros e He.
  - intros e He. unfold registerPlugin. rewrite bind_gets.
    destruct (negb _); [done |]. rewrite bind_gets.
    by destruct (instances_has _ _).
  - apply preserves_start, lifecycle_frame_locked.
  - apply preserves_stop, lifecycle_frame_locked.
Qed.

Lemma run_ops_locked ops e :
  definitionsLocked e = true → definitionsLocked (run_ops ops e).1 = true.
Proof.
  revert e. induction ops as [|op ops IH]; intros e He; [done |].
  simpl. apply IH. by apply run_op_locked.
Qed.

(** C9. After [lockDefinitions], whatever calls are made on the engine, the
    lock stays set and [registerDefinition] throws the locked error without
    changing the engine; locking again changes nothing; [registerPlugin]
    does not look at the lock and accepts an instance of a known type under
    a fresh id. *)
Theorem lockDefinitions_monotone e0 ops def plugin :
  let locked := state_of (lockDefinitions e0) in
  let e := (run_ops ops locked).1 in
  definitionsLocked e = true ∧
  registerDefinition def e =
    (e, [], Err (new_Error ("Registry is locked. Cannot register new plugin type: '"
                            +:+ def_id def +:+ "'"))) ∧
  state_of (lockDefinitions locked) = locked ∧
  result_of (registerPlugin plugin e) =
    result_of (registerPlugin plugin (set_definitionsLocked false e)) ∧
  (is_Some (pluginTypes e !! inst_typeId plugin) →
   instances_has (instances e) (inst_id plugin) = false →
   result_of (registerPlugin plugin e) = Ok tt ∧
   instances_get (instances (state_of (registerPlugin plugin e))) (inst_id plugin)
     = Some plugin).
Proof.
  intros locked e.
  assert (definitionsLocked e = true) as Hlocked by by apply run_ops_locked.
  split_and!; [done | | done | |].
  - unfold registerDefinition. by rewrite bind_gets, Hlocked.
  - unfold registerPlugin. rewrite !bind_gets. simpl.
    destruct (negb _); [done |]. rewrite !bind_gets. simpl.
    by destruct (instances_has _ _).
  - intros Hknown Hfresh. unfold registerPlugin. rewrite bind_gets.
    rewrite (bool_decide_eq_true_2 _ Hknown). simpl. rewrite bind_gets, Hfresh.
    split; [done |]. unfold modify, state_of. simpl.
    clear. induction (instances e) as [|[k p] insts IH]; simpl.
    + by rewrite String.eqb_refl.
    + destruct (String.eqb_spec k (inst_id plugin)) as [Heq|Hne]; simpl.
      * by rewrite Heq, String.eqb_refl.
      * by destruct (String.eqb_spec k (inst_id plugin)).
Qed.

(** ** What the lifecycle emits *)

Section Emits.
Context {S : Type} (Q : Event → Prop).

Lemma emits_ret {A} (a : A) : emits (S:=S) Q (ret a).
Proof. intros s. apply Forall_nil_2. Qed.
Lemma emits_throw {A} e : emits (S:=S) Q (throw (A:=A) e).
Proof. intros s. apply Forall_nil_2. Qed.
Lemma emits_emit ev : Q ev → emits (S:=S) Q (emit ev).
Proof. intros H s. by apply Forall_singleton. Qed.
Lemma emits_gets {A} (f : S → A) : emits Q (gets f).
Proof. intros s. apply Forall_nil_2. Qed.
Lemma emits_lift_result {A} (r : Result A) : emits (S:=S) Q (lift_result r).
Proof. intros s. apply Forall_nil_2. Qed.
Lemma emits_modify (f : S → S) : emits Q (modify f).
Proof. intros s. apply Forall_nil_2. Qed.

Lemma emits_bind {A B} (m : M S A) (k : A → M S B) :
  emits Q m → (∀ a, emits Q (k a)) → emits Q (bind m k).
Proof.
  intros Hm Hk s. specialize (Hm s). unfold bind, trace_of in *.
  destruct (m s) as [[s1 t1] [a|e]]; simpl in *; [|done].
  specialize (Hk a s1). unfold trace_of in Hk.
  destruct (k a s1) as [[s2 t2] r]. simpl in *. by apply Forall_app.
Qed.

Lemma emits_try_catch {A} (m : M S A) (h : JsError → M S A) :
  emits Q m → (∀ e, emits Q (h e)) → emits Q (try_catch m h).
Proof.
  intros Hm Hh s. specialize (Hm s). unfold try_catch, trace_of in *.
  destruct (m s) as [[s1 t1] [a|e]]; simpl in *; [done |].
  specialize (Hh e s1). unfold trace_of in Hh.
  destruct (h e s1) as [[s2 t2] r]. simpl in *. by apply Forall_app.
Qed.

Lemma emits_reify {A} (m : M S A) : emits Q m → emits Q (reify m).
Proof.
  intros Hm s. specialize (Hm s). unfold reify, trace_of in *.
  by destruct (m s) as [[s1 t1] r].
Qed.

Lemma emits_for_of l (body : string → M S unit) :
  (∀ x, emits Q (body x)) → emits Q (for_of l body).
Proof.
  intros Hb. induction l as [|x l IH]; simpl.
  - apply emits_ret.
  - apply emits_bind; [apply Hb | by intros _].
Qed.
End Emits.

Lemma emits_zoom {S T A} Q (get : S → T) (set : T → S → S) (m : M T A) :
  emits Q m → emits Q (zoom get set m).
Proof.
  intros Hm s. specialize (Hm (get s)). unfold zoom, trace_of in *.
  by destruct (m (get s)) as [[c t] r].
Qed.

Ltac emits_step :=
  first
    [ apply emits_ret | apply emits_throw | apply emits_gets
    | apply emits_lift_result | apply emits_modify
    | apply emits_emit; done
    | apply emits_zoom
    | apply emits_reify
    | apply emits_bind; [|intros ?]
    | apply emits_try_catch; [|intros ?]
    | apply emits_for_of; intros ?
    | case_match ].

Lemma emits_registerService Q id schema impl validate :
  (∀ n v, Q (EvParse n v)) →
  emits Q (registerService id schema impl validate).
Proof.
  intros HQ. unfold registerService, call_parse.
  repeat first [apply emits_emit; apply HQ | emits_step].
Qed.

Lemma emits_run_setup Q p : (∀ n v, Q (EvParse n v)) → emits Q (run_setup p).
Proof.
  intros HQ. induction p as [v|e|id schema impl validate k IH|id k IH|id k IH]; simpl.
  - apply emits_ret.
  - apply emits_throw.
  - apply emits_bind; [|intros r; apply IH].
    by apply emits_reify, emits_registerService.
  - apply emits_bind; [|intros r; apply IH].
    unfold getService. repeat emits_step.
  - apply emits_bind; [|intros r; apply IH]. unfold hasService. apply emits_gets.
Qed.

Lemma emits_resolve_deps Q id w reqs deps : emits Q (resolve_deps id w reqs deps).
Proof.
  revert deps. induction reqs as [|key reqs IH]; intros deps; simpl.
  - apply emits_ret.
  - unfold on_context, getService. repeat first [apply IH | emits_step].
Qed.

Lemma emits_start Q dryRun :
  (∀ ev, is_teardown_event ev = false → Q ev) → emits Q (start dryRun).
Proof.
  intros HQ.
  assert (∀ n v, Q (EvParse n v)) as HQp by (intros; by apply HQ).
  unfold start, resolve_order, log.
  repeat first
    [ apply emits_emit; by apply HQ
    | apply emits_for_of; intros ?; unfold start_instance, undefined_read,
        call_parse, log, on_context, hasService
    | apply emits_resolve_deps
    | apply emits_run_setup; assumption
    | apply emits_registerService; assumption
    | emits_step ].
Qed.

(** ** [start] only adds services and worker records *)

Lemma preserves_reify {S A} (P : S → Prop) (m : M S A) :
  preserves P m → preserves P (reify m).
Proof.
  intros Hm s Hs. specialize (Hm s Hs). unfold reify, state_of in *.
  by destruct (m s) as [[s1 t1] r].
Qed.

Lemma services_has_set sid id impl c :
  services_has sid c = true → services_has sid (services_set id impl c) = true.
Proof.
  unfold services_has, services_set. simpl. intros H%bool_decide_eq_true.
  apply bool_decide_eq_true. destruct (decide (id = sid)) as [->|Hne].
  - by rewrite lookup_insert_eq.
  - by rewrite lookup_insert_ne.
Qed.

Lemma registerService_extends c0 id schema impl validate :
  preserves (registry_extends c0) (registerService id schema impl validate).
Proof.
  unfold registerService, call_parse.
  repeat first
    [ apply preserves_ret | apply preserves_throw | apply preserves_emit
    | apply preserves_gets | apply preserves_lift_result
    | apply preserves_bind; [|intros ?]
    | apply preserves_try_catch; [|intros ?]
    | case_match ].
  apply preserves_modify. intros c Hc sid Hsid. by apply services_has_set, Hc.
Qed.

Lemma run_setup_extends c0 p : preserves (registry_extends c0) (run_setup p).
Proof.
  induction p as [v|e|id schema impl validate k IH|id k IH|id k IH]; simpl.
  - apply preserves_ret.
  - apply preserves_throw.
  - apply preserves_bind; [|intros r; apply IH].
    apply preserves_reify, registerService_extends.
  - apply preserves_bind; [|intros r; apply IH].
    apply preserves_reify. unfold getService.
    apply preserves_bind; [apply preserves_gets |].
    intros [v|]; [apply preserves_ret | apply preserves_throw].
  - apply preserves_bind; [|intros r; apply IH]. apply preserves_gets.
Qed.

Lemma on_context_extends {A} e0 (m : M PluginContext A) :
  (∀ c0, preserves (registry_extends c0) m) →
  preserves (engine_extends e0) (on_context m).
Proof.
  intros Hm s [Hs Hw]. specialize (Hm (context e0) (context s) Hs).
  unfold on_context, zoom, state_of in *.
  destruct (m (context s)) as [[c t] r]. simpl in *. by split.
Qed.

Lemma resolve_deps_extends e0 id w reqs deps :
  preserves (engine_extends e0) (resolve_deps id w reqs deps).
Proof.
  revert deps. induction reqs as [|key reqs IH]; intros deps; simpl.
  - apply preserves_ret.
  - repeat first
      [ apply preserves_throw | apply IH
      | apply preserves_bind; [|intros ?]
      | case_match ].
    apply on_context_extends. intros c0. unfold getService.
    apply preserves_bind; [apply preserves_gets |].
    intros [v|]; [apply preserves_ret | apply preserves_throw].
Qed.

Lemma start_instance_extends e0 id : preserves (engine_extends e0) (start_instance id).
Proof.
  unfold start_instance, undefined_read, call_parse, log.
  repeat first
    [ apply preserves_ret | apply preserves_throw | apply preserves_emit
    | apply preserves_gets | apply preserves_lift_result
    | apply resolve_deps_extends
    | apply on_context_extends; intros ?;
      first [ apply run_setup_extends | apply registerService_extends
            | apply preserves_gets ]
    | apply preserves_bind; [|intros ?]
    | case_match ].
  apply preserves_modify. intros s' [Hs Hw]. split; [done |].
  intros wid Hwid. simpl. destruct (decide (id = wid)) as [->|Hne].
  - by rewrite lookup_insert_eq.
  - rewrite lookup_insert_ne by done. by apply Hw.
Qed.

(** ** [start]: abort at an instance *)

Lemma for_of_abort {S} (body : string → M S unit) before id after s err :
  result_of (for_of before body s) = Ok tt →
  result_of (body id (state_of (for_of before body s))) = Err err →
  result_of (for_of (before ++ id :: after) body s) = Err err ∧
  state_of (for_of (before ++ id :: after) body s)
    = state_of (body id (state_of (for_of before body s))).
Proof.
  rewrite for_of_app. unfold bind, result_of, state_of. simpl.
  destruct (for_of before body s) as [[s1 t1] r1]. simpl. intros ->.
  unfold bind. destruct (body id s1) as [[s2 t2] r2]. simpl. by intros ->.
Qed.

Lemma start_unfold e order :
  resolveExecutionOrder (instances e) = Ok order →
  result_of (start false e) = result_of (for_of order start_instance e) ∧
  state_of (start false e) = state_of (for_of order start_instance e).
Proof.
  intros Hres. unfold start, resolve_order, log, bind, emit, gets, lift_result.
  rewrite Hres. unfold result_of, state_of.
  destruct (for_of order start_instance e) as [[e1 t1] [[]|err]]; split; reflexivity.
Qed.

(** C5 (as the code has it). When an instance of the resolved order fails
    to start (its setup throws, or its config, wiring or registration is
    rejected), [start] throws that error. Nothing is torn down: the trace of
    [start] has no teardown hook, no teardown request and no termination of
    a worker, and the services and worker records of the instances started
    before stay in the engine. *)
Theorem start_abort_keeps_started e before id after err :
  resolveExecutionOrder (instances e) = Ok (before ++ id :: after) →
  let r0 := for_of before start_instance e in
  result_of r0 = Ok tt →
  result_of (start_instance id (state_of r0)) = Err err →
  let r := start false e in
  result_of r = Err err ∧
  Forall (fun ev => is_teardown_event ev = false) (trace_of r) ∧
  engine_extends (state_of r0) (state_of r).
Proof.
  intros Hres r0 Hr0 Hfail r.
  pose proof (start_unfold e _ Hres) as [Hr Hs].
  pose proof (for_of_abort start_instance before id after e err Hr0 Hfail) as [Ha Hb].
  split_and!.
  - subst r. by rewrite Hr.
  - by apply emits_start.
  - subst r. rewrite Hs, Hb. apply start_instance_extends.
    split; [by intros ? ? | by intros ? ?].
Qed.

(** ** [start]: wiring of a main-mode instance *)

Lemma set_context_id e : set_context (context e) e = e.
Proof. by destruct e. Qed.

Lemma on_context_getService e sid :
  services_has sid (context e) = true →
  ∃ v, on_context (getService sid) e = (e, [], Ok v).
Proof.
  unfold services_has. intros [v Hv]%bool_decide_eq_true. exists v.
  unfold on_context, zoom, getService. rewrite bind_gets, Hv.
  unfold ret. by rewrite set_context_id.
Qed.

Lemma wiring_read_own w key sid :
  wiring_get w key = Some sid ↔ wiring_read w key = OwnEntry sid.
Proof.
  unfold wiring_read. destruct (wiring_get w key) as [s|].
  - split; by intros [= ->].
  - split; [done |]. by destruct (Object_prototype_get key).
Qed.

Lemma resolve_deps_missing e id w before key after :
  (∀ k, k ∈ before → wired (context e) w k) →
  wiring_missing w key →
  ∀ deps, resolve_deps id w (before ++ key :: after) deps e
          = (e, [], Err (WiringMissing id key)).
Proof.
  intros Hwired Hmiss. induction before as [|k before IH]; intros deps; simpl.
  - by destruct Hmiss as [-> | ->].
  - destruct (Hwired k (list_elem_of_here _ _)) as (sid & Hsid & Hne & Hhas).
    apply wiring_read_own in Hsid as ->.
    apply String.eqb_neq in Hne as ->.
    destruct (on_context_getService e sid Hhas) as [v Hv].
    unfold bind. rewrite Hv, IH; [done |].
    intros k' Hk'. apply Hwired. by apply list_elem_of_further.
Qed.

Lemma start_instance_wiring_missing e id plugin type cfg reqs before key after :
  instances_get (instances e) id = Some plugin →
  inst_mode plugin = main →
  pluginTypes e !! inst_typeId plugin = Some type →
  parse (def_schema type) (inst_config plugin) = Ok cfg →
  def_requirements type = Some reqs →
  Object_keys reqs = before ++ key :: after →
  (∀ k, k ∈ before → wired (context e) (inst_wiring plugin) k) →
  wiring_missing (inst_wiring plugin) key →
  result_of (start_instance id e) = Err (WiringMissing id key).
Proof.
  intros Hget Hmode Htype Hparse Hreqs Hkeys Hwired Hmiss.
  unfold start_instance. rewrite bind_gets, Hget, bind_gets, Htype.
  rewrite Hmode, Hreqs, Hkeys.
  unfold log, call_parse, bind, emit, lift_result. rewrite Hparse.
  by rewrite (resolve_deps_missing e id _ before key after Hwired Hmiss).
Qed.

Lemma lifecycle_frame_store I T :
  lifecycle_frame (fun e => instances e = I ∧ pluginTypes e = T).
Proof. by intros s Hs. Qed.

(** C6 (as the code has it). When [start] reaches a main-mode instance
    whose config is accepted, and the read of a requirement of its type on
    the wiring object gives [undefined] or the empty string (the object has
    no own entry under the name and inherits none, or has an empty one),
    while the requirements before it are wired to registered services,
    [start] throws the missing-wiring error that names the instance and the
    requirement. *)
Theorem start_wiring_missing e before id after plugin type cfg reqs rbefore key rafter :
  resolveExecutionOrder (instances e) = Ok (before ++ id :: after) →
  let r0 := for_of before start_instance e in
  result_of r0 = Ok tt →
  instances_get (instances e) id = Some plugin →
  inst_mode plugin = main →
  pluginTypes e !! inst_typeId plugin = Some type →
  parse (def_schema type) (inst_config plugin) = Ok cfg →
  def_requirements type = Some reqs →
  Object_keys reqs = rbefore ++ key :: rafter →
  (∀ k, k ∈ rbefore → wired (context (state_of r0)) (inst_wiring plugin) k) →
  wiring_missing (inst_wiring plugin) key →
  result_of (start false e) = Err (WiringMissing id key).
Proof.
  intros Hres r0 Hr0 Hget Hmode Htype Hparse Hreqs Hkeys Hwired Hmiss.
  pose proof (preserves_for_of _ before start_instance
    (fun x => preserves_start_instance _ x
                (lifecycle_frame_store (instances e) (pluginTypes e)))
    e (conj eq_refl eq_refl)) as [Hi Ht].
  fold r0 in Hi, Ht.
  pose proof (start_unfold e _ Hres) as [-> _].
  eapply for_of_abort; [done |]. fold r0.
  eapply start_instance_wiring_missing; try done.
  - by rewrite Hi.
  - by rewrite Ht.
Qed.

(** ** [start]: what a main-mode setup produces *)

Lemma on_context_getService_eq e sid :
  on_context (getService sid) e =
    (e, [], match services (context e) !! sid with
            | Some v => Ok v
            | None => Err (new_Error ("Service '" +:+ sid +:+ "' not found."))
            end).
Proof.
  unfold on_context, zoom, getService. rewrite bind_gets.
  destruct (services (context e) !! sid); unfold ret, throw; by rewrite set_context_id.
Qed.

Lemma resolve_deps_pure e id w reqs :
  ∀ deps, ∃ r, resolve_deps id w reqs deps e = (e, [], r).
Proof.
  induction reqs as [|key reqs IH]; intros deps; simpl; [by eexists |].
  destruct (wiring_read w key) as [sid|rendered|]; [|by eexists..].
  destruct (sid =? "")%string; [by eexists |].
  unfold bind. rewrite on_context_getService_eq.
  destruct (services (context e) !! sid) as [v|]; [|by eexists].
  destruct (IH (deps ++ [(key, v)])) as [r ->]. by eexists.
Qed.

Lemma main_deps_pure e id plugin type :
  ∃ r, main_deps id plugin type e = (e, [], r).
Proof.
  unfold main_deps. destruct (def_requirements type); [|by eexists].
  apply resolve_deps_pure.
Qed.

Lemma registerService_fresh id schema impl ctx :
  services_has id ctx = false →
  registerService id schema impl true ctx =
    match parse schema impl with
    | Ok _ => (services_set id impl ctx, [EvParse (schema_name schema) impl], Ok tt)
    | Err e => (ctx, [EvParse (schema_name schema) impl], Err (ContractViolation id e))
    end.
Proof.
  intros Hhas. unfold registerService. rewrite bind_gets, Hhas.
  unfold call_parse, try_catch, bind, emit, lift_result, ret, throw, modify.
  by destruct (parse schema impl).
Qed.

Lemma bind_ok {S A B} (m : M S A) (k : A → M S B) s s1 t1 a :
  m s = (s1, t1, Ok a) →
  bind m k s = (state_of (k a s1), t1 ++ trace_of (k a s1), result_of (k a s1)).
Proof. intros H. unfold bind. rewrite H. by destruct (k a s1) as [[? ?] ?]. Qed.

Lemma call_parse_eq {S} schema v (s : S) :
  call_parse schema v s = (s, [EvParse (schema_name schema) v], parse schema v).
Proof. unfold call_parse, bind, emit, lift_result. by rewrite app_nil_r. Qed.

Lemma on_context_eq {A} (m : M PluginContext A) e c t r :
  m (context e) = (c, t, r) → on_context m e = (set_context c e, t, r).
Proof. intros H. unfold on_context, zoom. by rewrite H. Qed.

Lemma on_context_hasService id e :
  on_context (hasService id) e = (e, [], Ok (services_has id (context e))).
Proof. unfold on_context, zoom, hasService, gets. by rewrite set_context_id. Qed.

Ltac mstep := cbn [state_of trace_of result_of fst snd].

Lemma start_instance_main e id plugin type cfg deps ctx' tr result :
  instances_get (instances e) id = Some plugin →
  inst_mode plugin = main →
  pluginTypes e !! inst_typeId plugin = Some type →
  parse (def_schema type) (inst_config plugin) = Ok cfg →
  result_of (main_deps id plugin type e) = Ok deps →
  run_setup (def_setup type cfg (DepsRecord deps) id) (context e) = (ctx', tr, Ok result) →
  let publish :=
    if truthy result && negb (services_has id ctx')
    then registerService id (def_schema type) result true ctx'
    else (ctx', [], Ok tt) in
  state_of (start_instance id e) = set_context (state_of publish) e ∧
  result_of (start_instance id e) = result_of publish ∧
  (EvSetup id :: tr) ++ trace_of publish `suffix_of` trace_of (start_instance id e).
Proof.
  intros Hget Hmode Htype Hparse Hdeps Hsetup.
  destruct (main_deps_pure e id plugin type) as [rd Hrd].
  rewrite Hrd in Hdeps. unfold result_of in Hdeps. simpl in Hdeps. subst rd.
  unfold main_deps in Hrd.
  unfold start_instance. rewrite bind_gets, Hget, bind_gets, Htype, Hmode.
  cbv iota. unfold log.
  erewrite bind_ok by reflexivity.
  erewrite (bind_ok (call_parse _ _))
    by (rewrite call_parse_eq, Hparse; reflexivity).
  erewrite bind_ok by exact Hrd.
  erewrite bind_ok by reflexivity.
  erewrite bind_ok by (by apply on_context_eq).
  erewrite bind_ok by apply on_context_hasService.
  cbn [context set_context].
  destruct (truthy result && negb (services_has id ctx')); mstep.
  - destruct (registerService id (def_schema type) result true ctx')
      as [[c2 t2] r2] eqn:Hreg.
    erewrite on_context_eq by exact Hreg. mstep.
    split_and!; [done | done |]. by eexists [_; _].
  - unfold ret. mstep. split_and!; [by destruct e | done |].
    eexists [_; _]. simpl. by rewrite !app_nil_r.
Qed.

(** X29. What becomes of the value [setup] returns, as the code has it. In
    main mode, when setup returns a truthy value that is not a thenable: if
    the registry has no service under the instance id, [start] registers
    the returned value under the id against the config schema of the type
    (and throws the contract violation if that schema rejects it); if setup
    registered a service under the id, the registry is left as setup left
    it and the returned value is dropped. In the worker host, when setup
    returns a value that is not a thenable, the test is one of truthiness:
    a truthy value captured by [registerService] is served, whatever setup
    returns; when the captured value is falsy, a truthy returned value is
    served. *)
Theorem setup_result_precedence :
  (∀ e id plugin type cfg deps ctx' tr result,
     instances_get (instances e) id = Some plugin →
     inst_mode plugin = main →
     pluginTypes e !! inst_typeId plugin = Some type →
     parse (def_schema type) (inst_config plugin) = Ok cfg →
     result_of (main_deps id plugin type e) = Ok deps →
     run_setup (def_setup type cfg (DepsRecord deps) id) (context e) = (ctx', tr, Ok result) →
     truthy result = true →
     thenable result = false →
     let r := start_instance id e in
     match services ctx' !! id with
     | Some registered =>
         result_of r = Ok tt ∧ context (state_of r) = ctx'
     | None =>
         match parse (def_schema type) result with
         | Ok _ =>
             result_of r = Ok tt ∧ context (state_of r) = services_set id result ctx'
         | Err e =>
             result_of r
               = Err (new_Error ("Service '" +:+ id +:+ "' failed contract validation: "
                                 +:+ (if String.eqb (name e) "ZodError" then message e
                                      else Error_toString (name e) (message e)))) ∧
             context (state_of r) = ctx'
         end
     end) ∧
  (∀ data m t def captured tr result,
     find_definition (w_typeId data) m = Some (ExportDef t def) →
     run_setup_worker (def_setup def (w_config data) DepsUplink (w_pluginId data)) VNull
       = (captured, tr, Ok result) →
     thenable result = false →
     bootstrap data (Ok m)
       = Serving def (if truthy captured then captured
                      else if truthy result then result else captured)).
Proof.
  split.
  - intros e id plugin type cfg deps ctx' tr result Hget Hmode Htype Hparse Hdeps
      Hsetup Htruthy _ r.
    pose proof (start_instance_main e id plugin type cfg deps ctx' tr result
                  Hget Hmode Htype Hparse Hdeps Hsetup) as (Hs & Hr & _).
    fold r in Hs, Hr. rewrite Htruthy in Hs, Hr. simpl in Hs, Hr.
    destruct (services ctx' !! id) as [registered|] eqn:Hlook.
    + assert (services_has id ctx' = true) as Hhas.
      { unfold services_has. apply bool_decide_eq_true. by rewrite Hlook. }
      rewrite Hhas in Hs, Hr. simpl in Hs, Hr. by rewrite Hs, Hr.
    + assert (services_has id ctx' = false) as Hhas.
      { unfold services_has. apply bool_decide_eq_false. rewrite Hlook. by intros [? ?]. }
      rewrite Hhas in Hs, Hr. simpl in Hs, Hr.
      rewrite registerService_fresh in Hs, Hr by done.
      destruct (parse (def_schema type) result); by rewrite Hs, Hr.
  - intros data m t def captured tr result Hfind Hsetup _.
    unfold bootstrap. rewrite Hfind, Hsetup.
    by destruct (truthy captured), (truthy result).
Qed.

(** ** RPC clients *)

Lemma settle_other p q st (ps : list PromiseState) :
  p ≠ q → settle q st ps !! p = ps !! p.
Proof.
  intros Hne. unfold settle. destruct (ps !! q) as [[| |]|]; try done.
  by rewrite list_lookup_insert_ne.
Qed.

Lemma settle_pending p st (ps : list PromiseState) :
  ps !! p = Some Pending → settle p st ps !! p = Some st.
Proof.
  intros H. unfold settle. rewrite H. apply list_lookup_insert_eq.
  by eapply lookup_lt_Some.
Qed.

Lemma settle_settled p q st (ps : list PromiseState) s :
  ps !! p = Some s → s ≠ Pending → settle q st ps !! p = Some s.
Proof.
  intros H Hs. destruct (decide (p = q)) as [<-|Hne].
  - unfold settle. rewrite H. by destruct s.
  - by rewrite settle_other.
Qed.

Lemma length_settle q st (ps : list PromiseState) : length (settle q st ps) = length ps.
Proof.
  unfold settle. destruct (ps !! q) as [[| |]|]; try done. apply length_insert.
Qed.

Lemma elapse_no_timers {Msg} dt (c : Client Msg) :
  timers c = [] →
  elapse dt c = {| pending := pending c; timers := []; next_timer := next_timer c;
                   promises := promises c; outbox := outbox c;
                   now := (now c + Z.of_N dt)%Z |}.
Proof. intros H. unfold elapse. by rewrite H. Qed.

Lemma uplink_wf_step c ev : uplink_wf c → uplink_wf (uplink_client_step c ev).
Proof.
  intros [Ht He]. destruct ev as [req id|msg|dt]; simpl.
  - split; simpl; [done |]. intros id' entry.
    rewrite length_app. simpl. destruct (decide (id = id')) as [->|Hne].
    + rewrite lookup_insert_eq. intros [= <-]. simpl. lia.
    + rewrite lookup_insert_ne by done. intros H%He. lia.
  - assert (∀ id st, uplink_wf (client_complete id st c)) as Hc.
    { intros id st. unfold client_complete.
      destruct (pending c !! id) as [entry|] eqn:Hentry; split; simpl.
      - rewrite Ht. by destruct (entry_timer entry).
      - intros id' entry'. rewrite length_settle.
        destruct (decide (id = id')) as [->|Hne];
          [by rewrite lookup_delete_eq | rewrite lookup_delete_ne by done; apply He].
      - done.
      - intros id' entry'.
        destruct (decide (id = id')) as [->|Hne];
          [by rewrite lookup_delete_eq | rewrite lookup_delete_ne by done; apply He]. }
    destruct msg; simpl; try done; apply Hc.
  - rewrite elapse_no_timers by done. by split.
Qed.

Lemma uplink_wf_run evs : ∀ c, uplink_wf c → uplink_wf (foldl uplink_client_step c evs).
Proof.
  induction evs as [|ev evs IH]; intros c Hc; [done |].
  simpl. by apply IH, uplink_wf_step.
Qed.

Lemma uplink_outstanding_step id p c ev :
  uplink_touches id ev = false →
  uplink_outstanding id p c → uplink_outstanding id p (uplink_client_step c ev).
Proof.
  intros Hq [Ht He Hp Ho].
  assert (p < length (promises c)) as Hlt by by eapply lookup_lt_Some.
  destruct ev as [req id'|msg|dt]; simpl in *.
  - apply String.eqb_neq in Hq. split; simpl.
    + done.
    + by rewrite lookup_insert_ne.
    + by apply lookup_app_l_Some.
    + intros id'' entry Hne. destruct (decide (id' = id'')) as [->|Hne'].
      * rewrite lookup_insert_eq. intros [= <-]. simpl. lia.
      * rewrite lookup_insert_ne by done. by apply Ho.
  - assert (∀ id' st, id' ≠ id →
              uplink_outstanding id p (client_complete id' st c)) as Hc.
    { intros id' st Hne. unfold client_complete.
      destruct (pending c !! id') as [entry|] eqn:Hentry; split; simpl.
      - rewrite Ht. by destruct (entry_timer entry).
      - by rewrite lookup_delete_ne.
      - rewrite settle_other; [done |]. intros ->. by eapply Ho.
      - intros id'' entry' Hne'. destruct (decide (id' = id'')) as [->|Hne''];
          [by rewrite lookup_delete_eq | rewrite lookup_delete_ne by done; by apply Ho].
      - done.
      - by rewrite lookup_delete_ne.
      - done.
      - intros id'' entry' Hne'. destruct (decide (id' = id'')) as [->|Hne''];
          [by rewrite lookup_delete_eq | rewrite lookup_delete_ne by done; by apply Ho]. }
    destruct msg; simpl; try (by split); apply Hc; by apply String.eqb_neq.
  - rewrite elapse_no_timers by done. by split.
Qed.

(** C4, uplink side. An uplink call arms no timer. Whatever the history of
    the client, while no response and no error frame carries the id of the
    call (and the id is not minted again), its promise stays pending and its
    entry stays in the pending map, however much time passes. *)
Theorem uplink_call_never_times_out t0 history req id later :
  Forall (fun ev => uplink_touches id ev = false) later →
  let c := foldl uplink_client_step (client_new t0) history in
  let c1 := (uplink_call req id c).1 in
  let p := (uplink_call req id c).2 in
  let c2 := foldl uplink_client_step c1 later in
  promises c2 !! p = Some Pending ∧
  pending c2 !! id = Some {| entry_promise := p; entry_timer := None |} ∧
  timers c2 = [] ∧
  now c2 = (now c + elapsed later)%Z.
Proof.
  intros Hquiet c c1 p c2.
  assert (uplink_wf c) as [Ht He].
  { apply uplink_wf_run. split; [done |]. intros id' entry. simpl.
    by rewrite lookup_empty. }
  assert (uplink_outstanding id p c1) as H1.
  { split; simpl.
    - done.
    - by rewrite lookup_insert_eq.
    - by apply list_lookup_middle.
    - intros id' entry Hne. rewrite lookup_insert_ne by done. intros H%He.
      unfold p. simpl. lia. }
  assert (now c1 = now c) as Hnow by done.
  clearbody c1 p. subst c2. rewrite <- Hnow. clear Hnow Ht He.
  revert c1 H1. induction Hquiet as [|ev later Hev Hq IH]; intros c1 H1.
  - simpl. destruct H1. split_and!; try done. lia.
  - simpl foldl. pose proof (uplink_outstanding_step _ _ _ _ Hev H1) as H2.
    destruct (IH _ H2) as (? & ? & ? & Hn). split_and!; try done.
    rewrite Hn. destruct ev as [req' id'|msg|dt]; simpl.
    + done.
    + destruct msg; simpl; try done; unfold client_complete;
        by destruct (pending c1 !! _).
    + rewrite elapse_no_timers by apply H1. simpl. lia.
Qed.

(** ** Errors across the channel *)

Lemma client_complete_settles {Msg} id st (c : Client Msg) entry :
  pending c !! id = Some entry →
  promises c !! entry_promise entry = Some Pending →
  promises (client_complete id st c) !! entry_promise entry = Some st ∧
  pending (client_complete id st c) !! id = None.
Proof.
  intros He Hp. unfold client_complete. rewrite He. simpl. split.
  - by apply settle_pending.
  - apply lookup_delete_eq.
Qed.

(** C7 (as the code has it). When a service method throws during a [CALL],
    the [ERROR] frame carries the message of the error as a string, and the
    client rejects the promise of the call with a new [Error] that has that
    message, the name [Error] and a stack of its own; the name and the
    stack of the thrown error do not cross the channel. The same holds of
    [UPLINK_ERROR] in the other direction. *)
Theorem rpc_error_carries_message :
  (∀ service id method args err,
     invoke service method args = Err err →
     rpc_server_on_message service (CALL id method args) = [ERROR id (message err)] ∧
     ∀ c entry,
       pending c !! id = Some entry →
       promises c !! entry_promise entry = Some Pending →
       promises (rpc_client_on_message (ERROR id (message err)) c) !! entry_promise entry
         = Some (Rejected {| name := "Error"; message := message err;
                             stack := stack (new_Error (message err)) |})) ∧
  (∀ objects ctx wiring id serviceName method args serviceId service err,
     wiring_get wiring serviceName = Some serviceId →
     serviceId ≠ "" →
     services ctx !! serviceId = Some service →
     invoke (objects service) method args = Err err →
     uplink_server_on_message objects ctx wiring (UPLINK_CALL id serviceName method args)
       = [UPLINK_ERROR id (message err)] ∧
     ∀ c entry,
       pending c !! id = Some entry →
       promises c !! entry_promise entry = Some Pending →
       promises (uplink_client_on_message (UPLINK_ERROR id (message err)) c)
         !! entry_promise entry
         = Some (Rejected {| name := "Error"; message := message err;
                             stack := stack (new_Error (message err)) |})).
Proof.
  split.
  - intros service id method args err Hthrow. split.
    + simpl. by rewrite Hthrow.
    + intros c entry He Hp. simpl.
      by destruct (client_complete_settles id
                     (Rejected (new_Error (message err))) c entry He Hp).
  - intros objects ctx wiring id serviceName method args serviceId service err
      Hw Hne Hs Hthrow. split.
    + unfold uplink_server_on_message.
      rewrite (proj1 (wiring_read_own _ _ _) Hw). apply String.eqb_neq in Hne as ->.
      unfold getService. rewrite bind_gets, Hs. unfold ret, result_of. simpl.
      by rewrite Hthrow.
    + intros c entry He Hp. simpl.
      by destruct (client_complete_settles id
                     (Rejected (new_Error (message err))) c entry He Hp).
Qed.

(** ** The downlink client: a call that gets no answer times out *)













Lemma setTimeout_delay_id ms :
  (0 < ms ≤ TIMEOUT_MAX)%Z → setTimeout_delay ms = ms.
Proof.
  intros [Hlo Hhi]. unfold setTimeout_delay.
  destruct (Z.leb_spec 1 ms); [|lia]. destruct (Z.leb_spec ms TIMEOUT_MAX); [done | lia].
Qed.


(** ** The properties on the sample engines *)

Import Samples.

Lemma chain_engine_acyclic : acyclic (instances chain_engine).
Proof. apply (rank_ok_acyclic _ chain_rank). vm_compute. reflexivity. Qed.

Lemma resolveExecutionOrder_topological_witness :
  acyclic (instances chain_engine) ∧
  ∃ order,
    resolveExecutionOrder (instances chain_engine) = Ok order ∧
    NoDup order ∧
    (∀ k, k ∈ order ↔ k ∈ keys (instances chain_engine)) ∧
    (∀ c inst req target,
       instances_get (instances chain_engine) c = Some inst →
       (req, target) ∈ inst_wiring inst →
       if instances_has (instances chain_engine) target
       then precedes target c order
       else target ∉ order) ∧
    resolveExecutionOrder (prune (instances chain_engine)) = Ok order.
Proof.
  split; [exact chain_engine_acyclic |].
  exact (resolveExecutionOrder_topological (instances chain_engine) chain_engine_acyclic).
Defined.

Example chain_engine_order :
  resolveExecutionOrder (instances chain_engine) = Ok ["sys-logger"; "db"; "api"].
Proof. vm_compute. reflexivity. Qed.


Example stop_started_engine :
  trace_of (stop quiet_host false started_engine)
    = [EvLog (nl +:+ "EazyCore Stopping..."); EvTeardown "api";
       EvLog "   [api] Error during teardown: Error: socket busy";
       EvTeardown "db"; EvLog "System Stopped"] ∧
  result_of (stop quiet_host false started_engine) = Ok tt.
Proof. vm_compute. split; reflexivity. Qed.


Lemma cyclic_engine_cyclic : cyclic (instances cyclic_engine).
Proof.
  exists "X", ["Y"]. unfold cycle.
  change (edge (instances cyclic_engine) "X" "Y" ∧
          edge (instances cyclic_engine) "Y" "X" ∧ True).
  split_and!; [| |done]; unfold edge; apply list_elem_of_In; vm_compute; tauto.
Qed.

Lemma resolveExecutionOrder_cyclic_witness :
  cyclic (instances cyclic_engine) ∧
  ∃ lead a0 rest err prefix,
    cycle (instances cyclic_engine) a0 rest ∧
    err = new_Error ("Cyclic dependency: " +:+ join " -> " (lead ++ a0 :: rest ++ [a0])) ∧
    message err = prefix +:+ join " -> " (a0 :: rest ++ [a0]) ∧
    resolveExecutionOrder (instances cyclic_engine) = Err err ∧
    ∀ dryRun, result_of (start dryRun cyclic_engine) = Err err.
Proof.
  split; [exact cyclic_engine_cyclic |].
  exact (resolveExecutionOrder_cyclic cyclic_engine cyclic_engine_cyclic).
Defined.

Example cyclic_engine_message :
  resolveExecutionOrder (instances cyclic_engine)
    = Err (new_Error "Cyclic dependency: W -> X -> Y -> X").
Proof. vm_compute. reflexivity. Qed.

Example self_wired_engine_message :
  resolveExecutionOrder (instances self_wired_engine)
    = Err (new_Error "Cyclic dependency: X -> X") ∧
  result_of (start true self_wired_engine) = Err (new_Error "Cyclic dependency: X -> X").
Proof. vm_compute. split; reflexivity. Qed.

Lemma uplink_call_never_times_out_witness :
  Forall (fun ev => uplink_touches "u1" ev = false) silent_run ∧
  let c := foldl uplink_client_step (client_new 0) [] in
  let c1 := (uplink_call info_request "u1" c).1 in
  let p := (uplink_call info_request "u1" c).2 in
  let c2 := foldl uplink_client_step c1 silent_run in
  promises c2 !! p = Some Pending ∧
  pending c2 !! "u1" = Some {| entry_promise := p; entry_timer := None |} ∧
  timers c2 = [] ∧
  now c2 = (now c + elapsed silent_run)%Z.
Proof.
  assert (Forall (fun ev => uplink_touches "u1" ev = false) silent_run) as H
    by (repeat constructor).
  split; [exact H |].
  exact (uplink_call_never_times_out 0 [] info_request "u1" silent_run H).
Defined.

(** C5 as the claim states it fails: the started instance [a] has a
    teardown hook, the setup of [b] throws, and [start] returns the error
    without having torn [a] down. *)
Lemma start_abort_no_rollback :
  let e := with_ext_logger failing_engine in
  let r := start false e in
  resolveExecutionOrder (instances e) = Ok ["a"; "b"] ∧
  result_of r = Err boom ∧
  has_teardown (state_of r) "a" = true ∧
  services_has "a" (context (state_of r)) = true ∧
  torn_down (trace_of r) ≠ ["a"].
Proof. vm_compute. split_and!; try reflexivity. discriminate. Qed.

Lemma start_abort_keeps_started_witness :
  let e := with_ext_logger failing_engine in
  resolveExecutionOrder (instances e) = Ok (["a"] ++ "b" :: []) ∧
  result_of (for_of ["a"] start_instance e) = Ok tt ∧
  result_of (start_instance "b" (state_of (for_of ["a"] start_instance e))) = Err boom ∧
  result_of (start false e) = Err boom ∧
  Forall (fun ev => is_teardown_event ev = false) (trace_of (start false e)) ∧
  engine_extends (state_of (for_of ["a"] start_instance e)) (state_of (start false e)).
Proof.
  intros e.
  assert (resolveExecutionOrder (instances e) = Ok (["a"] ++ "b" :: [])) as H1
    by (vm_compute; reflexivity).
  assert (result_of (for_of ["a"] start_instance e) = Ok tt) as H2
    by (vm_compute; reflexivity).
  assert (result_of (start_instance "b" (state_of (for_of ["a"] start_instance e)))
          = Err boom) as H3 by (vm_compute; reflexivity).
  split; [exact H1 |]. split; [exact H2 |]. split; [exact H3 |].
  exact (start_abort_keeps_started e ["a"] "b" [] boom H1 H2 H3).
Defined.

(** C6 as the claim states it fails: the worker-mode instance [app] has no
    wiring for the requirement [logger] of its type, and [start] succeeds. *)
Lemma start_worker_unwired :
  let e := unwired_engine worker in
  ∃ plugin type,
    instances_get (instances e) "app" = Some plugin ∧
    inst_mode plugin = worker ∧
    pluginTypes e !! inst_typeId plugin = Some type ∧
    Object_keys (default [] (def_requirements type)) = ["logger"] ∧
    wiring_read (inst_wiring plugin) "logger" = Absent ∧
    result_of (start false e) = Ok tt.
Proof.
  eexists _, _. vm_compute. split_and!; reflexivity.
Qed.

Lemma start_wiring_missing_witness :
  let e := unwired_engine main in
  let plugin := create AppDef "app" VNull None (Some main) in
  resolveExecutionOrder (instances e) = Ok ([] ++ "app" :: []) ∧
  result_of (for_of [] start_instance e) = Ok tt ∧
  instances_get (instances e) "app" = Some plugin ∧
  inst_mode plugin = main ∧
  pluginTypes e !! inst_typeId plugin = Some AppDef ∧
  parse (def_schema AppDef) (inst_config plugin) = Ok VNull ∧
  def_requirements AppDef = Some [("logger", any_schema)] ∧
  Object_keys [("logger", any_schema)] = [] ++ "logger" :: [] ∧
  (∀ k, k ∈ [] → wired (context (state_of (for_of [] start_instance e)))
                   (inst_wiring plugin) k) ∧
  wiring_missing (inst_wiring plugin) "logger" ∧
  result_of (start false e) = Err (WiringMissing "app" "logger").
Proof.
  intros e plugin.
  assert (resolveExecutionOrder (instances e) = Ok ([] ++ "app" :: [])) as H1
    by (vm_compute; reflexivity).
  assert (result_of (for_of [] start_instance e) = Ok tt) as H2 by reflexivity.
  assert (instances_get (instances e) "app" = Some plugin) as H3
    by (vm_compute; reflexivity).
  assert (inst_mode plugin = main) as H4 by reflexivity.
  assert (pluginTypes e !! inst_typeId plugin = Some AppDef) as H5
    by (vm_compute; reflexivity).
  assert (parse (def_schema AppDef) (inst_config plugin) = Ok VNull) as H6 by reflexivity.
  assert (def_requirements AppDef = Some [("logger", any_schema)]) as H7 by reflexivity.
  assert (Object_keys [("logger", any_schema)] = [] ++ "logger" :: []) as H8
    by reflexivity.
  assert (∀ k, k ∈ [] → wired (context (state_of (for_of [] start_instance e)))
                          (inst_wiring plugin) k) as H9
    by (intros k Hk; by apply elem_of_nil in Hk).
  assert (wiring_missing (inst_wiring plugin) "logger") as H10 by (by left).
  split; [exact H1 |]. split; [exact H2 |]. split; [exact H3 |]. split; [exact H4 |]. split; [exact H5 |]. split; [exact H6 |]. split; [exact H7 |]. split; [exact H8 |]. split; [exact H9 |]. split; [exact H10 |].
  exact (start_wiring_missing e [] "app" [] plugin AppDef VNull
           [("logger", any_schema)] [] "logger" [] H1 H2 H3 H4 H5 H6 H7 H8 H9 H10).
Defined.

(** C7 as the claim states it fails: the worker-side [query] throws a
    [RangeError] with its own stack; the frame sent back is the message
    string, and the error the caller gets has another name and another
    stack. *)
Lemma rpc_error_loses_name_and_stack :
  let c1 := (rpc_call DEFAULT_RPC_TIMEOUT_MS query_request "c1" (client_new 0)).1 in
  let p := (rpc_call DEFAULT_RPC_TIMEOUT_MS query_request "c1" (client_new 0)).2 in
  outbox c1 = [CALL "c1" "query" [VStr "SELECT 1"]] ∧
  rpc_server_on_message throwing_service (CALL "c1" "query" [VStr "SELECT 1"])
    = [ERROR "c1" "offset out of range"] ∧
  ∃ e, promises (rpc_client_on_message (ERROR "c1" "offset out of range") c1) !! p
         = Some (Rejected e) ∧
       message e = message range_error ∧
       name e ≠ name range_error ∧
       stack e ≠ stack range_error.
Proof.
  vm_compute. split_and!; try reflexivity.
  eexists. split_and!; [reflexivity | reflexivity | discriminate | discriminate].
Qed.

Lemma rpc_error_carries_message_witness :
  let c1 := (rpc_call DEFAULT_RPC_TIMEOUT_MS query_request "c1" (client_new 0)).1 in
  let entry := {| entry_promise := 0; entry_timer := Some 0 |} in
  invoke throwing_service "query" [VStr "SELECT 1"] = Err range_error ∧
  pending c1 !! "c1" = Some entry ∧
  promises c1 !! entry_promise entry = Some Pending ∧
  rpc_server_on_message throwing_service (CALL "c1" "query" [VStr "SELECT 1"])
    = [ERROR "c1" (message range_error)] ∧
  promises (rpc_client_on_message (ERROR "c1" (message range_error)) c1)
    !! entry_promise entry
    = Some (Rejected {| name := "Error"; message := message range_error;
                        stack := stack (new_Error (message range_error)) |}).
Proof.
  intros c1 entry.
  assert (invoke throwing_service "query" [VStr "SELECT 1"] = Err range_error) as H1
    by reflexivity.
  assert (pending c1 !! "c1" = Some entry) as H2 by (vm_compute; reflexivity).
  assert (promises c1 !! entry_promise entry = Some Pending) as H3 by reflexivity.
  split_and!; [exact H1 | exact H2 | exact H3 | |].
  - exact (proj1 (proj1 rpc_error_carries_message throwing_service "c1" "query"
                    [VStr "SELECT 1"] range_error H1)).
  - exact (proj2 (proj1 rpc_error_carries_message throwing_service "c1" "query"
                    [VStr "SELECT 1"] range_error H1) c1 entry H2 H3).
Defined.

(** C8 as the claim states it fails in the worker host: setup registers
    the number 0 and returns an object; the value captured by
    [registerService] is 0, and the worker serves the returned object. *)
Lemma bootstrap_falsy_capture :
  let data := worker_data ZeroDef in
  let m := [("default", ExportDef TObject ZeroDef)] in
  state_of (run_setup_worker (def_setup ZeroDef (w_config data) DepsUplink (w_pluginId data))
              VNull) = VNum 0 ∧
  result_of (run_setup_worker (def_setup ZeroDef (w_config data) DepsUplink (w_pluginId data))
               VNull) = Ok (VObj "returned") ∧
  bootstrap data (Ok m) = Serving ZeroDef (VObj "returned") ∧
  bootstrap data (Ok m) ≠ Serving ZeroDef (VNum 0).
Proof. vm_compute. split_and!; try reflexivity. discriminate. Qed.

Lemma setup_result_precedence_witness :
  let e := both_engine in
  let plugin := create BothDef "svc" VNull None None in
  let ctx' := services_set "svc" (VObj "registered") (context e) in
  let data := worker_data BothDef in
  let m := [("helper", ExportOther); ("BothDef", ExportDef TObject BothDef)] in
  (instances_get (instances e) "svc" = Some plugin ∧
   inst_mode plugin = main ∧
   pluginTypes e !! inst_typeId plugin = Some BothDef ∧
   parse (def_schema BothDef) (inst_config plugin) = Ok VNull ∧
   result_of (main_deps "svc" plugin BothDef e) = Ok [] ∧
   run_setup (def_setup BothDef VNull (DepsRecord []) "svc") (context e)
     = (ctx', [EvParse "any" (VObj "registered")], Ok (VObj "returned")) ∧
   truthy (VObj "returned") = true ∧
   thenable (VObj "returned") = false ∧
   result_of (start_instance "svc" e) = Ok tt ∧
   context (state_of (start_instance "svc" e)) = ctx') ∧
  (find_definition (w_typeId data) m = Some (ExportDef TObject BothDef) ∧
   run_setup_worker (def_setup BothDef (w_config data) DepsUplink (w_pluginId data)) VNull
     = (VObj "registered", [EvParse "any" (VObj "registered")], Ok (VObj "returned")) ∧
   truthy (VObj "registered") = true ∧
   bootstrap data (Ok m) = Serving BothDef (VObj "registered")).
Proof.
  intros e plugin ctx' data m.
  assert (instances_get (instances e) "svc" = Some plugin) as H1
    by (vm_compute; reflexivity).
  assert (inst_mode plugin = main) as H2 by reflexivity.
  assert (pluginTypes e !! inst_typeId plugin = Some BothDef) as H3
    by (vm_compute; reflexivity).
  assert (parse (def_schema BothDef) (inst_config plugin) = Ok VNull) as H4 by reflexivity.
  assert (result_of (main_deps "svc" plugin BothDef e) = Ok []) as H5 by reflexivity.
  assert (run_setup (def_setup BothDef VNull (DepsRecord []) "svc") (context e)
          = (ctx', [EvParse "any" (VObj "registered")], Ok (VObj "returned"))) as H6
    by (vm_compute; reflexivity).
  assert (truthy (VObj "returned") = true) as H7 by reflexivity.
  assert (find_definition (w_typeId data) m = Some (ExportDef TObject BothDef)) as H8
    by reflexivity.
  assert (run_setup_worker (def_setup BothDef (w_config data) DepsUplink (w_pluginId data))
            VNull
          = (VObj "registered", [EvParse "any" (VObj "registered")], Ok (VObj "returned")))
    as H9 by reflexivity.
  assert (truthy (VObj "registered") = true) as H10 by reflexivity.
  split.
  - split; [exact H1 |]. split; [exact H2 |]. split; [exact H3 |].
    split; [exact H4 |]. split; [exact H5 |]. split; [exact H6 |].
    split; [exact H7 |]. split; [reflexivity |].
    pose proof (proj1 setup_result_precedence e "svc" plugin BothDef VNull [] ctx'
                  [EvParse "any" (VObj "registered")] (VObj "returned")
                  H1 H2 H3 H4 H5 H6 H7 eq_refl) as H.
    assert (services ctx' !! "svc" = Some (VObj "registered")) as Hl
      by (vm_compute; reflexivity).
    cbv zeta in H. rewrite Hl in H. exact H.
  - split; [exact H8 |]. split; [exact H9 |]. split; [exact H10 |].
    exact (proj2 setup_result_precedence data m TObject BothDef (VObj "registered")
             [EvParse "any" (VObj "registered")] (VObj "returned") H8 H9 eq_refl).
Defined.

Example returning_engine_auto_registers :
  result_of (start false returning_engine) = Ok tt ∧
  services (context (state_of (start false returning_engine))) !! "svc"
    = Some (VObj "returned") ∧
  EvParse "object" (VObj "returned") ∈ trace_of (start false returning_engine).
Proof. vm_compute. split_and!; try reflexivity. set_solver. Qed.

Lemma lockDefinitions_monotone_witness :
  let ops := [OpRegisterDefinition LoggerDef; OpLockDefinitions;
              OpRegisterPlugin (create LoggerDef "sys-logger" VNull None None);
              OpStart false; OpStop quiet_host false] in
  let plugin := create ServerDef "late" VNull None None in
  let e := (run_ops ops (state_of (lockDefinitions chain_engine))).1 in
  result_of (registerDefinition FailingDef e)
    = Err (new_Error "Registry is locked. Cannot register new plugin type: 'failing'") ∧
  is_Some (pluginTypes e !! inst_typeId plugin) ∧
  instances_has (instances e) (inst_id plugin) = false ∧
  result_of (registerPlugin plugin e) = Ok tt ∧
  instances_get (instances (state_of (registerPlugin plugin e))) "late" = Some plugin.
Proof.
  intros ops plugin e.
  pose proof (lockDefinitions_monotone chain_engine ops FailingDef plugin)
    as (_ & Hreg & _ & _ & Hplugin).
  fold e in Hreg, Hplugin.
  assert (is_Some (pluginTypes e !! inst_typeId plugin)) as H1
    by (vm_compute; eexists; reflexivity).
  assert (instances_has (instances e) (inst_id plugin) = false) as H2
    by (vm_compute; reflexivity).
  split_and!; [by rewrite Hreg | exact H1 | exact H2 | |]; by destruct (Hplugin H1 H2).
Defined.

Lemma registerService_atomic_witness :
  let ctx := services_set "db" (VObj "database") PluginContext_new in
  services_has "db" ctx = true ∧
  registerService "db" object_schema (VNum 7) true ctx
    = (ctx, [], Err (new_Error "Service 'db' already registered.")) ∧
  result_of (registerService "cache" object_schema (VNum 7) true ctx)
    = Err (ContractViolation "cache"
             {| name := "ZodError"; message := "expected object";
                stack := "ZodError: expected object" |}) ∧
  state_of (registerService "cache" object_schema (VNum 7) true ctx) = ctx.
Proof.
  intros ctx.
  assert (services_has "db" ctx = true) as H1 by (vm_compute; reflexivity).
  assert (result_of (registerService "cache" object_schema (VNum 7) true ctx)
          = Err (ContractViolation "cache"
                   {| name := "ZodError"; message := "expected object";
                      stack := "ZodError: expected object" |})) as H2
    by (vm_compute; reflexivity).
  split_and!; [exact H1 | | exact H2 |].
  - exact (proj2 (registerService_atomic "db" object_schema (VNum 7) true ctx) H1).
  - exact (proj1 (registerService_atomic "cache" object_schema (VNum 7) true ctx) _ H2).
Defined.

Example rpc_call_times_out_default :
  let run := [Elapse 4000; Receive (RESPONSE "other" VNull); Elapse 6000] in
  let c1 := (rpc_call DEFAULT_RPC_TIMEOUT_MS query_request "c1" (client_new 0)).1 in
  let c2 := foldl (rpc_client_step DEFAULT_RPC_TIMEOUT_MS) c1 run in
  promises c2 !! 0
    = Some (Rejected (new_Error "RPC Timeout: Call to 'query' took > 10000ms")) ∧
  pending c2 !! "c1" = None ∧
  timers c2 = [].
Proof. vm_compute. split_and!; reflexivity. Qed.

Example rpc_call_answered_in_time :
  let run := [Elapse 4000; Receive (RESPONSE "c1" (VStr "row")); Elapse 60000] in
  let c1 := (rpc_call DEFAULT_RPC_TIMEOUT_MS query_request "c1" (client_new 0)).1 in
  let c2 := foldl (rpc_client_step DEFAULT_RPC_TIMEOUT_MS) c1 run in
  promises c2 !! 0 = Some (Fulfilled (VStr "row")) ∧
  pending c2 !! "c1" = None ∧
  timers c2 = [].
Proof. vm_compute. split_and!; reflexivity. Qed.

Example uplink_call_leaks :
  let c1 := (uplink_call info_request "u1" (client_new 0)).1 in
  let c2 := foldl uplink_client_step c1 silent_run in
  promises c2 !! 0 = Some Pending ∧
  pending c2 !! "u1" = Some {| entry_promise := 0; entry_timer := None |} ∧
  now c2 = 3620000%Z.
Proof. vm_compute. split_and!; reflexivity. Qed.

Example uplink_server_wiring_missing :
  uplink_server_on_message (fun _ _ => None) PluginContext_new []
    (UPLINK_CALL "u1" "logger" "info" [VStr "hello"])
    = [UPLINK_ERROR "u1" "Wiring missing for logger"].
Proof. reflexivity. Qed.

Example serialize_roundtrip :
  deserializeError (serializeError range_error) = range_error.
Proof. reflexivity. Qed.

(** ** Service registry: registration and lookup *)

(** X1. [registerService] succeeds exactly when the id is free and, if
    validation is on, the contract accepts the value. After a success
    [getService] returns the value that was passed in (not the parsed one),
    and every other id is as before. *)
Theorem registerService_getService id schema impl validate ctx :
  let r := registerService id schema impl validate ctx in
  (result_of r = Ok tt ↔
   services_has id ctx = false ∧
   (validate = true → ∃ v, parse schema impl = Ok v)) ∧
  (result_of r = Ok tt →
   getService id (state_of r) = (state_of r, [], Ok impl) ∧
   services_has id (state_of r) = true ∧
   ∀ id', id' ≠ id → services (state_of r) !! id' = services ctx !! id').
Proof.
  unfold registerService. rewrite bind_gets.
  destruct (services_has id ctx) eqn:Hhas.
  { split; [split; [done | by intros [? _]] | done]. }
  assert (∀ c, c = services_set id impl ctx →
     getService id c = (c, [], Ok impl) ∧ services_has id c = true ∧
     ∀ id', id' ≠ id → services c !! id' = services ctx !! id') as Hset.
  { intros c ->. split_and!.
    - unfold getService. rewrite bind_gets. simpl. by rewrite lookup_insert_eq.
    - unfold services_has. simpl. apply bool_decide_eq_true. by rewrite lookup_insert_eq.
    - intros id' Hne. simpl. by rewrite lookup_insert_ne. }
  destruct validate.
  - unfold call_parse, try_catch, bind, emit, lift_result, ret, throw, modify,
      result_of, state_of.
    destruct (parse schema impl) as [v|e'] eqn:Hparse; simpl.
    + split; [split; [eauto | done] | intros _; by apply Hset].
    + split; [|done]. split; [done |]. intros [_ Hv]. by destruct (Hv eq_refl).
  - split; [split; [done | done] | intros _; by apply Hset].
Qed.

(** ** Definition and instance store: what is registered stays *)

Lemma instances_set_fresh insts k p :
  instances_has insts k = false → instances_set insts k p = insts ++ [(k, p)].
Proof.
  unfold instances_has. induction insts as [|[k' p'] insts IH]; simpl; [done |].
  destruct (String.eqb k' k); [done |]. intros H. by rewrite IH.
Qed.

Lemma instances_get_app_l insts insts' k p :
  instances_get insts k = Some p → instances_get (insts ++ insts') k = Some p.
Proof.
  induction insts as [|[k' p'] insts IH]; simpl; [done |].
  by destruct (String.eqb k' k).
Qed.

Lemma instances_get_snoc insts k p :
  instances_has insts k = false → instances_get (insts ++ [(k, p)]) k = Some p.
Proof.
  unfold instances_has. induction insts as [|[k' p'] insts IH]; simpl.
  - by rewrite String.eqb_refl.
  - by destruct (String.eqb k' k).
Qed.

Lemma registerDefinition_eq def e :
  registerDefinition def e =
    if definitionsLocked e then
      (e, [], Err (new_Error ("Registry is locked. Cannot register new plugin type: '"
                              +:+ def_id def +:+ "'")))
    else if bool_decide (is_Some (pluginTypes e !! def_id def)) then
      (e, [], Err (new_Error ("Plugin Type '" +:+ def_id def +:+ "' is already registered.")))
    else (set_pluginTypes (<[def_id def := def]> (pluginTypes e)) e, [], Ok tt).
Proof.
  unfold registerDefinition. rewrite bind_gets.
  destruct (definitionsLocked e); [done |]. rewrite bind_gets.
  by destruct (bool_decide _).
Qed.

Lemma registerPlugin_eq plugin e :
  registerPlugin plugin e =
    if negb (bool_decide (is_Some (pluginTypes e !! inst_typeId plugin))) then
      (e, [], Err (new_Error ("Unknown Plugin Type: '" +:+ inst_typeId plugin +:+
                              "'. Did you forget to register the definition?")))
    else if instances_has (instances e) (inst_id plugin) then
      (e, [], Err (new_Error ("Plugin Instance ID '" +:+ inst_id plugin +:+ "' is already used.")))
    else (set_instances (instances_set (instances e) (inst_id plugin) plugin) e, [], Ok tt).
Proof.
  unfold registerPlugin. rewrite bind_gets.
  destruct (negb _); [done |]. rewrite bind_gets.
  by destruct (instances_has _ _).
Qed.

Lemma run_op_keeps_type k d op :
  preserves (fun e => pluginTypes e !! k = Some d) (run_op op).
Proof.
  destruct op; simpl.
  - intros e He. rewrite registerDefinition_eq.
    destruct (definitionsLocked e); [done |].
    destruct (bool_decide (is_Some (pluginTypes e !! def_id def))) eqn:Hk; [done |].
    unfold state_of. simpl. rewrite lookup_insert_ne; [done |].
    intros Heq. apply bool_decide_eq_false in Hk. apply Hk. rewrite Heq, He. by eexists.
  - by intros e He.
  - intros e He. rewrite registerPlugin_eq. by repeat case_match.
  - apply preserves_start. by intros s Hs.
  - apply preserves_stop. by intros s Hs.
Qed.

Lemma run_op_keeps_instance k p op :
  preserves (fun e => instances_get (instances e) k = Some p) (run_op op).
Proof.
  destruct op; simpl.
  - intros e He. rewrite registerDefinition_eq. by repeat case_match.
  - by intros e He.
  - intros e He. rewrite registerPlugin_eq.
    destruct (negb _); [done |].
    destruct (instances_has (instances e) (inst_id plugin)) eqn:Hh; [done |].
    unfold state_of. simpl. rewrite instances_set_fresh by done.
    by apply instances_get_app_l.
  - apply preserves_start. by intros s Hs.
  - apply preserves_stop. by intros s Hs.
Qed.

Lemma run_op_keys_prefix (l : list string) op :
  preserves (fun e => l `prefix_of` keys (instances e)) (run_op op).
Proof.
  destruct op; simpl.
  - intros e He. rewrite registerDefinition_eq. by repeat case_match.
  - by intros e He.
  - intros e He. rewrite registerPlugin_eq.
    destruct (negb _); [done |].
    destruct (instances_has (instances e) (inst_id plugin)) eqn:Hh; [done |].
    unfold state_of. simpl. rewrite instances_set_fresh by done.
    unfold keys. rewrite fmap_app. by apply prefix_app_r.
  - apply preserves_start. by intros s Hs.
  - apply preserves_stop. by intros s Hs.
Qed.

Lemma run_ops_preserves (P : EazyCore → Prop) ops :
  (∀ op, preserves P (run_op op)) → ∀ e, P e → P (run_ops ops e).1.
Proof.
  intros Hop. induction ops as [|op ops IH]; intros e He; [done |].
  simpl. apply IH. by apply Hop.
Qed.

(** X2. A plugin type that was registered stays registered, unchanged,
    whatever is called on the engine afterwards, and every later
    [registerDefinition] under its id throws and leaves the engine as it
    is. *)
Theorem registerDefinition_persists e def ops def' :
  result_of (registerDefinition def e) = Ok tt →
  let e1 := state_of (registerDefinition def e) in
  let e2 := (run_ops ops e1).1 in
  pluginTypes e2 !! def_id def = Some def ∧
  (def_id def' = def_id def → ∃ err, registerDefinition def' e2 = (e2, [], Err err)).
Proof.
  intros Hok e1 e2.
  assert (pluginTypes e1 !! def_id def = Some def) as H1.
  { subst e1. revert Hok. rewrite registerDefinition_eq.
    destruct (definitionsLocked e); [done |]. destruct (bool_decide _); [done |].
    intros _. unfold state_of. simpl. by rewrite lookup_insert_eq. }
  assert (pluginTypes e2 !! def_id def = Some def) as H2.
  { apply (run_ops_preserves (fun e => pluginTypes e !! def_id def = Some def));
      [intros op; apply run_op_keeps_type | done]. }
  split; [done |]. intros Heq. rewrite registerDefinition_eq.
  destruct (definitionsLocked e2); [by eexists |].
  rewrite Heq, H2. rewrite bool_decide_eq_true_2 by by eexists. by eexists.
Qed.

(** X3. [registerPlugin] puts a new instance at the end of the insertion
    order. The instance stays stored under its id and the order of the ids
    registered so far stays a prefix of the order, whatever is called on the
    engine afterwards; every later [registerPlugin] under the id throws and
    leaves the engine as it is. *)
Theorem registerPlugin_persists e plugin ops plugin' :
  result_of (registerPlugin plugin e) = Ok tt →
  let e1 := state_of (registerPlugin plugin e) in
  let e2 := (run_ops ops e1).1 in
  keys (instances e1) = keys (instances e) ++ [inst_id plugin] ∧
  keys (instances e1) `prefix_of` keys (instances e2) ∧
  instances_get (instances e2) (inst_id plugin) = Some plugin ∧
  (inst_id plugin' = inst_id plugin → ∃ err, registerPlugin plugin' e2 = (e2, [], Err err)).
Proof.
  intros Hok e1 e2.
  assert (instances e1 = instances e ++ [(inst_id plugin, plugin)] ∧
          instances_has (instances e) (inst_id plugin) = false) as [H1 Hfresh].
  { subst e1. revert Hok. rewrite registerPlugin_eq.
    destruct (negb _); [done |].
    destruct (instances_has (instances e) (inst_id plugin)) eqn:Hh; [done |].
    intros _. unfold state_of. simpl. by rewrite instances_set_fresh. }
  assert (instances_get (instances e2) (inst_id plugin) = Some plugin) as H2.
  { apply (run_ops_preserves
             (fun e => instances_get (instances e) (inst_id plugin) = Some plugin));
      [intros op; apply run_op_keeps_instance |].
    rewrite H1. by apply instances_get_snoc. }
  split_and!.
  - rewrite H1. unfold keys. by rewrite fmap_app.
  - by apply (run_ops_preserves (fun e => keys (instances e1) `prefix_of` keys (instances e)));
      [intros op; apply run_op_keys_prefix |].
  - done.
  - intros Heq. rewrite registerPlugin_eq. destruct (negb _); [by eexists |].
    unfold instances_has. rewrite Heq, H2. by eexists.
Qed.

Lemma registerDefinition_persists_witness :
  pluginTypes (run_ops [OpRegisterDefinition DatabaseDef; OpLockDefinitions; OpStart true]
                 (state_of (registerDefinition LoggerDef EazyCore_new))).1
    !! "logger-plugin" = Some LoggerDef.
Proof.
  apply (registerDefinition_persists EazyCore_new LoggerDef
           [OpRegisterDefinition DatabaseDef; OpLockDefinitions; OpStart true] LoggerDef).
  vm_compute. reflexivity.
Defined.

Lemma registerPlugin_persists_witness :
  keys (instances (state_of (registerPlugin (create LoggerDef "X" VNull None None)
                               (engine_of [OpRegisterDefinition LoggerDef]))))
    = keys (instances (engine_of [OpRegisterDefinition LoggerDef])) ++ ["X"].
Proof.
  apply (registerPlugin_persists (engine_of [OpRegisterDefinition LoggerDef])
           (create LoggerDef "X" VNull None None) [OpStart false]
           (create LoggerDef "X" VNull None None)).
  vm_compute. reflexivity.
Defined.

Lemma bind_result_ok {S A B} (m : M S A) (k : A → M S B) s b :
  result_of (bind m k s) = Ok b →
  ∃ a, result_of (m s) = Ok a ∧
       result_of (k a (state_of (m s))) = Ok b ∧
       state_of (bind m k s) = state_of (k a (state_of (m s))).
Proof.
  unfold bind, result_of, state_of. destruct (m s) as [[s1 t1] [a|e]]; simpl; [|done].
  intros H. exists a. by destruct (k a s1) as [[s2 t2] r].
Qed.

Lemma preserves_for_each {S A} (P : S → Prop) (l : list A) (body : A → M S unit) :
  (∀ x, preserves P (body x)) → preserves P (for_each l body).
Proof.
  intros Hb. induction l as [|x l IH]; simpl.
  - by intros s Hs.
  - apply preserves_bind; [apply Hb | intros _; apply IH].
Qed.

Lemma run_op_engine_wf op : preserves engine_wf (run_op op).
Proof.
  assert (lifecycle_frame engine_wf) as Hframe.
  { intros s [H1 H2 H3]. split; intros x; by split. }
  destruct op; simpl.
  - intros e [H1 H2 H3]. rewrite registerDefinition_eq.
    destruct (definitionsLocked e); [by split |].
    destruct (bool_decide (is_Some (pluginTypes e !! def_id def))) eqn:Hk; [by split |].
    unfold state_of. simpl. split; simpl; [done | done |].
    intros k p Hin. destruct (decide (def_id def = inst_typeId p)) as [<-|Hne].
    + rewrite lookup_insert_eq. by eexists.
    + rewrite lookup_insert_ne by done. by eapply H3.
  - by intros e [H1 H2 H3].
  - intros e [H1 H2 H3]. rewrite registerPlugin_eq.
    destruct (bool_decide (is_Some (pluginTypes e !! inst_typeId plugin))) eqn:Hty;
      simpl; [|by split].
    apply bool_decide_eq_true in Hty.
    destruct (instances_has (instances e) (inst_id plugin)) eqn:Hh; [by split |].
    unfold state_of. simpl. rewrite instances_set_fresh by done.
    split; simpl.
    + unfold keys. rewrite fmap_app. simpl. apply NoDup_app. split_and!.
      * done.
      * intros x Hx [->|[]%elem_of_nil]%elem_of_cons.
        apply instances_has_keys in Hx. congruence.
      * apply NoDup_singleton.
    + intros k p [Hin|[[= -> ->]|[]%elem_of_nil]%elem_of_cons]%elem_of_app;
        [by apply H2 | done].
    + intros k p [Hin|[[= -> ->]|[]%elem_of_nil]%elem_of_cons]%elem_of_app;
        [by eapply H3 | done].
  - by apply preserves_start.
  - by apply preserves_stop.
Qed.

Lemma instances_get_elem_of insts k p :
  NoDup (keys insts) → (k, p) ∈ insts → instances_get insts k = Some p.
Proof.
  induction insts as [|[k' p'] insts IH]; simpl; [by intros _ ?%elem_of_nil |].
  intros [Hnin Hnd]%NoDup_cons [[= -> ->]|Hin]%elem_of_cons.
  - by rewrite String.eqb_refl.
  - destruct (String.eqb_spec k' k) as [->|Hne]; [|by apply IH].
    destruct Hnin. unfold keys. apply list_elem_of_fmap. by exists (k, p).
Qed.

Lemma instances_get_Some_elem_of insts k p :
  instances_get insts k = Some p → (k, p) ∈ insts.
Proof.
  induction insts as [|[k' p'] insts IH]; simpl; [done |].
  destruct (String.eqb_spec k' k) as [->|Hne].
  - intros [= ->]. apply list_elem_of_here.
  - intros H. apply list_elem_of_further. by apply IH.
Qed.

(** X4. On every engine built from a fresh one through its public methods,
    instance ids are unique, each instance is stored under its own id and
    has a registered type; so every id that the resolver puts in the order
    names an instance whose definition is found: the unchecked lookups in
    the loop of [start] do not read [undefined]. *)
Theorem reachable_engine_closed ops :
  let e := (run_ops ops EazyCore_new).1 in
  engine_wf e ∧
  ∀ order id, resolveExecutionOrder (instances e) = Ok order → id ∈ order →
    ∃ plugin type, instances_get (instances e) id = Some plugin ∧
                   inst_id plugin = id ∧
                   pluginTypes e !! inst_typeId plugin = Some type.
Proof.
  intros e.
  assert (engine_wf e) as Hwf.
  { apply (run_ops_preserves engine_wf); [apply run_op_engine_wf |].
    split; simpl; [apply NoDup_nil_2 | by intros ? ? ?%elem_of_nil..]. }
  split; [done |]. intros order id Hres Hin.
  apply resolveExecutionOrder_ok in Hres as (_ & Hkeys & _).
  apply Hkeys, instances_has_keys in Hin. unfold instances_has in Hin.
  destruct (instances_get (instances e) id) as [plugin|] eqn:Hget; [|done].
  pose proof (instances_get_Some_elem_of _ _ _ Hget) as Hel.
  destruct (wf_types e Hwf _ _ Hel) as [type Hty].
  exists plugin, type. split_and!; [done | by eapply wf_ids | done].
Qed.

Import AppSamples.

(** ** The application shell *)

Lemma registerDefinition_ok def e :
  result_of (registerDefinition def e) = Ok tt →
  state_of (registerDefinition def e)
    = set_pluginTypes (<[def_id def := def]> (pluginTypes e)) e ∧
  definitionsLocked e = false ∧ pluginTypes e !! def_id def = None.
Proof.
  rewrite registerDefinition_eq. destruct (definitionsLocked e); [done |].
  destruct (bool_decide _) eqn:Hk; [done |]. intros _. split_and!; [done..|].
  apply bool_decide_eq_false in Hk. by apply eq_None_not_Some.
Qed.

Lemma for_each_registerPlugin ps e :
  result_of (for_each ps registerPlugin e) = Ok tt →
  keys (instances (state_of (for_each ps registerPlugin e)))
    = keys (instances e) ++ (inst_id <$> ps) ∧
  pluginTypes (state_of (for_each ps registerPlugin e)) = pluginTypes e ∧
  definitionsLocked (state_of (for_each ps registerPlugin e)) = definitionsLocked e.
Proof.
  revert e. induction ps as [|p ps IH]; intros e; simpl.
  - intros _. by rewrite app_nil_r.
  - intros (a & Hp & Hrest & ->)%bind_result_ok. destruct a.
    destruct (IH _ Hrest) as (-> & -> & ->).
    revert Hp. rewrite registerPlugin_eq. destruct (negb _); [done |].
    destruct (instances_has (instances e) (inst_id p)) eqn:Hh; [done |]. intros _.
    unfold state_of. simpl. rewrite instances_set_fresh by done.
    unfold keys. rewrite fmap_app. simpl. by rewrite <- app_assoc.
Qed.

Lemma for_each_registerDefinition_instances defs e :
  instances (state_of (for_each defs registerDefinition e)) = instances e.
Proof.
  by apply (preserves_for_each (fun e' => instances e' = instances e));
    [intros d e' He'; rewrite registerDefinition_eq; repeat case_match |].
Qed.

(** X5. When the constructor of [EazyApp] returns, the registry of types is
    locked, the three system definitions are registered, and the instances
    are the plugins of the configuration in the order they are listed. If
    the configuration asks for the lock, no other type is registered,
    whatever [extraDefinitions] holds. *)
Theorem EazyApp_constructor_ok L D S config :
  result_of (EazyApp_constructor L D S config EazyCore_new) = Ok tt →
  let e := state_of (EazyApp_constructor L D S config EazyCore_new) in
  definitionsLocked e = true ∧
  keys (instances e) = inst_id <$> app_plugins config ∧
  (∀ d, d ∈ [L; D; S] → pluginTypes e !! def_id d = Some d) ∧
  (app_lockDefinitions config = true →
   ∀ k, is_Some (pluginTypes e !! k) ↔ k ∈ [def_id L; def_id D; def_id S]).
Proof.
  intros Hok e. subst e. revert Hok. unfold EazyApp_constructor, log.
  intros ([] & _ & Hok & ->)%bind_result_ok. revert Hok.
  change (state_of (emit _ EazyCore_new)) with EazyCore_new.
  intros ([] & HL & Hok & ->)%bind_result_ok. revert Hok.
  apply registerDefinition_ok in HL as (-> & _ & _).
  set (e1 := set_pluginTypes _ _).
  intros ([] & HD & Hok & ->)%bind_result_ok. revert Hok.
  apply registerDefinition_ok in HD as (-> & _ & HD).
  set (e2 := set_pluginTypes _ _).
  intros ([] & HS & Hok & ->)%bind_result_ok. revert Hok.
  apply registerDefinition_ok in HS as (-> & _ & HS).
  set (e3 := set_pluginTypes _ _).
  intros ([] & _ & Hok & ->)%bind_result_ok. revert Hok.
  set (e4 := state_of _).
  intros ([] & _ & Hok & ->)%bind_result_ok.
  destruct (for_each_registerPlugin _ _ Hok) as (-> & -> & ->).
  assert (instances e4 = [] ∧
          (∀ k d, pluginTypes e3 !! k = Some d → pluginTypes e4 !! k = Some d) ∧
          (app_lockDefinitions config = true → pluginTypes e4 = pluginTypes e3))
    as (Hi & Hkeep & Hlock).
  { subst e4. destruct (app_lockDefinitions config); [done |].
    destruct (app_extraDefinitions config) as [defs|]; [|done].
    split_and!; [by rewrite for_each_registerDefinition_instances | | done].
    intros k d Hk.
    apply (preserves_for_each (fun e => pluginTypes e !! k = Some d));
      [intros d'; apply (run_op_keeps_type k d (OpRegisterDefinition d')) | done]. }
  assert (pluginTypes e3 !! def_id S = Some S) as H3S by apply lookup_insert_eq.
  assert (def_id D ≠ def_id S) as HDS.
  { intros Heq. revert HS. simpl. by rewrite <- Heq, lookup_insert_eq. }
  assert (def_id L ≠ def_id D) as HLD.
  { intros Heq. revert HD. simpl. by rewrite <- Heq, lookup_insert_eq. }
  assert (def_id L ≠ def_id S) as HLS.
  { intros Heq. revert HS. simpl. rewrite lookup_insert_ne by done.
    by rewrite <- Heq, lookup_insert_eq. }
  assert (pluginTypes e3 !! def_id D = Some D) as H3D.
  { simpl. rewrite lookup_insert_ne by done. apply lookup_insert_eq. }
  assert (pluginTypes e3 !! def_id L = Some L) as H3L.
  { simpl. rewrite !lookup_insert_ne by done. apply lookup_insert_eq. }
  split_and!.
  - done.
  - simpl. unfold lockDefinitions. simpl. by rewrite Hi.
  - intros d Hd. simpl. apply Hkeep.
    apply elem_of_cons in Hd as [->|Hd]; [done |].
    apply elem_of_cons in Hd as [->|Hd]; [done |].
    apply elem_of_cons in Hd as [->|Hd]; [done | by apply elem_of_nil in Hd].
  - intros Hflag k. simpl. rewrite (Hlock Hflag). simpl.
    rewrite !elem_of_cons, elem_of_nil.
    destruct (decide (k = def_id S)) as [->|HkS];
      [rewrite lookup_insert_eq; split; [auto | by eexists] |].
    rewrite lookup_insert_ne by done.
    destruct (decide (k = def_id D)) as [->|HkD];
      [rewrite lookup_insert_eq; split; [auto | by eexists] |].
    rewrite lookup_insert_ne by done.
    destruct (decide (k = def_id L)) as [->|HkL];
      [rewrite lookup_insert_eq; split; [auto | by eexists] |].
    rewrite lookup_insert_ne by done. rewrite lookup_empty.
    split; [by intros [? ?] | naive_solver].
Qed.

Lemma EazyApp_constructor_ok_witness :
  definitionsLocked
    (state_of (EazyApp_constructor LoggerDef DatabaseDef ServerDef (app_config true)
                 EazyCore_new)) = true.
Proof.
  apply (EazyApp_constructor_ok LoggerDef DatabaseDef ServerDef (app_config true)).
  vm_compute. reflexivity.
Defined.

(** ** The resolver on an order that is already topological *)

Lemma visit_visited insts fuel nodeId st :
  nodeId ∈ visited st → visit insts (S fuel) nodeId st = Some (Ok st).
Proof. intros H. simpl. by rewrite decide_True. Qed.

Lemma deps_loop_visited insts fuel targets st :
  (∀ t, t ∈ targets → instances_has insts t = true → t ∈ visited st ∧ 0 < fuel) →
  dfs_for_of (fun depId s => if instances_has insts depId
                             then visit insts fuel depId s else Some (Ok s))
             targets st = Some (Ok st).
Proof.
  induction targets as [|t targets IH]; intros Hv; [done |].
  cbn [dfs_for_of].
  destruct (instances_has insts t) eqn:Hh.
  - destruct (Hv t (list_elem_of_here _ _) Hh) as [Hin Hfuel].
    destruct fuel as [|fuel]; [lia |]. rewrite visit_visited by done.
    apply IH. intros t' Ht'. apply Hv. by apply list_elem_of_further.
  - apply IH. intros t' Ht'. apply Hv. by apply list_elem_of_further.
Qed.

Lemma providers_first_loop insts pre l st :
  NoDup (keys insts) →
  insts = pre ++ l →
  providers_first_from insts pre l = true →
  (∀ x, x ∈ visited st ↔ x ∈ keys pre) →
  (∀ x, x ∉ visiting st) →
  ∃ st', dfs_for_of (visit_root insts (S (length insts))) (keys l) st = Some (Ok st') ∧
         sorted st' = sorted st ++ keys l.
Proof.
  intros Hnd. revert pre st. induction l as [|[k p] l IH]; intros pre st Hi Hpf Hvd Hvg.
  - exists st. by rewrite app_nil_r.
  - simpl in Hpf. apply andb_true_iff in Hpf as [Hdeps Hpf].
    assert (k ∉ keys pre) as Hk.
    { rewrite Hi in Hnd. unfold keys in Hnd. rewrite fmap_app in Hnd.
      apply NoDup_app in Hnd as (_ & Hnd & _). intros Hin.
      apply (Hnd k Hin). simpl. apply list_elem_of_here. }
    assert (instances_get insts k = Some p) as Hget.
    { apply instances_get_elem_of; [done |]. rewrite Hi.
      apply elem_of_app. right. apply list_elem_of_here. }
    assert (length insts = S (length pre + length l)) as Hlen.
    { rewrite Hi, length_app. simpl. lia. }
    cbn [keys fmap list_fmap fst dfs_for_of]. unfold visit_root at 1.
    cbn [visit]. cbn [visited visiting sorted ancestors].
    rewrite decide_False by (by rewrite Hvd).
    rewrite decide_False by apply Hvg.
    rewrite Hget.
    rewrite deps_loop_visited; cycle 1.
    { intros t Ht Hh. cbn [visited].
      rewrite forallb_forall in Hdeps. apply list_elem_of_In in Ht.
      specialize (Hdeps t Ht). rewrite Hh in Hdeps. simpl in Hdeps.
      split; [by apply Hvd, instances_has_keys |].
      lia. }
    cbn [visited visiting sorted ancestors].
    match goal with |- ∃ _, dfs_for_of _ _ ?s = _ ∧ _ =>
      destruct (IH (pre ++ [(k, p)]) s) as (st' & Hrun & Hsorted) end.
    + by rewrite <- app_assoc.
    + done.
    + intros x. cbn [visited]. unfold keys. rewrite fmap_app. simpl.
      rewrite elem_of_union, elem_of_singleton, elem_of_app, Hvd.
      rewrite elem_of_cons, elem_of_nil. unfold keys. naive_solver.
    + intros x. cbn [visiting]. set_solver.
    + exists st'. split; [exact Hrun |]. rewrite Hsorted. cbn [sorted].
      by rewrite <- app_assoc.
Qed.

(** X6. If instances are registered providers first, that is every wiring
    target that is an instance is registered before the instance that
    names it, the resolver returns the registration order itself. *)
Theorem resolveExecutionOrder_insertion_order insts :
  NoDup (keys insts) →
  providers_first insts = true →
  resolveExecutionOrder insts = Ok (keys insts).
Proof.
  intros Hnd Hpf. unfold resolveExecutionOrder, resolve_with.
  destruct (providers_first_loop insts [] insts dfs_init Hnd eq_refl Hpf)
    as (st' & -> & Hsorted).
  - intros x. simpl. set_solver.
  - intros x. simpl. set_solver.
  - by rewrite Hsorted.
Qed.

Lemma resolveExecutionOrder_insertion_order_witness :
  resolveExecutionOrder (instances (state_of (EazyApp_constructor LoggerDef DatabaseDef
                                                ServerDef (AppSamples.app_config true)
                                                EazyCore_new)))
    = Ok ["sys-logger"; "db"; "api"].
Proof.
  apply (resolveExecutionOrder_insertion_order
           (instances (state_of (EazyApp_constructor LoggerDef DatabaseDef
                                   ServerDef (AppSamples.app_config true) EazyCore_new)))).
  - apply (bool_decide_unpack _). vm_compute. reflexivity.
  - vm_compute. reflexivity.
Defined.

Import MoreSamples.

(** ** Dry runs *)

(** X7. A dry run of [start] or of [stop] leaves the engine as it is and
    only writes to the log; it throws exactly when the resolver does, with
    the resolver's error. *)
Theorem dry_run_inert host e :
  let r1 := start true e in
  let r2 := stop host true e in
  let outcome := match resolveExecutionOrder (instances e) with
                 | Ok _ => Ok tt
                 | Err err => Err err
                 end in
  state_of r1 = e ∧ state_of r2 = e ∧
  forallb is_log (trace_of r1) = true ∧ forallb is_log (trace_of r2) = true ∧
  result_of r1 = outcome ∧ result_of r2 = outcome.
Proof.
  unfold start, stop, resolve_order, log, bind, emit, gets, lift_result,
    state_of, trace_of, result_of. simpl.
  by destruct (resolveExecutionOrder (instances e)).
Qed.

(** ** The [deps] record *)

Lemma resolve_deps_acc e id w reqs :
  (∀ key, key ∈ reqs → wired (context e) w key) →
  ∀ acc, ∃ new,
    resolve_deps id w reqs acc e = (e, [], Ok (acc ++ new)) ∧
    new.*1 = reqs ∧
    ∀ key v, (key, v) ∈ new →
      ∃ sid, wiring_get w key = Some sid ∧ services (context e) !! sid = Some v.
Proof.
  induction reqs as [|key reqs IH]; intros Hw acc; simpl.
  - exists []. rewrite app_nil_r. split_and!; [done..|]. by intros ? ? ?%elem_of_nil.
  - destruct (Hw key (list_elem_of_here _ _)) as (sid & Hsid & Hne & Hhas).
    rewrite (proj1 (wiring_read_own _ _ _) Hsid). apply String.eqb_neq in Hne as ->.
    unfold services_has in Hhas. apply bool_decide_eq_true in Hhas as [v Hv].
    unfold bind. rewrite on_context_getService_eq, Hv.
    destruct (IH (fun k Hk => Hw k (list_elem_of_further _ _ _ Hk)) (acc ++ [(key, v)]))
      as (new & -> & Hkeys & Hvals).
    exists ((key, v) :: new). rewrite <- app_assoc. split_and!; [done | |].
    + by rewrite fmap_cons, Hkeys.
    + intros k' v' [[= -> ->]|Hin]%elem_of_cons; [by exists sid | by apply Hvals].
Qed.

Lemma resolve_deps_ok_wired e id w reqs :
  ∀ acc deps, result_of (resolve_deps id w reqs acc e) = Ok deps →
              ∀ key, key ∈ reqs → wired (context e) w key.
Proof.
  induction reqs as [|key reqs IH]; intros acc deps; simpl.
  - by intros _ ? ?%elem_of_nil.
  - destruct (wiring_read w key) as [sid|rendered|] eqn:Hsid; [|done..].
    apply wiring_read_own in Hsid.
    destruct (String.eqb_spec sid "") as [|Hne]; [done |].
    unfold bind at 1. rewrite on_context_getService_eq.
    destruct (services (context e) !! sid) as [v|] eqn:Hv; [|done].
    destruct (resolve_deps id w reqs (acc ++ [(key, v)]) e) as [[s t] r] eqn:Hrest.
    unfold result_of. simpl. intros ->.
    intros k [->|Hin]%elem_of_cons.
    + exists sid. split_and!; [done..|]. unfold services_has.
      apply bool_decide_eq_true. by eexists.
    + eapply (IH (acc ++ [(key, v)]) deps); [by rewrite Hrest | done].
Qed.

(** X8. Resolving the dependencies of an instance changes nothing and
    writes nothing. It succeeds exactly when every requirement is wired to
    a registered service, and the record it builds then has one entry per
    requirement, in the order of the requirements, that holds the service
    registered under the wired id. *)
Theorem resolve_deps_spec e id w reqs :
  let r := resolve_deps id w reqs [] e in
  state_of r = e ∧ trace_of r = [] ∧
  ((∀ key, key ∈ reqs → wired (context e) w key) ↔ ∃ deps, result_of r = Ok deps) ∧
  ∀ deps, result_of r = Ok deps →
    deps.*1 = reqs ∧
    ∀ key v, (key, v) ∈ deps →
      ∃ sid, wiring_get w key = Some sid ∧ services (context e) !! sid = Some v.
Proof.
  intros r. subst r. destruct (resolve_deps_pure e id w reqs []) as [r Hr].
  rewrite Hr. unfold state_of, trace_of, result_of. simpl. split_and!; [done..| |].
  - split.
    + intros Hw. destruct (resolve_deps_acc e id w reqs Hw []) as (new & Hnew & _).
      exists new. rewrite Hr in Hnew. by injection Hnew.
    + intros [deps ->]. apply (resolve_deps_ok_wired e id w reqs [] deps). by rewrite Hr.
  - intros deps ->.
    assert (∀ key, key ∈ reqs → wired (context e) w key) as Hw.
    { apply (resolve_deps_ok_wired e id w reqs [] deps). by rewrite Hr. }
    destruct (resolve_deps_acc e id w reqs Hw []) as (new & Hnew & Hkeys & Hvals).
    rewrite Hr in Hnew. injection Hnew as ->. by split.
Qed.

Lemma resolve_deps_not_found e id w before key after sid :
  (∀ k, k ∈ before → wired (context e) w k) →
  wiring_get w key = Some sid → sid ≠ "" →
  services_has sid (context e) = false →
  ∀ deps, resolve_deps id w (before ++ key :: after) deps e
          = (e, [], Err (ServiceNotFound sid)).
Proof.
  intros Hwired Hsid Hne Hhas. induction before as [|k before IH]; intros deps; simpl.
  - rewrite (proj1 (wiring_read_own _ _ _) Hsid). apply String.eqb_neq in Hne as ->.
    unfold bind. rewrite on_context_getService_eq.
    unfold services_has in Hhas. apply bool_decide_eq_false in Hhas.
    destruct (services (context e) !! sid) eqn:Hv; [|done]. destruct Hhas. by eexists.
  - destruct (Hwired k (list_elem_of_here _ _)) as (sid' & Hsid' & Hne' & Hhas').
    rewrite (proj1 (wiring_read_own _ _ _) Hsid').
    apply String.eqb_neq in Hne' as ->.
    destruct (on_context_getService e sid' Hhas') as [v Hv].
    unfold bind. rewrite Hv, IH; [done |].
    intros k' Hk'. apply Hwired. by apply list_elem_of_further.
Qed.

(** X9. When [start] reaches a main-mode instance one of whose
    requirements is wired to an id under which no service is registered
    (an id outside the system, or an instance whose setup provided
    nothing), while the requirements before it are wired to registered
    services, [start] throws [Service '<id>' not found.]. *)
Theorem start_service_not_found e before id after plugin type cfg reqs rbefore key rafter sid :
  resolveExecutionOrder (instances e) = Ok (before ++ id :: after) →
  let r0 := for_of before start_instance e in
  result_of r0 = Ok tt →
  instances_get (instances e) id = Some plugin →
  inst_mode plugin = main →
  pluginTypes e !! inst_typeId plugin = Some type →
  parse (def_schema type) (inst_config plugin) = Ok cfg →
  def_requirements type = Some reqs →
  Object_keys reqs = rbefore ++ key :: rafter →
  (∀ k, k ∈ rbefore → wired (context (state_of r0)) (inst_wiring plugin) k) →
  wiring_get (inst_wiring plugin) key = Some sid → sid ≠ "" →
  services_has sid (context (state_of r0)) = false →
  result_of (start false e) = Err (ServiceNotFound sid).
Proof.
  intros Hres r0 Hr0 Hget Hmode Htype Hparse Hreqs Hkeys Hwired Hsid Hne Hhas.
  pose proof (preserves_for_of _ before start_instance
    (fun x => preserves_start_instance _ x
                (lifecycle_frame_store (instances e) (pluginTypes e)))
    e (conj eq_refl eq_refl)) as [Hi Ht].
  fold r0 in Hi, Ht.
  pose proof (start_unfold e _ Hres) as [-> _].
  eapply for_of_abort; [done |]. fold r0.
  unfold start_instance. rewrite bind_gets, Hi, Hget, bind_gets, Ht, Htype.
  rewrite Hmode, Hreqs, Hkeys.
  unfold log, call_parse, bind, emit, lift_result. rewrite Hparse.
  by rewrite (resolve_deps_not_found (state_of r0) id _ rbefore key rafter sid
                Hwired Hsid Hne Hhas).
Qed.

Lemma start_service_not_found_witness :
  result_of (start false silent_provider_engine) = Err (ServiceNotFound "a").
Proof.
  apply (start_service_not_found silent_provider_engine ["a"] "b" []
           (create AppDef "b" VNull (Some [("logger", "a")]) None) AppDef VNull
           [("logger", any_schema)] [] "logger" [] "a").
  - vm_compute. reflexivity.
  - vm_compute. reflexivity.
  - vm_compute. reflexivity.
  - vm_compute. reflexivity.
  - vm_compute. reflexivity.
  - vm_compute. reflexivity.
  - vm_compute. reflexivity.
  - vm_compute. reflexivity.
  - intros k Hk. by apply elem_of_nil in Hk.
  - vm_compute. reflexivity.
  - discriminate.
  - vm_compute. reflexivity.
Defined.

(** ** [start]: a worker-mode instance *)

Lemma start_instance_worker_eq e id plugin type :
  instances_get (instances e) id = Some plugin →
  inst_mode plugin = worker →
  pluginTypes e !! inst_typeId plugin = Some type →
  start_instance id e =
    let line := EvLog ("   [" +:+ id +:+ "] Initializing (worker)...") in
    let parsed := EvParse (schema_name (def_schema type)) (inst_config plugin) in
    let missing := new_Error ("Plugin '" +:+ def_id type +:+ "' missing entryPoint") in
    match parse (def_schema type) (inst_config plugin) with
    | Err err => (e, [line; parsed], Err err)
    | Ok cfg =>
        match def_entryPoint type with
        | None => (e, [line; parsed], Err missing)
        | Some ep =>
            if String.eqb ep "" then (e, [line; parsed], Err missing)
            else
              let w := {| w_pluginId := id; w_typeId := def_id type;
                          w_entryPoint := ep; w_config := cfg |} in
              let e1 := set_workers (<[id := w]> (workers e)) e in
              let tr := [line; parsed; EvUplinkServer id (inst_wiring plugin);
                         EvSpawn id (def_id type) ep cfg] in
              if services_has id (context e)
              then (e1, tr, Err (new_Error ("Service '" +:+ id +:+ "' already registered.")))
              else (set_context (services_set id (VProxy id) (context e)) e1, tr, Ok tt)
        end
    end.
Proof.
  intros Hget Hmode Htype. unfold start_instance.
  rewrite bind_gets, Hget, bind_gets, Htype, Hmode.
  unfold log, call_parse, bind, emit, lift_result, ret, throw. simpl.
  destruct (parse (def_schema type) (inst_config plugin)) as [cfg|err]; [|done].
  destruct (def_entryPoint type) as [ep|]; [|done].
  destruct (String.eqb ep ""); [done |].
  unfold modify, on_context, zoom, registerService. simpl.
  rewrite bind_gets. destruct (services_has id (context e)); [done |].
  unfold bind, ret, modify. done.
Qed.



(** X11. When a service is already registered under the id of a
    worker-mode instance, starting the instance throws the duplicate error
    of the registry, but only after a worker has been spawned and recorded
    under the id, in place of any earlier record. *)
Theorem start_instance_worker_respawn e id plugin type cfg ep :
  instances_get (instances e) id = Some plugin →
  inst_mode plugin = worker →
  pluginTypes e !! inst_typeId plugin = Some type →
  parse (def_schema type) (inst_config plugin) = Ok cfg →
  def_entryPoint type = Some ep → ep ≠ "" →
  services_has id (context e) = true →
  let r := start_instance id e in
  result_of r = Err (new_Error ("Service '" +:+ id +:+ "' already registered.")) ∧
  EvSpawn id (def_id type) ep cfg ∈ trace_of r ∧
  workers (state_of r) !! id
    = Some {| w_pluginId := id; w_typeId := def_id type;
              w_entryPoint := ep; w_config := cfg |} ∧
  context (state_of r) = context e.
Proof.
  intros Hget Hmode Htype Hparse Hep Hne Hhas r. subst r.
  rewrite (start_instance_worker_eq e id plugin type Hget Hmode Htype). cbv zeta.
  rewrite Hparse, Hep, Hhas. apply String.eqb_neq in Hne as ->.
  unfold result_of, state_of, trace_of. simpl. split_and!; [done | | | done].
  - do 3 apply list_elem_of_further. apply list_elem_of_here.
  - by rewrite lookup_insert_eq.
Qed.

Lemma start_instance_worker_respawn_witness :
  result_of (start_instance "app"
               (state_of (start_instance "app" (unwired_engine worker))))
    = Err (new_Error "Service 'app' already registered.").
Proof.
  apply (start_instance_worker_respawn
           (state_of (start_instance "app" (unwired_engine worker))) "app"
           (create AppDef "app" VNull None (Some worker)) AppDef VNull "app.ts").
  - vm_compute. reflexivity.
  - reflexivity.
  - vm_compute. reflexivity.
  - vm_compute. reflexivity.
  - reflexivity.
  - discriminate.
  - vm_compute. reflexivity.
Defined.

(** ** [stop]: what it leaves alone *)

Lemma stop_instance_keeps e0 host id : preserves (stop_keeps e0) (stop_instance host id).
Proof.
  unfold stop_instance, undefined_read, gracefulTeardown, log.
  repeat first
    [ apply preserves_ret | apply preserves_throw | apply preserves_emit
    | apply preserves_gets | apply preserves_lift_result
    | apply preserves_bind; [|intros ?]
    | apply preserves_try_catch; [|intros ?]
    | case_match ].
  apply preserves_modify. intros s (Hc & Hi & Ht & Hl & Hw).
  split_and!; [done..|]. simpl. etrans; [apply delete_subseteq | done].
Qed.

Lemma stop_keeps_stop e0 host dryRun : preserves (stop_keeps e0) (stop host dryRun).
Proof.
  unfold stop, resolve_order, log.
  repeat first
    [ apply stop_instance_keeps
    | apply preserves_ret | apply preserves_throw | apply preserves_emit
    | apply preserves_gets | apply preserves_lift_result
    | apply preserves_bind; [|intros ?]
    | apply preserves_for_of; intros ?
    | case_match ].
Qed.

(** X12. [stop], dry run or not, never unregisters a service, never
    removes an instance or a plugin type and never unlocks the registry of
    types; the only thing it changes is the set of worker records, which it
    can only shrink. *)
Theorem stop_frame host dryRun e :
  let e' := state_of (stop host dryRun e) in
  context e' = context e ∧ instances e' = instances e ∧
  pluginTypes e' = pluginTypes e ∧ definitionsLocked e' = definitionsLocked e ∧
  workers e' ⊆ workers e.
Proof. apply (stop_keeps_stop e host dryRun e). by split_and!. Qed.

(** ** Starting again after a stop *)

Lemma start_trace e order ev :
  resolveExecutionOrder (instances e) = Ok order →
  ev ∈ trace_of (for_of order start_instance e) → ev ∈ trace_of (start false e).
Proof.
  intros Hres. unfold start, resolve_order, log, bind, emit, gets, lift_result.
  rewrite Hres. unfold trace_of.
  destruct (for_of order start_instance e) as [[e1 t1] [[]|err]]; simpl; intros Hin.
  - do 2 apply list_elem_of_further. apply elem_of_app. by left.
  - by do 2 apply list_elem_of_further.
Qed.

(** X13. An engine whose first instance in the start order runs in a
    worker cannot be started twice: after a [start] that succeeded and a
    [stop], the registry still holds the proxy of the instance, so the next
    [start] throws the duplicate error of the registry, after it has
    spawned and recorded a new worker for the instance. *)
Theorem restart_respawns host e id rest plugin type :
  resolveExecutionOrder (instances e) = Ok (id :: rest) →
  instances_get (instances e) id = Some plugin →
  inst_mode plugin = worker →
  pluginTypes e !! inst_typeId plugin = Some type →
  result_of (start false e) = Ok tt →
  let e1 := state_of (start false e) in
  let e2 := state_of (stop host false e1) in
  result_of (start false e2)
    = Err (new_Error ("Service '" +:+ id +:+ "' already registered.")) ∧
  is_Some (workers (state_of (start false e2)) !! id) ∧
  (∃ entryPoint cfg, EvSpawn id (def_id type) entryPoint cfg ∈ trace_of (start false e2)).
Proof.
  intros Hres Hget Hmode Htype Hok e1 e2.
  destruct (start_unfold e _ Hres) as [Hr1 Hs1].
  rewrite Hr1 in Hok. cbn [for_of] in Hok, Hs1.
  apply bind_result_ok in Hok as ([] & Hfirst & Hrest & Hst).
  set (s1 := state_of (start_instance id e)) in *.
  (* the first start registers the proxy *)
  assert (∃ cfg ep, parse (def_schema type) (inst_config plugin) = Ok cfg ∧
                    def_entryPoint type = Some ep ∧ ep ≠ "" ∧
                    services_has id (context s1) = true) as (cfg & ep & Hparse & Hep & Hne & Hhas).
  { subst s1. revert Hfirst.
    rewrite (start_instance_worker_eq e id plugin type Hget Hmode Htype). cbv zeta.
    destruct (parse (def_schema type) (inst_config plugin)) as [cfg|]; [|done].
    destruct (def_entryPoint type) as [ep|]; [|done].
    destruct (String.eqb_spec ep ""); [done |].
    destruct (services_has id (context e)); [done |]. intros _.
    exists cfg, ep. split_and!; [done..|]. unfold state_of, services_has. simpl.
    apply bool_decide_eq_true. rewrite lookup_insert_eq. by eexists. }
  assert (services_has id (context e1) = true) as Hhas1.
  { subst e1. rewrite Hs1, Hst.
    by apply (preserves_for_of _ rest start_instance
                (fun x => start_instance_extends s1 x) s1);
      [split; [by intros ? ? | by intros ? ?] |]. }
  destruct (preserves_start _ false (lifecycle_frame_store (instances e) (pluginTypes e))
              e (conj eq_refl eq_refl)) as [Hi1 Ht1].
  fold e1 in Hi1, Ht1.
  destruct (stop_keeps_stop e1 host false e1) as (Hc2 & Hi2 & Ht2 & _);
    [by split_and! |]. fold e2 in Hc2, Hi2, Ht2.
  assert (resolveExecutionOrder (instances e2) = Ok ([] ++ id :: rest)) as Hres2
    by (by rewrite Hi2, Hi1).
  assert (instances_get (instances e2) id = Some plugin) as Hget2 by (by rewrite Hi2, Hi1).
  assert (pluginTypes e2 !! inst_typeId plugin = Some type) as Htype2
    by (by rewrite Ht2, Ht1).
  pose proof (fun ev => start_trace e2 _ ev Hres2) as Htrace.
  destruct (start_unfold e2 _ Hres2) as [-> ->].
  pose proof (start_instance_worker_eq e2 id plugin type Hget2 Hmode Htype2) as Heq.
  cbv zeta in Heq. rewrite Hparse, Hep, Hc2, Hhas1 in Heq.
  apply String.eqb_neq in Hne. rewrite Hne in Heq.
  destruct (for_of_abort start_instance [] id rest e2
              (new_Error ("Service '" +:+ id +:+ "' already registered.")))
    as [Hr Hs];
    [done | change (state_of (for_of [] start_instance e2)) with e2; by rewrite Heq |].
  split_and!.
  - exact Hr.
  - rewrite Hs. change (state_of (for_of [] start_instance e2)) with e2. rewrite Heq.
    unfold state_of. simpl. rewrite lookup_insert_eq. by eexists.
  - exists ep, cfg. apply Htrace. cbn [app for_of]. unfold bind, trace_of.
    rewrite Heq. simpl. do 3 apply list_elem_of_further. apply list_elem_of_here.
Qed.

Lemma restart_respawns_witness :
  result_of (start false
               (state_of (stop quiet_host false
                            (state_of (start false (unwired_engine worker))))))
    = Err (new_Error "Service 'app' already registered.").
Proof.
  apply (restart_respawns quiet_host (unwired_engine worker) "app" []
           (create AppDef "app" VNull None (Some worker)) AppDef).
  - vm_compute. reflexivity.
  - vm_compute. reflexivity.
  - reflexivity.
  - vm_compute. reflexivity.
  - vm_compute. reflexivity.
Defined.

(** ** [stop]: the worker records *)

Lemma trace_bind_l {S A B} (m : M S A) (k : A → M S B) s ev :
  ev ∈ trace_of (m s) → ev ∈ trace_of (bind m k s).
Proof.
  unfold bind, trace_of. destruct (m s) as [[s1 t1] [a|e]]; simpl; [|done].
  destruct (k a s1) as [[s2 t2] r]. simpl. intros H. apply elem_of_app. by left.
Qed.

Lemma trace_bind_r {S A B} (m : M S A) (k : A → M S B) s s1 t1 a ev :
  m s = (s1, t1, Ok a) → ev ∈ trace_of (k a s1) → ev ∈ trace_of (bind m k s).
Proof.
  intros Hm. unfold bind, trace_of. rewrite Hm.
  destruct (k a s1) as [[s2 t2] r]. simpl. intros H. apply elem_of_app. by right.
Qed.

Lemma state_bind {S A B} (m : M S A) (k : A → M S B) s s1 t1 a :
  m s = (s1, t1, Ok a) → state_of (bind m k s) = state_of (k a s1).
Proof. intros Hm. by rewrite (bind_ok m k s s1 t1 a Hm). Qed.

Lemma stop_loop_other host id l :
  ∀ e, id ∉ l →
       (∀ x, x ∈ l → is_Some (instances_get (instances e) x)) →
       let r := for_of l (stop_instance host) e in
       result_of r = Ok tt ∧ instances (state_of r) = instances e ∧
       pluginTypes (state_of r) = pluginTypes e ∧
       workers (state_of r) !! id = workers e !! id.
Proof.
  induction l as [|x l IH]; intros e Hid Hreg; [done |].
  apply not_elem_of_cons in Hid as [Hne Hid].
  destruct (Hreg x (list_elem_of_here _ _)) as [plugin Hget].
  destruct (stop_instance_spec host x e plugin Hget) as (Hr & Hi & Ht & Hw & _).
  cbn [for_of]. cbv zeta.
  destruct (stop_instance host x e) as [[s1 t1] r1] eqn:Hx.
  unfold result_of, state_of in Hr, Hi, Ht, Hw. simpl in Hr, Hi, Ht, Hw. subst r1.
  destruct (IH s1 Hid) as (Hr' & Hi' & Ht' & Hw').
  { intros y Hy. rewrite Hi. apply Hreg. by apply list_elem_of_further. }
  rewrite (bind_ok _ _ _ _ _ _ Hx). cbn [result_of state_of fst snd].
  split_and!; [done | congruence | congruence |].
  rewrite Hw'. by apply Hw.
Qed.

Lemma stop_instance_worker host id e plugin w :
  instances_get (instances e) id = Some plugin →
  inst_mode plugin = worker →
  workers e !! id = Some w →
  let r := stop_instance host id e in
  workers (state_of r) !! id
    = match terminate_result host id with Ok _ => None | Err _ => Some w end ∧
  EvPost id (TEARDOWN (nanoid host id)) ∈ trace_of r ∧
  EvTerminate id ∈ trace_of r.
Proof.
  intros Hget Hmode Hw. unfold stop_instance.
  rewrite bind_gets, Hget, bind_gets, Hmode.
  unfold try_catch. rewrite bind_gets, Hw.
  unfold gracefulTeardown, log, bind, emit, lift_result, modify, ret, throw.
  destruct (teardown_reply host id) as [[err|]|];
    destruct (terminate_result host id) as [[]|err'];
    unfold state_of, trace_of; simpl;
    (split_and!; [first [by rewrite lookup_delete_eq | done]
                 | rewrite !elem_of_cons; tauto
                 | rewrite !elem_of_cons; tauto ]).
Qed.

(** X14. For a worker-mode instance with a worker record, [stop] posts the
    teardown request and then always calls [terminate], whatever the worker
    answered; the record is removed exactly when [terminate] completes
    normally, and kept when it throws. *)
Theorem stop_worker_records host e order id plugin w :
  resolveExecutionOrder (instances e) = Ok order →
  instances_get (instances e) id = Some plugin →
  inst_mode plugin = worker →
  workers e !! id = Some w →
  let r := stop host false e in
  workers (state_of r) !! id
    = match terminate_result host id with Ok _ => None | Err _ => Some w end ∧
  EvPost id (TEARDOWN (nanoid host id)) ∈ trace_of r ∧
  EvTerminate id ∈ trace_of r.
Proof.
  intros Hres Hget Hmode Hw r. subst r.
  destruct (resolveExecutionOrder_ok _ _ Hres) as (Hnd & Hkeys & _).
  assert (id ∈ rev order) as Hin.
  { apply elem_of_rev, Hkeys. by eapply instances_get_Some_keys. }
  apply list_elem_of_split in Hin as (l1 & l2 & Hsplit).
  assert (NoDup (l1 ++ id :: l2)) as Hnd' by (rewrite <- Hsplit; by apply NoDup_rev_2).
  apply NoDup_app in Hnd' as (_ & Hl1 & Hl2). apply NoDup_cons in Hl2 as [Hl2 _].
  assert (∀ x, x ∈ rev order → is_Some (instances_get (instances e) x)) as Hreg.
  { intros x Hx%elem_of_rev%Hkeys%instances_has_keys. unfold instances_has in Hx.
    by destruct (instances_get (instances e) x). }
  destruct (stop_loop_other host id l1 e) as (Hr1 & Hi1 & Ht1 & Hw1).
  { intros Hx. apply (Hl1 id Hx). apply list_elem_of_here. }
  { intros x Hx. apply Hreg. rewrite Hsplit. apply elem_of_app. by left. }
  destruct (for_of l1 (stop_instance host) e) as [[s1 t1] r1] eqn:Hrun1.
  unfold result_of, state_of in Hr1, Hi1, Ht1, Hw1. simpl in Hr1, Hi1, Ht1, Hw1. subst r1.
  assert (instances_get (instances s1) id = Some plugin) as Hget1 by (by rewrite Hi1).
  assert (workers s1 !! id = Some w) as Hws1 by (by rewrite Hw1).
  destruct (stop_instance_worker host id s1 plugin w Hget1 Hmode Hws1) as (Hw2 & Hp2 & Hk2).
  destruct (stop_instance_spec host id s1 plugin Hget1) as (Hr2 & Hi2 & _).
  destruct (stop_instance host id s1) as [[s2 t2] r2] eqn:Hrun2.
  unfold result_of, state_of, trace_of in Hw2, Hp2, Hk2, Hr2, Hi2.
  simpl in Hw2, Hp2, Hk2, Hr2, Hi2. subst r2.
  destruct (stop_loop_other host id l2 s2 Hl2) as (Hr3 & _ & _ & Hw3).
  { intros x Hx. rewrite Hi2, Hi1. apply Hreg. rewrite Hsplit.
    apply elem_of_app. right. by apply list_elem_of_further. }
  destruct (for_of l2 (stop_instance host) s2) as [[s3 t3] r3] eqn:Hrun3.
  unfold result_of, state_of in Hr3, Hw3. simpl in Hr3, Hw3. subst r3.
  assert (for_of (rev order) (stop_instance host) e = (s3, t1 ++ t2 ++ t3, Ok tt)) as Hloop.
  { rewrite Hsplit, for_of_app. rewrite (bind_ok _ _ _ _ _ _ Hrun1). cbn [for_of].
    rewrite (bind_ok _ _ _ _ _ _ Hrun2), Hrun3. done. }
  assert (resolve_order e = (e, [], Ok order)) as Hro.
  { unfold resolve_order. rewrite bind_gets. unfold lift_result. by rewrite Hres. }
  unfold stop, log.
  rewrite (bind_ok (emit _) _ e e [_] tt eq_refl).
  rewrite (bind_ok _ _ _ _ _ _ Hro). cbn [state_of trace_of result_of fst snd].
  rewrite (bind_ok _ _ _ _ _ _ Hloop). unfold emit, state_of, trace_of. simpl.
  split_and!.
  - by rewrite Hw3.
  - apply list_elem_of_further. rewrite !elem_of_app. left. right. by left.
  - apply list_elem_of_further. rewrite !elem_of_app. left. right. by left.
Qed.

Lemma stop_worker_records_witness :
  workers (state_of (stop quiet_host false
                       (state_of (start false (unwired_engine worker))))) !! "app" = None.
Proof.
  apply (stop_worker_records quiet_host (state_of (start false (unwired_engine worker)))
           ["app"] "app" (create AppDef "app" VNull None (Some worker))
           {| w_pluginId := "app"; w_typeId := "app-type";
              w_entryPoint := "app.ts"; w_config := VNull |}).
  - vm_compute. reflexivity.
  - vm_compute. reflexivity.
  - reflexivity.
  - vm_compute. reflexivity.
Defined.

(** ** RPC: a call and its reply *)




(** ** RPC: replies nobody waits for *)

Lemma client_complete_absent {Msg} id st (c : Client Msg) :
  pending c !! id = None → client_complete id st c = c.
Proof.
  intros H. unfold client_complete. rewrite H, delete_id by done. by destruct c.
Qed.

Lemma client_complete_pending {Msg} id st (c : Client Msg) :
  pending (client_complete id st c) !! id = None.
Proof. unfold client_complete. simpl. apply lookup_delete_eq. Qed.

(** X16. On both channels a reply whose id has no pending entry (an
    unknown id, a call that already timed out) leaves the client as it
    is, and a reply is absorbed once: a second reply under the same id,
    whatever it carries, changes nothing. *)
Theorem reply_absorbed_once id :
  (∀ c m m', rpc_reply_id m = Some id → rpc_reply_id m' = Some id →
     (pending c !! id = None → rpc_client_on_message m c = c) ∧
     rpc_client_on_message m' (rpc_client_on_message m c) = rpc_client_on_message m c) ∧
  (∀ c m m', uplink_reply_id m = Some id → uplink_reply_id m' = Some id →
     (pending c !! id = None → uplink_client_on_message m c = c) ∧
     uplink_client_on_message m' (uplink_client_on_message m c)
       = uplink_client_on_message m c).
Proof.
  split; intros c m m' Hm Hm'.
  - destruct m; simplify_eq/=; destruct m'; simplify_eq/=;
      (split; [apply client_complete_absent |
               apply client_complete_absent, client_complete_pending]).
  - destruct m; simplify_eq/=; destruct m'; simplify_eq/=;
      (split; [apply client_complete_absent |
               apply client_complete_absent, client_complete_pending]).
Qed.

(** ** RPC: a promise settles once *)

Lemma client_complete_settled {Msg} id st (c : Client Msg) p s :
  promises c !! p = Some s → s ≠ Pending →
  promises (client_complete id st c) !! p = Some s.
Proof.
  intros Hp Hs. unfold client_complete.
  destruct (pending c !! id) as [entry|]; simpl; [|done]. by apply settle_settled.
Qed.

Lemma fold_fire_settled {Msg} (l : list Timer) (c : Client Msg) p s :
  promises c !! p = Some s → s ≠ Pending →
  promises (foldl timer_fire c l) !! p = Some s.
Proof.
  revert c. induction l as [|t l IH]; intros c Hp Hs; [done |].
  simpl. apply IH; [|done]. simpl. by apply settle_settled.
Qed.

Lemma elapse_settled {Msg} dt (c : Client Msg) p s :
  promises c !! p = Some s → s ≠ Pending → promises (elapse dt c) !! p = Some s.
Proof. intros Hp Hs. unfold elapse. by apply fold_fire_settled. Qed.

(** X17. Once a promise of a client is fulfilled or rejected it stays as
    it is: no later call, reply or timeout on the channel changes it. This
    holds of the downlink client, where a reply and the timer of a call
    race, and of the uplink client. *)
Theorem promise_settles_once p s :
  s ≠ Pending →
  (∀ timeoutMs evs c, promises c !! p = Some s →
     promises (foldl (rpc_client_step timeoutMs) c evs) !! p = Some s) ∧
  (∀ evs c, promises c !! p = Some s →
     promises (foldl uplink_client_step c evs) !! p = Some s).
Proof.
  intros Hs. split.
  - intros timeoutMs evs. induction evs as [|ev evs IH]; intros c Hp; [done |].
    simpl. apply IH. destruct ev as [req id|msg|dt]; simpl.
    + by apply lookup_app_l_Some.
    + destruct msg; simpl; try done; by apply client_complete_settled.
    + by apply elapse_settled.
  - intros evs. induction evs as [|ev evs IH]; intros c Hp; [done |].
    simpl. apply IH. destruct ev as [req id|msg|dt]; simpl.
    + by apply lookup_app_l_Some.
    + destruct msg; simpl; try done; by apply client_complete_settled.
    + by apply elapse_settled.
Qed.

Lemma promise_settles_once_witness :
  promises (foldl (rpc_client_step DEFAULT_RPC_TIMEOUT_MS)
              (rpc_client_on_message (RESPONSE "c1" (VStr "row"))
                 (rpc_call DEFAULT_RPC_TIMEOUT_MS query_request "c1" (client_new 0)).1)
              [Elapse 60000; Receive (ERROR "c1" "late")]) !! 0
    = Some (Fulfilled (VStr "row")).
Proof.
  apply (promise_settles_once 0 (Fulfilled (VStr "row"))); [discriminate |].
  vm_compute. reflexivity.
Defined.

(** ** Uplink: a call and its reply *)



(** ** The registry only grows *)

Lemma registerService_keeps (m0 : gmap string Value) id schema impl validate :
  preserves (fun c => m0 ⊆ services c) (registerService id schema impl validate).
Proof.
  intros c Hc. unfold registerService. rewrite bind_gets.
  destruct (services_has id c) eqn:Hhas; [done |].
  assert (m0 ⊆ services (services_set id impl c)) as Hset.
  { etrans; [exact Hc |]. apply insert_subseteq.
    unfold services_has in Hhas. apply bool_decide_eq_false in Hhas.
    by apply eq_None_not_Some. }
  destruct validate.
  - unfold call_parse, try_catch, bind, emit, lift_result, ret, throw, modify, state_of.
    by destruct (parse schema impl).
  - done.
Qed.

Lemma run_setup_keeps (m0 : gmap string Value) p :
  preserves (fun c => m0 ⊆ services c) (run_setup p).
Proof.
  induction p as [v|e|id schema impl validate k IH|id k IH|id k IH]; simpl.
  - apply preserves_ret.
  - apply preserves_throw.
  - apply preserves_bind; [|intros r; apply IH].
    apply preserves_reify, registerService_keeps.
  - apply preserves_bind; [|intros r; apply IH].
    apply preserves_reify. unfold getService.
    apply preserves_bind; [apply preserves_gets |].
    intros [v|]; [apply preserves_ret | apply preserves_throw].
  - apply preserves_bind; [|intros r; apply IH]. apply preserves_gets.
Qed.

Lemma on_context_keeps {A} (m0 : gmap string Value) (m : M PluginContext A) :
  preserves (fun c => m0 ⊆ services c) m →
  preserves (fun e => m0 ⊆ services (context e)) (on_context m).
Proof.
  intros Hm s Hs. specialize (Hm (context s) Hs).
  unfold on_context, zoom, state_of in *.
  by destruct (m (context s)) as [[c t] r].
Qed.

Lemma resolve_deps_keeps (m0 : gmap string Value) id w reqs deps :
  preserves (fun e => m0 ⊆ services (context e)) (resolve_deps id w reqs deps).
Proof.
  intros e He. destruct (resolve_deps_pure e id w reqs deps) as [r ->]. done.
Qed.

Lemma start_instance_keeps (m0 : gmap string Value) id :
  preserves (fun e => m0 ⊆ services (context e)) (start_instance id).
Proof.
  unfold start_instance, undefined_read, call_parse, log.
  repeat first
    [ apply preserves_ret | apply preserves_throw | apply preserves_emit
    | apply preserves_gets | apply preserves_lift_result
    | apply resolve_deps_keeps
    | apply on_context_keeps;
      first [ apply run_setup_keeps | apply registerService_keeps
            | apply preserves_gets ]
    | apply preserves_bind; [|intros ?]
    | case_match ].
  apply preserves_modify. by intros s' Hs.
Qed.

Lemma run_op_keeps_services (m0 : gmap string Value) op :
  preserves (fun e => m0 ⊆ services (context e)) (run_op op).
Proof.
  destruct op; simpl.
  - intros e He. rewrite registerDefinition_eq. by repeat case_match.
  - by intros e He.
  - intros e He. rewrite registerPlugin_eq. by repeat case_match.
  - unfold start, resolve_order, log.
    repeat first
      [ apply start_instance_keeps
      | apply preserves_ret | apply preserves_throw | apply preserves_emit
      | apply preserves_gets | apply preserves_lift_result
      | apply preserves_bind; [|intros ?]
      | apply preserves_for_of; intros ?
      | case_match ].
  - intros e He. destruct (stop_keeps_stop e host dryRun e) as [-> _]; [|done].
    by split_and!.
Qed.

(** X19. The service registry only grows: a service that is registered
    stays registered with the same value, whatever is called on the engine
    afterwards. No [setup], no later [start] and no [stop] replaces or
    removes it. *)
Theorem registry_append_only ops e sid v :
  services (context e) !! sid = Some v →
  services (context (run_ops ops e).1) !! sid = Some v.
Proof.
  intros Hv.
  assert (services (context e) ⊆ services (context (run_ops ops e).1)) as Hsub.
  { by apply (run_ops_preserves (fun e' => services (context e) ⊆ services (context e')));
      [intros op; apply run_op_keeps_services |]. }
  by eapply lookup_weaken.
Qed.

Lemma registry_append_only_witness :
  services (context (run_ops [OpStop quiet_host false; OpStart false] started_engine).1)
    !! "sys-logger" = Some (VObj "logger").
Proof.
  apply (registry_append_only [OpStop quiet_host false; OpStart false] started_engine).
  vm_compute. reflexivity.
Defined.

(** ** [start]: the workers of a run that succeeded *)

Lemma start_instance_untyped e id plugin :
  instances_get (instances e) id = Some plugin →
  pluginTypes e !! inst_typeId plugin = None →
  ∃ err, result_of (start_instance id e) = Err err.
Proof.
  intros Hget Hty. unfold start_instance. rewrite bind_gets, Hget, bind_gets, Hty.
  unfold log, bind, emit, undefined_read, throw, result_of. simpl. by eexists.
Qed.

(** X20. After a [start] that returned, every worker-mode instance has a
    worker record and the RPC proxy of its worker is the service registered
    under its id, however many instances were started after it. *)
Theorem start_workers_ready e id plugin :
  result_of (start false e) = Ok tt →
  instances_get (instances e) id = Some plugin →
  inst_mode plugin = worker →
  let e' := state_of (start false e) in
  services (context e') !! id = Some (VProxy id) ∧ is_Some (workers e' !! id).
Proof.
  intros Hok Hget Hmode e'. subst e'.
  destruct (resolveExecutionOrder (instances e)) as [order|err] eqn:Hres;
    [|by rewrite (start_resolve_err false e err Hres) in Hok].
  destruct (resolveExecutionOrder_ok _ _ Hres) as (_ & Hkeys & _).
  assert (id ∈ order) as Hin by (apply Hkeys; by eapply instances_get_Some_keys).
  apply list_elem_of_split in Hin as (l1 & l2 & ->).
  destruct (start_unfold e _ Hres) as [Hr Hs]. rewrite Hr in Hok. rewrite Hs.
  clear Hr Hs Hres Hkeys.
  revert Hok. rewrite for_of_app.
  intros ([] & _ & Hok & ->)%bind_result_ok. revert Hok.
  set (s1 := state_of (for_of l1 start_instance e)).
  destruct (preserves_for_of _ l1 start_instance
              (fun x => preserves_start_instance _ x
                          (lifecycle_frame_store (instances e) (pluginTypes e)))
              e (conj eq_refl eq_refl)) as [Hi Ht].
  fold s1 in Hi, Ht.
  cbn [for_of]. intros ([] & Hid & Hok & ->)%bind_result_ok.
  assert (instances_get (instances s1) id = Some plugin) as Hget1 by (by rewrite Hi).
  destruct (pluginTypes s1 !! inst_typeId plugin) as [type|] eqn:Hty;
    [|destruct (start_instance_untyped s1 id plugin Hget1 Hty) as [err Herr]; congruence].
  set (s2 := state_of (start_instance id s1)) in *.
  assert (services (context s2) !! id = Some (VProxy id) ∧ is_Some (workers s2 !! id))
    as [Hsvc Hw].
  { subst s2. revert Hid.
    rewrite (start_instance_worker_eq s1 id plugin type Hget1 Hmode Hty). cbv zeta.
    destruct (parse (def_schema type) (inst_config plugin)) as [cfg|]; [|done].
    destruct (def_entryPoint type) as [ep|]; [|done].
    destruct (String.eqb ep ""); [done |].
    destruct (services_has id (context s1)); [done |]. intros _.
    unfold state_of. simpl. rewrite !lookup_insert_eq. split; [done | by eexists]. }
  split.
  - assert (services (context s2) ⊆ services (context (state_of (for_of l2 start_instance s2))))
      as Hsub.
    { by apply (preserves_for_of _ l2 start_instance
                  (fun x => start_instance_keeps (services (context s2)) x) s2). }
    by eapply lookup_weaken.
  - by apply (preserves_for_of _ l2 start_instance
                (fun x => start_instance_extends s2 x) s2);
      [split; [by intros ? ? | by intros ? ?] |].
Qed.

Lemma start_workers_ready_witness :
  services (context (state_of (start false (unwired_engine worker)))) !! "app"
    = Some (VProxy "app").
Proof.
  apply (start_workers_ready (unwired_engine worker) "app"
           (create AppDef "app" VNull None (Some worker))).
  - vm_compute. reflexivity.
  - vm_compute. reflexivity.
  - reflexivity.
Defined.

(** ** Worker host: finding the definition *)








Example bootstrap_class_default :
  let data := worker_data ZeroDef in
  find_definition (w_typeId data) [("default", ExportBare TFunction "zero")]
    = Some (ExportBare TFunction "zero") ∧
  find_definition (w_typeId data) [("Zero", ExportBare TFunction "zero")] = None ∧
  bootstrap data (Ok [("default", ExportBare TFunction "zero")])
    = Fatal (new_TypeError "def.setup is not a function").
Proof. by vm_compute. Qed.

(** ** The error helpers *)

(** X22. [serializeError] keeps the name and the stack and never produces
    an empty message; [deserializeError] gives back the error that was
    serialized exactly when its message was not empty. *)
Theorem serializeError_roundtrip err :
  name (serializeError err) = name err ∧
  stack (serializeError err) = stack err ∧
  message (serializeError err) ≠ "" ∧
  (deserializeError (serializeError err) = err ↔ message err ≠ "").
Proof.
  unfold deserializeError, serializeError. destruct err as [n m s]. simpl.
  destruct (String.eqb_spec m "") as [->|Hne]; by split_and!.
Qed.

(** ** The wait of [gracefulTeardown] *)

Lemma teardown_handler_inv d msg w : wait_inv d w → wait_inv d (teardown_handler msg w).
Proof.
  intros Hw. unfold teardown_handler. destruct (tw_handler w); [|done].
  destruct msg; try done. destruct (String.eqb id (tw_id w)); [|done]. by left.
Qed.

Lemma teardown_run_resolves d evs :
  ∀ w, wait_inv d w → (d ≤ tw_now w + elapsed evs)%Z →
       tw_resolved (foldl teardown_step w evs) = true ∧
       tw_timer (foldl teardown_step w evs) = None.
Proof.
  induction evs as [|ev evs IH]; intros w Hw Hd.
  - simpl in *. destruct Hw as [?|[_ ?]]; [done | lia].
  - destruct ev as [[]|msg|dt]; cbn [foldl teardown_step].
    + apply IH; [by apply teardown_handler_inv |].
      assert (tw_now (teardown_handler msg w) = tw_now w) as ->; [|done].
      unfold teardown_handler. by repeat case_match.
    + simpl in Hd. apply IH.
      * unfold teardown_elapse. destruct Hw as [[Hr Ht]|[Ht Hn]]; rewrite Ht.
        -- simpl. by left.
        -- destruct (Z.leb_spec d (tw_now w + Z.of_N dt)); simpl; [by left | by right].
      * assert (tw_now (teardown_elapse dt w) = (tw_now w + Z.of_N dt)%Z) as ->; [|lia].
        unfold teardown_elapse. by case_match.
Qed.

Lemma setTimeout_delay_bounds ms :
  (1 ≤ setTimeout_delay ms)%Z ∧ ((0 < ms)%Z → (setTimeout_delay ms ≤ ms)%Z).
Proof.
  unfold setTimeout_delay.
  destruct (Z.leb_spec 1 ms), (Z.leb_spec ms TIMEOUT_MAX); simpl; lia.
Qed.

(** X23. The promise of [gracefulTeardown] never stays pending past its
    timeout: whatever the worker sends or fails to send, once [timeoutMs]
    milliseconds have passed [resolve] has been called and the safety timer
    is no longer armed. *)
Theorem gracefulTeardown_resolves workerId id timeoutMs t0 evs :
  (0 < timeoutMs)%Z →
  (timeoutMs ≤ elapsed evs)%Z →
  let w := foldl teardown_step (teardown_begin workerId id timeoutMs t0) evs in
  tw_resolved w = true ∧ tw_timer w = None.
Proof.
  intros Hpos Hlate.
  destruct (setTimeout_delay_bounds timeoutMs) as [Hlo Hhi]. specialize (Hhi Hpos).
  apply (teardown_run_resolves (t0 + setTimeout_delay timeoutMs)).
  - right. simpl. split; [done | lia].
  - simpl. lia.
Qed.

Lemma gracefulTeardown_resolves_witness :
  tw_resolved (foldl teardown_step (teardown_begin "app" "td-app" 5000 0)
                 [Elapse 2000; Receive (TEARDOWN_COMPLETE "other" None); Elapse 3000]) = true.
Proof.
  apply (gracefulTeardown_resolves "app" "td-app" 5000 0
           [Elapse 2000; Receive (TEARDOWN_COMPLETE "other" None); Elapse 3000]).
  - reflexivity.
  - vm_compute. discriminate.
Defined.

(** While no completion of the teardown arrives and the timer is not due,
    nothing happens but the clock. *)
Lemma teardown_quiet_run workerId id d evs :
  ∀ w, Forall (fun ev => teardown_touches id ev = false) evs →
       tw_id w = id → tw_worker w = workerId → tw_timer w = Some d →
       (tw_now w + elapsed evs < d)%Z →
       let w' := foldl teardown_step w evs in
       tw_id w' = id ∧ tw_worker w' = workerId ∧ tw_timer w' = Some d ∧
       tw_handler w' = tw_handler w ∧ tw_resolved w' = tw_resolved w ∧
       tw_events w' = tw_events w ∧ tw_now w' = (tw_now w + elapsed evs)%Z.
Proof.
  induction evs as [|ev evs IH]; intros w Hq Hid Hwk Ht Hd.
  - simpl. split_and!; try done. lia.
  - apply Forall_cons in Hq as [Hev Hq].
    destruct ev as [[]|msg|dt]; cbn [foldl teardown_step].
    + assert (teardown_handler msg w = w) as ->; [|by apply IH].
      unfold teardown_handler. destruct (tw_handler w); [|done].
      destruct msg; try done. simpl in Hev. by rewrite Hid, Hev.
    + simpl in Hd. pose proof (N2Z.is_nonneg dt) as Hdt.
      assert (0 ≤ elapsed evs)%Z as Hel.
      { clear. induction evs as [|[[]|?|?] ? IH]; simpl; lia. }
      assert (teardown_elapse dt w
              = {| tw_worker := tw_worker w; tw_id := tw_id w; tw_timer := tw_timer w;
                   tw_handler := tw_handler w; tw_resolved := tw_resolved w;
                   tw_events := tw_events w; tw_now := (tw_now w + Z.of_N dt)%Z |}) as ->.
      { unfold teardown_elapse. rewrite Ht.
        destruct (Z.leb_spec d (tw_now w + Z.of_N dt)); [lia | done]. }
      match goal with |- context [foldl teardown_step ?w2 evs] =>
        destruct (IH w2 Hq) as (? & ? & ? & ? & ? & ? & Hn);
          [done | done | done | simpl; lia |]
      end.
      cbv zeta in *. split_and!; try done. rewrite Hn. simpl. lia.
Qed.

(** Once the handler is detached and the timer disarmed, nothing happens
    but the clock. *)
Lemma teardown_done_run evs :
  ∀ w, tw_handler w = false → tw_timer w = None →
       tw_events (foldl teardown_step w evs) = tw_events w ∧
       tw_resolved (foldl teardown_step w evs) = tw_resolved w.
Proof.
  induction evs as [|ev evs IH]; intros w Hh Ht; [done |].
  destruct ev as [[]|msg|dt]; cbn [foldl teardown_step].
  - unfold teardown_handler. rewrite Hh. by apply IH.
  - unfold teardown_elapse. rewrite Ht. simpl.
    match goal with |- context [foldl teardown_step ?w2 evs] =>
      by destruct (IH w2 Hh eq_refl) as [-> ->] end.
Qed.

(** X24. The engine's view of [gracefulTeardown] agrees with the wait it
    abstracts, for a timeout that [setTimeout] honours (at least 1 and at
    most [TIMEOUT_MAX]; the engine passes 5000). If the worker sends no
    completion of the teardown and the timeout passes, the wait posts the signal, force-terminates the worker
    and warns, as the engine records for a worker that does not reply. If
    the completion arrives before the timeout, the wait posts the signal
    and logs the error of the completion when it is not empty, whatever
    happens afterwards, as the engine records for that reply; the worker is
    not force-terminated. *)
Theorem gracefulTeardown_refines host workerId timeoutMs t0 e :
  (0 < timeoutMs ≤ TIMEOUT_MAX)%Z →
  let id := nanoid host workerId in
  let w0 := teardown_begin workerId id timeoutMs t0 in
  let abstract := trace_of (gracefulTeardown host workerId timeoutMs e) in
  (∀ evs, teardown_reply host workerId = NoReply →
          Forall (fun ev => teardown_touches id ev = false) evs →
          (timeoutMs ≤ elapsed evs)%Z →
          tw_events (foldl teardown_step w0 evs) = abstract) ∧
  (∀ before error later,
     teardown_reply host workerId = completion_reply error →
     Forall (fun ev => teardown_touches id ev = false) before →
     (elapsed before < timeoutMs)%Z →
     let w := foldl teardown_step w0
                (before ++ Receive (TEARDOWN_COMPLETE id error) :: later) in
     tw_events w = abstract ∧ tw_resolved w = true ∧
     EvTerminate workerId ∉ tw_events w).
Proof.
  intros Hbound id w0 abstract.
  assert (0 < timeoutMs)%Z as Hpos by lia.
  assert (w0 = {| tw_worker := workerId; tw_id := id;
                  tw_timer := Some (t0 + timeoutMs)%Z;
                  tw_handler := true; tw_resolved := false;
                  tw_events := [EvPost workerId (TEARDOWN id)]; tw_now := t0 |}) as Hw0.
  { subst w0. unfold teardown_begin. by rewrite (setTimeout_delay_id _ Hbound). }
  clearbody w0. subst w0.
  set (w0 := {| tw_worker := workerId; tw_id := id;
                tw_timer := Some (t0 + timeoutMs)%Z;
                tw_handler := true; tw_resolved := false;
                tw_events := [EvPost workerId (TEARDOWN id)]; tw_now := t0 |}).
  split.
  - intros evs Hreply Hquiet Hlate.
    assert (abstract = [EvPost workerId (TEARDOWN id); EvTerminate workerId;
                        EvWarn "[RPC] Worker teardown timed out. Force terminated."])
      as ->.
    { subst abstract. unfold gracefulTeardown. rewrite Hreply. done. }
    (* the run up to the step at which the timer fires *)
    assert (∀ evs w, Forall (fun ev => teardown_touches id ev = false) evs →
              tw_id w = id → tw_worker w = workerId → tw_handler w = true →
              tw_timer w = Some (t0 + timeoutMs)%Z → (tw_now w < t0 + timeoutMs)%Z →
              (t0 + timeoutMs ≤ tw_now w + elapsed evs)%Z →
              tw_events (foldl teardown_step w evs)
                = tw_events w ++ [EvTerminate workerId;
                     EvWarn "[RPC] Worker teardown timed out. Force terminated."]) as Hrun.
    { clear. intros evs. induction evs as [|ev evs IH]; intros w Hq Hid Hwk Hh Ht Hn Hd.
      - simpl in Hd. lia.
      - apply Forall_cons in Hq as [Hev Hq].
        destruct ev as [[]|msg|dt]; cbn [foldl teardown_step].
        + assert (teardown_handler msg w = w) as ->; [|by apply IH].
          unfold teardown_handler. rewrite Hh.
          destruct msg; try done. simpl in Hev. by rewrite Hid, Hev.
        + simpl in Hd. unfold teardown_elapse. rewrite Ht.
          destruct (Z.leb_spec (t0 + timeoutMs) (tw_now w + Z.of_N dt)).
          * (* fires: afterwards only a completion could add to the events *)
            clear IH Hd.
            match goal with |- tw_events (foldl _ ?w1 _) = _ =>
              assert (∀ evs' w', Forall (fun ev => teardown_touches id ev = false) evs' →
                        tw_id w' = id → tw_timer w' = None →
                        tw_events (foldl teardown_step w' evs') = tw_events w') as Hafter
            end.
            { clear. intros evs'. induction evs' as [|ev evs' IH]; intros w' Hq Hid Ht; [done |].
              apply Forall_cons in Hq as [Hev Hq].
              destruct ev as [[]|msg|dt]; cbn [foldl teardown_step].
              - assert (teardown_handler msg w' = w') as ->; [|by apply IH].
                unfold teardown_handler. destruct (tw_handler w'); [|done].
                destruct msg; try done. simpl in Hev. by rewrite Hid, Hev.
              - unfold teardown_elapse. rewrite Ht. simpl. by rewrite IH. }
            rewrite Hafter; [by rewrite Hwk | done..].
          * rewrite IH; [done | done | done | done | done | done | simpl; lia | simpl; lia]. }
    rewrite Hrun; [done | done | done | done | done | done | simpl; lia | simpl; lia].
  - intros before error later Hreply Hquiet Hearly w. subst w.
    assert (abstract = EvPost workerId (TEARDOWN id) ::
                       match error with
                       | Some err => if String.eqb err "" then []
                                     else [EvWarn ("[RPC] Worker teardown failed: " +:+ err)]
                       | None => []
                       end) as ->.
    { subst abstract. unfold gracefulTeardown. rewrite Hreply. unfold completion_reply.
      destruct error as [err|]; [|done]. by destruct (String.eqb err ""). }
    rewrite foldl_app. cbn [foldl teardown_step].
    destruct (teardown_quiet_run workerId id (t0 + timeoutMs)%Z before w0 Hquiet)
      as (Hid & Hwk & Ht & Hh & Hr & Hev & Hn); [done | done | done | simpl; lia |].
    set (w1 := foldl teardown_step w0 before) in *.
    assert (teardown_handler (TEARDOWN_COMPLETE id error) w1
            = {| tw_worker := tw_worker w1; tw_id := tw_id w1; tw_timer := None;
                 tw_handler := false; tw_resolved := true;
                 tw_events := tw_events w1 ++
                   match error with
                   | Some err => if String.eqb err "" then []
                                 else [EvWarn ("[RPC] Worker teardown failed: " +:+ err)]
                   | None => []
                   end;
                 tw_now := tw_now w1 |}) as ->.
    { unfold teardown_handler. rewrite Hh, Hid. simpl. by rewrite String.eqb_refl. }
    match goal with |- context [foldl teardown_step ?w2 later] =>
      destruct (teardown_done_run later w2 eq_refl eq_refl) as [-> ->] end.
    cbn [tw_events tw_resolved]. rewrite Hev. simpl. split_and!; [done | done |].
    intros [?|Hin]%elem_of_cons; [done |].
    destruct error as [err|]; [|by apply elem_of_nil in Hin].
    destruct (String.eqb err ""); [by apply elem_of_nil in Hin |].
    apply list_elem_of_singleton in Hin. done.
Qed.

Lemma gracefulTeardown_refines_witness :
  tw_events (foldl teardown_step (teardown_begin "app" "td-app" 5000 0) [Elapse 5000])
    = trace_of (gracefulTeardown
                  {| nanoid := fun w => "td-" +:+ w;
                     teardown_reply := fun _ => NoReply;
                     terminate_result := fun _ => Ok tt |} "app" 5000 EazyCore_new).
Proof.
  apply (gracefulTeardown_refines
           {| nanoid := fun w => "td-" +:+ w;
              teardown_reply := fun _ => NoReply;
              terminate_result := fun _ => Ok tt |} "app" 5000 0 EazyCore_new).
  - unfold TIMEOUT_MAX. lia.
  - reflexivity.
  - repeat constructor.
  - vm_compute. discriminate.
Defined.

(** X25. The teardown handshake. A serving worker answers a [TEARDOWN]
    request with exactly one completion frame that carries the id of the
    request, with an error exactly when the type has a teardown hook and
    the hook threw. On that frame the wait of [gracefulTeardown] resolves,
    detaches its handler and disarms its timer: the worker is not
    force-terminated, then or later. *)
Theorem teardown_handshake def pluginId workerId id timeoutMs t0 later :
  let w0 := teardown_begin workerId id timeoutMs t0 in
  let replies := worker_on_message def pluginId (TEARDOWN id) in
  let w1 := foldl (fun w m => teardown_handler m w) w0 replies in
  (∃ error, replies = [TEARDOWN_COMPLETE id error] ∧
            (is_Some error ↔
             ∃ teardown err, def_teardown def = Some teardown ∧
                             teardown pluginId = Err err)) ∧
  tw_resolved w1 = true ∧ tw_handler w1 = false ∧ tw_timer w1 = None ∧
  tw_events (foldl teardown_step w1 later) = tw_events w1 ∧
  EvTerminate workerId ∉ tw_events (foldl teardown_step w1 later).
Proof.
  intros w0 replies w1.
  assert (∃ error, replies = [TEARDOWN_COMPLETE id error] ∧
            (is_Some error ↔
             ∃ teardown err, def_teardown def = Some teardown ∧
                             teardown pluginId = Err err)) as (error & Hreplies & Herr).
  { subst replies. unfold worker_on_message.
    destruct (def_teardown def) as [teardown|].
    - destruct (teardown pluginId) as [[]|err] eqn:Htd.
      + exists None. split; [done |]. split; [by intros [? ?] |].
        intros (td & err & [= <-] & ?). congruence.
      + exists (Some (message err)). split; [done |]. split; [|by eexists].
        intros _. by exists teardown, err.
    - exists None. split; [done |]. split; [by intros [? ?] |].
      by intros (td & err & ? & _). }
  split; [by exists error |].
  assert (w1 = {| tw_worker := workerId; tw_id := id; tw_timer := None;
                  tw_handler := false; tw_resolved := true;
                  tw_events := [EvPost workerId (TEARDOWN id)] ++
                    match error with
                    | Some err => if String.eqb err "" then []
                                  else [EvWarn ("[RPC] Worker teardown failed: " +:+ err)]
                    | None => []
                    end;
                  tw_now := t0 |}) as ->.
  { subst w1. rewrite Hreplies. subst w0. cbn [foldl].
    unfold teardown_handler, teardown_begin. simpl. by rewrite String.eqb_refl. }
  match goal with |- context [foldl teardown_step ?w2 later] =>
    destruct (teardown_done_run later w2 eq_refl eq_refl) as [-> _] end.
  split_and!; [done..|]. simpl.
  intros [?|Hin]%elem_of_cons; [done |].
  destruct error as [err|]; [|by apply elem_of_nil in Hin].
  destruct (String.eqb err ""); [by apply elem_of_nil in Hin |].
  by apply list_elem_of_singleton in Hin.
Qed.

(** ** [start]: a config the schema rejects *)

(** X27. When the schema of its type rejects the config of an instance,
    starting the instance throws the error of the schema as it is, in
    either mode, before any requirement is looked up: the engine is left as
    it was, [setup] is not called and no worker is spawned. *)
Theorem start_instance_config_rejected e id plugin type err :
  instances_get (instances e) id = Some plugin →
  pluginTypes e !! inst_typeId plugin = Some type →
  parse (def_schema type) (inst_config plugin) = Err err →
  start_instance id e
    = (e, [EvLog ("   [" +:+ id +:+ "] Initializing (" +:+ mode_name (inst_mode plugin)
                  +:+ ")...");
           EvParse (schema_name (def_schema type)) (inst_config plugin)],
       Err err).
Proof.
  intros Hget Htype Hparse. unfold start_instance.
  rewrite bind_gets, Hget, bind_gets, Htype.
  unfold log, call_parse, bind, emit, lift_result. by rewrite Hparse.
Qed.

Lemma start_instance_config_rejected_witness :
  result_of (start_instance "svc"
               (engine_of [OpRegisterDefinition ReturningDef;
                           OpRegisterPlugin (create ReturningDef "svc" VNull None None)]))
    = Err {| name := "ZodError"; message := "expected object";
             stack := "ZodError: expected object" |}.
Proof.
  rewrite (start_instance_config_rejected
             (engine_of [OpRegisterDefinition ReturningDef;
                         OpRegisterPlugin (create ReturningDef "svc" VNull None None)])
             "svc" (create ReturningDef "svc" VNull None None) ReturningDef
             {| name := "ZodError"; message := "expected object";
                stack := "ZodError: expected object" |}).
  - reflexivity.
  - vm_compute. reflexivity.
  - vm_compute. reflexivity.
  - reflexivity.
Defined.

(** ** The lock and the instances *)

(** X28. The lock of the registry of types bears on types only:
    [registerPlugin] completes the same way and stores the same instance
    whether the registry is locked or not. *)
Theorem registerPlugin_ignores_lock plugin e locked :
  let r := registerPlugin plugin e in
  registerPlugin plugin (set_definitionsLocked locked e)
    = (set_definitionsLocked locked (state_of r), trace_of r, result_of r).
Proof.
  cbv zeta. rewrite !registerPlugin_eq. destruct e as [c t i w l]. simpl.
  destruct (negb _); [done |]. by destruct (instances_has i (inst_id plugin)).
Qed.

(** ** [start]: a requirement that the wiring object only inherits *)

Lemma resolve_deps_inherited e id w before key after rendered :
  (∀ k, k ∈ before → wired (context e) w k) →
  wiring_read w key = Inherited rendered →
  ∀ deps, resolve_deps id w (before ++ key :: after) deps e
          = (e, [], Err (ServiceNotFound rendered)).
Proof.
  intros Hwired Hread. induction before as [|k before IH]; intros deps; simpl.
  - by rewrite Hread.
  - destruct (Hwired k (list_elem_of_here _ _)) as (sid & Hsid & Hne & Hhas).
    rewrite (proj1 (wiring_read_own _ _ _) Hsid).
    apply String.eqb_neq in Hne as ->.
    destruct (on_context_getService e sid Hhas) as [v Hv].
    unfold bind. rewrite Hv, IH; [done |].
    intros k' Hk'. apply Hwired. by apply list_elem_of_further.
Qed.

(** X30. A requirement whose name the wiring object does not own but
    inherits from [Object.prototype] ([toString], [constructor], ...) is
    not reported as missing wiring: the inherited value passes the test of
    the loop, no service is registered under it, and [start] throws the
    not-found error of the registry with the rendering of that value. *)
Theorem start_wiring_inherited e before id after plugin type cfg reqs rbefore key rafter
    rendered :
  resolveExecutionOrder (instances e) = Ok (before ++ id :: after) →
  let r0 := for_of before start_instance e in
  result_of r0 = Ok tt →
  instances_get (instances e) id = Some plugin →
  inst_mode plugin = main →
  pluginTypes e !! inst_typeId plugin = Some type →
  parse (def_schema type) (inst_config plugin) = Ok cfg →
  def_requirements type = Some reqs →
  Object_keys reqs = rbefore ++ key :: rafter →
  (∀ k, k ∈ rbefore → wired (context (state_of r0)) (inst_wiring plugin) k) →
  wiring_read (inst_wiring plugin) key = Inherited rendered →
  result_of (start false e) = Err (ServiceNotFound rendered).
Proof.
  intros Hres r0 Hr0 Hget Hmode Htype Hparse Hreqs Hkeys Hwired Hread.
  pose proof (preserves_for_of _ before start_instance
    (fun x => preserves_start_instance _ x
                (lifecycle_frame_store (instances e) (pluginTypes e)))
    e (conj eq_refl eq_refl)) as [Hi Ht].
  fold r0 in Hi, Ht.
  pose proof (start_unfold e _ Hres) as [-> _].
  eapply for_of_abort; [done |]. fold r0.
  unfold start_instance. rewrite bind_gets, Hi, Hget, bind_gets, Ht, Htype.
  rewrite Hmode, Hreqs, Hkeys.
  unfold log, call_parse, bind, emit, lift_result. rewrite Hparse.
  by rewrite (resolve_deps_inherited (state_of r0) id _ rbefore key rafter rendered
                Hwired Hread).
Qed.

Lemma start_wiring_inherited_witness :
  result_of (start false inherited_wiring_engine)
    = Err (ServiceNotFound "function toString() { [native code] }").
Proof.
  apply (start_wiring_inherited inherited_wiring_engine [] "app" []
           (create ProtoDef "app" VNull None None) ProtoDef VNull
           [("toString", any_schema)] [] "toString" []
           "function toString() { [native code] }").
  - vm_compute. reflexivity.
  - vm_compute. reflexivity.
  - vm_compute. reflexivity.
  - reflexivity.
  - vm_compute. reflexivity.
  - reflexivity.
  - reflexivity.
  - reflexivity.
  - intros k Hk. by apply elem_of_nil in Hk.
  - vm_compute. reflexivity.
Defined.

(** ** Renderings and property reads on the samples *)

Example toString_renderings :
  toString (new_Error "socket busy") = "Error: socket busy" ∧
  toString (new_Error "") = "Error" ∧
  toString {| name := ""; message := "plain"; stack := "" |} = "plain" ∧
  toString {| name := "ZodError"; message := "expected object";
              stack := "ZodError: expected object" |} = "expected object".
Proof. by vm_compute. Qed.

Example stop_mute_engine :
  trace_of (stop quiet_host false mute_engine)
    = [EvLog (nl +:+ "EazyCore Stopping..."); EvTeardown "m";
       EvLog "   [m] Error during teardown: Error"; EvLog "System Stopped"] ∧
  result_of (stop quiet_host false mute_engine) = Ok tt.
Proof. by vm_compute. Qed.

Example contract_violation_message :
  result_of (registerService "db" object_schema (VNum 7) true PluginContext_new)
    = Err (new_Error "Service 'db' failed contract validation: expected object").
Proof. by vm_compute. Qed.

Example start_inherited_wiring :
  wiring_read [] "toString" = Inherited "function toString() { [native code] }" ∧
  result_of (start false inherited_wiring_engine)
    = Err (new_Error "Service 'function toString() { [native code] }' not found.").
Proof. by vm_compute. Qed.

Example uplink_server_inherited_wiring :
  uplink_server_on_message (fun _ _ => None) PluginContext_new []
    (UPLINK_CALL "u1" "constructor" "info" [])
    = [UPLINK_ERROR "u1" "Service 'function Object() { [native code] }' not found."].
Proof. by vm_compute. Qed.

Example setTimeout_delay_clamps :
  setTimeout_delay 5000 = 5000%Z ∧ setTimeout_delay 2147483647 = 2147483647%Z ∧
  setTimeout_delay 2147483648 = 1%Z ∧ setTimeout_delay 0 = 1%Z.
Proof. by vm_compute. Qed.
